(** * GtaVRadio: the client-side radio scheduler

    A shallow embedding of [utility.js] (the seeded number source, the
    anti-repetition draw pool and its manager) and of the module of the
    station classes (the three station schedulers), followed by the
    properties established about them.

    JavaScript numbers are modelled on two levels.  Numbers that the program
    only uses as integers (seeds, indexes, array positions, clock readings in
    milliseconds) are [Z].  Numbers that take part in floating-point
    arithmetic (durations, accumulated time, timestamps, the product inside
    the hash, the percentage compared with 50) are binary64 values, [float],
    computed with the kernel's IEEE 754 operations. *)

From Stdlib Require Import ZArith List Lia Floats.
From stdpp Require Import gmap strings list.

Local Open Scope Z_scope.

(** ** JavaScript number conversions *)

Module JS.

(** The binary64 value nearest to an integer (ties to even). *)
Definition ofZ (z : Z) : float :=
  SF2Prim (binary_normalize prec emax z 0 false).

(** The integer part of a number, as the abstract operations ToInt32 and
    ToUint32 take it: truncation toward zero, and 0 for NaN and the
    infinities. *)
Definition truncate (f : float) : Z :=
  match Prim2SF f with
  | S754_finite s m e =>
      let magnitude :=
        if 0 <=? e then Z.pos m * 2 ^ e else Z.pos m / 2 ^ (- e) in
      if s then - magnitude else magnitude
  | _ => 0
  end.

Definition ToUint32 (z : Z) : Z := z mod 2 ^ 32.

Definition ToInt32 (z : Z) : Z := (z + 2 ^ 31) mod 2 ^ 32 - 2 ^ 31.

(** [a ^ b] *)
Definition bitxor (a b : Z) : Z := ToInt32 (Z.lxor (ToInt32 a) (ToInt32 b)).

(** [a >>> k] *)
Definition ushr (a k : Z) : Z := Z.shiftr (ToUint32 a) (k mod 32).

(** [a * b] on two integer-valued numbers.  The result is the binary64
    product, which is again integer-valued; it differs from the exact
    product once that exceeds 53 bits. *)
Definition mul (a b : Z) : Z := truncate (PrimFloat.mul (ofZ a) (ofZ b)).

(** [a % b] on integer-valued numbers with [b <> 0]: the sign follows the
    dividend. *)
Definition rem (a b : Z) : Z := Z.rem a b.

(** Truthiness of a number: 0, -0 and NaN are falsy. *)
Definition truthy (f : float) : bool :=
  negb (PrimFloat.eqb f 0) && PrimFloat.eqb f f.

End JS.

(** ** utility.js: SeededPRNG *)

Record SeededPRNG := mkPRNG { seed : Z; index : Z }.

Module Prng.

(** [new SeededPRNG(seed)] *)
Definition new (seed : Z) : SeededPRNG := mkPRNG seed 0.

(** The value computed by [generate()] from the fields it reads. *)
Definition hash (seed index : Z) : Z :=
  let value := JS.bitxor seed index in
  let value := JS.mul (JS.bitxor value (JS.ushr value 21)) 0x45d9f3b in
  let value := JS.mul (JS.bitxor value (JS.ushr value 15)) 0x45d9f3b in
  let value := JS.bitxor value (JS.ushr value 13) in
  JS.ushr value 0.

(** Methods return the value together with the object's state afterwards. *)
Definition generate (p : SeededPRNG) : Z * SeededPRNG :=
  (hash (seed p) (index p), p).

Definition next (p : SeededPRNG) : Z * SeededPRNG :=
  let (value, p) := generate p in
  (value, mkPRNG (seed p) (index p + 1)).

(** [toFloat(number)] *)
Definition toFloat (number : Z) : float :=
  PrimFloat.div (JS.ofZ number) (JS.ofZ 0xFFFFFFFF).

(** [n] successive calls of a method, oldest result first. *)
Fixpoint iterate (method : SeededPRNG -> Z * SeededPRNG) (n : nat)
    (p : SeededPRNG) : list Z * SeededPRNG :=
  match n with
  | O => ([], p)
  | S n =>
      let (value, p) := method p in
      let (values, p) := iterate method n p in
      (value :: values, p)
  end.

End Prng.

(** The hash is never unfolded by [simpl]: its body is large once the number
    conversions are expanded. *)
#[global] Arguments Prng.hash : simpl never.
#[global] Arguments JS.mul : simpl never.
#[global] Arguments JS.ofZ : simpl never.
#[global] Arguments JS.truncate : simpl never.
#[global] Arguments Prng.toFloat : simpl never.

(** ** utility.js: IndexDrawPool *)

Record IndexDrawPool := mkPool {
  draw : list nat;          (* indexes available for the next draw *)
  discard : list nat;       (* queue of recently used indexes, oldest first *)
  dontRepeatFor : Z
}.

Module Pool.

(** [new IndexDrawPool(sourceSize, dontRepeatFor)] *)
Definition new (sourceSize : nat) (dontRepeatFor : Z) : IndexDrawPool :=
  mkPool (seq 0 sourceSize) [] dontRepeatFor.

(** The position at which [splice(start, 1)] begins on an array of length
    [len]: a negative [start] counts from the end. *)
Definition spliceStart (len : nat) (start : Z) : nat :=
  Z.to_nat (if start <? 0 then Z.max (Z.of_nat len + start) 0
            else Z.min start (Z.of_nat len)).

(** [next(randomInteger)]; [None] is JavaScript's [null]. *)
Definition next (randomInteger : Z) (p : IndexDrawPool)
    : option nat * IndexDrawPool :=
  if decide (length (draw p) = 0)%nat then (None, p) else
  let randomIndex := JS.rem randomInteger (Z.of_nat (length (draw p))) in
  let at_ := spliceStart (length (draw p)) randomIndex in
  match draw p !! at_ with
  | None => (None, p)  (* not reached, see [spliceStart_lt] *)
  | Some selected =>
      let draw1 := delete at_ (draw p) in
      let discard1 := discard p ++ [selected] in
      if dontRepeatFor p <? Z.of_nat (length discard1) then
        match discard1 with
        | index :: discard2 =>
            (Some selected, mkPool (draw1 ++ [index]) discard2 (dontRepeatFor p))
        | [] => (Some selected, mkPool draw1 discard1 (dontRepeatFor p))
        end
      else (Some selected, mkPool draw1 discard1 (dontRepeatFor p))
  end.

(** Successive draws, one per random integer. *)
Fixpoint draws (randomIntegers : list Z) (p : IndexDrawPool)
    : list (option nat) * IndexDrawPool :=
  match randomIntegers with
  | [] => ([], p)
  | r :: rs =>
      let (x, p) := next r p in
      let (xs, p) := draws rs p in
      (x :: xs, p)
  end.

End Pool.

(** ** utility.js: IndexDrawPoolManager *)

Module Manager.

(** The manager's [map]. *)
Abbreviation t := (gmap string IndexDrawPool).

Definition new : t := ∅.

(** The value of the optional parameter [dontRepeatFor] when a caller
    leaves it out. *)
Definition defaultDontRepeatFor : Z := 8.

(** [nextUniqueIndex(id, sourceSize, randomInteger, dontRepeatFor)].  The
    pool stored under [id] is updated in place. *)
Definition nextUniqueIndex (id : string) (sourceSize : nat)
    (randomInteger dontRepeatFor : Z) (m : t) : option nat * t :=
  let m :=
    match m !! id with
    | Some _ => m
    | None =>
        <[id := Pool.new sourceSize
                  (Z.min dontRepeatFor (Z.of_nat sourceSize - 1))]> m
    end in
  match m !! id with
  | Some indexQueue =>
      let (selected, indexQueue) := Pool.next randomInteger indexQueue in
      (selected, <[id := indexQueue]> m)
  | None => (None, m)  (* not reached: the key was just set *)
  end.

(** One call of [nextUniqueIndex] with all four arguments. *)
Record call := mkCall {
  call_id : string;
  call_sourceSize : nat;
  call_randomInteger : Z;
  call_dontRepeatFor : Z
}.

Definition perform (c : call) (m : t) : option nat * t :=
  nextUniqueIndex (call_id c) (call_sourceSize c) (call_randomInteger c)
    (call_dontRepeatFor c) m.

(** A sequence of calls on one manager; the results in call order. *)
Fixpoint run (cs : list call) (m : t) : list (option nat) * t :=
  match cs with
  | [] => ([], m)
  | c :: cs =>
      let (x, m) := perform c m in
      let (xs, m) := run cs m in
      (x :: xs, m)
  end.

End Manager.

(** ** constants.js *)

Definition localDataPath : string := "data/".

(** [getDataPath()] returns [lastUsedPath], which starts as [localDataPath];
    its only assignment, in [loadRadioMeta], reads the undeclared name
    [dataURL] and so throws before it assigns. *)
Definition getDataPath : string := localDataPath.

(** ** The platform clock

    [Date.now()] is a parameter [now] of every operation that reads the
    clock, in milliseconds since 1970-01-01T00:00Z; one call of an operation
    sees one reading.  The calendar functions below are the ones of the
    proleptic Gregorian calendar that [Date] implements. *)

Module Date.

Definition msPerDay : Z := 86400000.

(** Year, month (0 to 11) and day of month of a day number. *)
Definition civilFromDays (days : Z) : Z * Z * Z :=
  let z := days + 719468 in
  let era := z / 146097 in
  let doe := z - era * 146097 in
  let yoe := (doe - doe / 1460 + doe / 36524 - doe / 146096) / 365 in
  let doy := doe - (365 * yoe + yoe / 4 - yoe / 100) in
  let mp := (5 * doy + 2) / 153 in
  let d := doy - (153 * mp + 2) / 5 + 1 in
  let m := if mp <? 10 then mp + 3 else mp - 9 in
  let y := yoe + era * 400 + (if m <=? 2 then 1 else 0) in
  (y, m - 1, d).

(** Day number of a year, month (0 to 11) and day of month. *)
Definition daysFromCivil (year month day : Z) : Z :=
  let m := month + 1 in
  let y := if m <=? 2 then year - 1 else year in
  let era := y / 400 in
  let yoe := y - era * 400 in
  let doy := (153 * (if 2 <? m then m - 3 else m + 9) + 2) / 5 + day - 1 in
  let doe := yoe * 365 + yoe / 4 - yoe / 100 + doy in
  era * 146097 + doe - 719468.

Definition getUTCFullYear (t : Z) : Z := (civilFromDays (t / msPerDay)).1.1.

Definition getUTCMonth (t : Z) : Z := (civilFromDays (t / msPerDay)).1.2.

(** [Date.UTC(year, month, day)] for a month in 0..11; a year from 0 to 99
    stands for 1900 + year. *)
Definition UTC (year month day : Z) : Z :=
  let year := if (0 <=? year) && (year <=? 99) then 1900 + year else year in
  daysFromCivil year month day * msPerDay.

End Date.

(** ** Station classes: data *)

(** The objects that [resolveObjectPath] accepts: anything with a [path]. *)
Class HasPath (T : Type) := {
  getPath : T -> string;
  withPath : string -> T -> T
}.

(** A voice-over entry of a track's [voiceovers] array. *)
Record VoiceOver := mkVoiceOver {
  vo_path : string;
  vo_duration : float
}.

(** A segment descriptor of the station metadata.  [voiceOver] is the
    property that [DynamicStation.getRandomTrack] writes. *)
Record SegmentInfo := mkSegmentInfo {
  path : string;
  duration : float;
  audibleDuration : option float;
  voiceovers : option (list VoiceOver);
  voiceOver : option VoiceOver
}.

#[global] Instance VoiceOver_HasPath : HasPath VoiceOver := {|
  getPath := vo_path;
  withPath p v := mkVoiceOver p (vo_duration v)
|}.

#[global] Instance SegmentInfo_HasPath : HasPath SegmentInfo := {|
  getPath := path;
  withPath p s :=
    mkSegmentInfo p (duration s) (audibleDuration s) (voiceovers s) (voiceOver s)
|}.

(** A synced segment: the copy of a descriptor's properties made by
    [resolveObjectPath], and the two properties added to the copy.  [isTrack]
    is [None] while the property is not set. *)
Record SyncedSegment := mkSyncedSegment {
  info : SegmentInfo;
  startTimestamp : float;
  isTrack : option bool
}.

(** The parsed [station.json].  It is a tree: no object occurs twice in it. *)
Record Meta := mkMeta {
  meta_type : string;
  fileGroups : gmap string (list SegmentInfo)
}.

Inductive StationType := static | talkshow | dynamic.

(** The fields of a station object.  A class that does not declare
    [segmentIndex], [prevSegment] or [indexDrawPools] leaves it as created
    here and never reads it. *)
Record RadioStation := mkStation {
  type : StationType;
  station_path : string;
  meta : Meta;
  accumulatedTime : float;
  segmentIndex : nat;
  prevSegment : option SyncedSegment;
  indexDrawPools : Manager.t
}.

(** The state an operation runs in: the module-level [PRNG] shared by all
    stations, and the station it is called on. *)
Record World := mkWorld {
  PRNG : SeededPRNG;
  this : RadioStation
}.

(** ** Station classes: completions *)

Inductive JSError := TypeError.

Inductive Completion (A : Type) : Type :=
| Normal (value : A)
| Throw (error : JSError).

Arguments Normal {A} value.
Arguments Throw {A} error.

(** An operation returns or throws, and leaves a state behind either way. *)
Definition Op (A : Type) : Type := World -> Completion A * World.

Definition ret {A} (a : A) : Op A := fun w => (Normal a, w).

Definition throw {A} (e : JSError) : Op A := fun w => (Throw e, w).

Definition bind {A B} (m : Op A) (k : A -> Op B) : Op B :=
  fun w =>
    match m w with
    | (Normal a, w) => k a w
    | (Throw e, w) => (Throw e, w)
    end.

Notation "'let*' x ':=' m 'in' k" := (bind m (fun x => k))
  (at level 10, x name, m at level 100, k at level 200).

Definition read {A} (f : RadioStation -> A) : Op A :=
  fun w => (Normal (f (this w)), w).

Definition update (f : RadioStation -> RadioStation) : Op unit :=
  fun w => (Normal tt, mkWorld (PRNG w) (f (this w))).

(** Reading a property of [undefined] throws. *)
Definition defined {A} (o : option A) : Op A :=
  match o with
  | Some a => ret a
  | None => throw TypeError
  end.

(** [PRNG.next()] on the shared generator. *)
Definition PRNG_next : Op Z :=
  fun w =>
    let (value, p) := Prng.next (PRNG w) in
    (Normal value, mkWorld p (this w)).

(** Field updates. *)
Definition set_indexDrawPools (pools : Manager.t) (s : RadioStation)
    : RadioStation :=
  mkStation (type s) (station_path s) (meta s) (accumulatedTime s)
    (segmentIndex s) (prevSegment s) pools.

Definition set_accumulatedTime (t : float) (s : RadioStation) : RadioStation :=
  mkStation (type s) (station_path s) (meta s) t (segmentIndex s)
    (prevSegment s) (indexDrawPools s).

Definition set_segmentIndex (i : nat) (s : RadioStation) : RadioStation :=
  mkStation (type s) (station_path s) (meta s) (accumulatedTime s) i
    (prevSegment s) (indexDrawPools s).

Definition set_prevSegment (o : option SyncedSegment) (s : RadioStation)
    : RadioStation :=
  mkStation (type s) (station_path s) (meta s) (accumulatedTime s)
    (segmentIndex s) o (indexDrawPools s).

Definition set_fileGroup (group : string) (l : list SegmentInfo)
    (s : RadioStation) : RadioStation :=
  mkStation (type s) (station_path s)
    (mkMeta (meta_type (meta s)) (<[group := l]> (fileGroups (meta s))))
    (accumulatedTime s) (segmentIndex s) (prevSegment s) (indexDrawPools s).

(** [this.indexDrawPools.nextUniqueIndex(id, sourceSize, randomInteger)] *)
Definition nextUniqueIndex (id : string) (sourceSize : nat) (randomInteger : Z)
    : Op (option nat) :=
  fun w =>
    let s := this w in
    let (selected, pools) :=
      Manager.nextUniqueIndex id sourceSize randomInteger
        Manager.defaultDontRepeatFor (indexDrawPools s) in
    (Normal selected,
     mkWorld (PRNG w) (set_indexDrawPools pools s)).

(** [selectedTrack.voiceOver = voiceOver] *)
Definition set_voiceOver (voiceOver : VoiceOver) (t : SegmentInfo)
    : SegmentInfo :=
  mkSegmentInfo (path t) (duration t) (audibleDuration t) (voiceovers t)
    (Some voiceOver).

(** [array[i]] with [i] the result of a draw: [null] names no element. *)
Definition at_drawn {A} (array : list A) (i : option nat) : option A :=
  match i with
  | Some i => array !! i
  | None => None
  end.

(** [array[n % array.length]]: the index is NaN on an empty array. *)
Definition at_mod {A} (array : list A) (n : Z) : option A :=
  if decide (length array = 0)%nat then None
  else
    let i := JS.rem n (Z.of_nat (length array)) in
    if i <? 0 then None else array !! Z.to_nat i.

(** [a || b] on an optional number and a number. *)
Definition orElse (a : option float) (b : float) : float :=
  match a with
  | Some a => if JS.truthy a then a else b
  | None => b
  end.

(** ** Station classes: StationMeta and RadioStation *)

Module Station.

(** [getAbsolutePath(relativePath)] *)
Definition getAbsolutePath (s : RadioStation) (relativePath : string) : string :=
  getDataPath +:+ station_path s +:+ "/" +:+ relativePath.

(** [resolveObjectPath(object)]: a copy of the object with its path made
    absolute.  Copying [undefined] gives an empty object, and reading
    [object.path] then throws. *)
Definition resolveObjectPath {T} `{HasPath T} (object : option T) : Op T :=
  let* object := defined object in
  let* path := read (fun s => getAbsolutePath s (getPath object)) in
  ret (withPath path object).

(** The getter [startTimestamp]: the first instant of the current UTC
    month. *)
Definition startTimestamp (now : Z) : Z :=
  Date.UTC (Date.getUTCFullYear now) (Date.getUTCMonth now) 1.

(** [start + (accumulatedTime * 1000)] *)
Definition timeAt (start : Z) (accumulatedTime : float) : float :=
  PrimFloat.add (JS.ofZ start) (PrimFloat.mul accumulatedTime 1000).

(** [newSyncedSegment(segmentInfo, accumulatedTime)] *)
Definition newSyncedSegment (now : Z) (segmentInfo : option SegmentInfo)
    (accumulatedTime : float) : Op SyncedSegment :=
  let* segment := resolveObjectPath segmentInfo in
  ret (mkSyncedSegment segment (timeAt (startTimestamp now) accumulatedTime) None).

(** [this.accumulatedTime += segment.audibleDuration || segment.duration] *)
Definition advance (segment : SyncedSegment) : Op unit :=
  update (fun s =>
    set_accumulatedTime
      (PrimFloat.add (accumulatedTime s)
         (orElse (audibleDuration (info segment)) (duration (info segment))))
      s).

(** [this.meta.fileGroups[group]], about to be read as an array. *)
Definition fileGroup (group : string) : Op (list SegmentInfo) :=
  let* found := read (fun s => fileGroups (meta s) !! group) in
  defined found.

(** The constructor of [RadioStation], followed by the field initialisers of
    the subclass [type]; it sets the seed of the shared generator. *)
Definition construct (type : StationType) (path : string) (meta : Meta)
    (now : Z) (prng : SeededPRNG) : World :=
  mkWorld (mkPRNG (startTimestamp now) (index prng))
    (mkStation type path meta 0 0 None Manager.new).

(** The class chosen by [createStation()] for a metadata [type]. *)
Definition stationClass (metaType : string) : StationType :=
  if String.eqb metaType "static" then static
  else if String.eqb metaType "talkshow" then talkshow
  else dynamic.

Definition createStation (path : string) (meta : Meta) (now : Z)
    (prng : SeededPRNG) : World :=
  construct (stationClass (meta_type meta)) path meta now prng.

End Station.

(** ** Station classes: StaticStation *)

Module StaticStation.

Definition nextSegment (now : Z) : Op SyncedSegment :=
  let* segmentList := Station.fileGroup "track" in
  let* i := read segmentIndex in
  let* t := read accumulatedTime in
  let* segment :=
    Station.newSyncedSegment now (at_mod segmentList (Z.of_nat i)) t in
  let* _ := update (fun s => set_segmentIndex (S (segmentIndex s)) s) in
  let* _ := Station.advance segment in
  ret segment.

Definition reset : Op unit :=
  let* _ := update (set_segmentIndex 0) in
  update (set_accumulatedTime 0).

End StaticStation.

(** ** Station classes: TalkshowStation *)

Module TalkshowStation.

Definition getTrack : Op (option SegmentInfo) :=
  let* segmentList := Station.fileGroup "track" in
  let* i := read segmentIndex in
  ret (at_mod segmentList (Z.of_nat i)).

Definition getRandomTransition : Op (option SegmentInfo) :=
  let* transitions := Station.fileGroup "id" in
  let* random := PRNG_next in
  let* drawn := nextUniqueIndex "id" (length transitions) random in
  ret (at_drawn transitions drawn).

(** [this.prevSegment === null || !this.prevSegment.isTrack] *)
Definition trackIsDue (prev : option SyncedSegment) : bool :=
  match prev with
  | None => true
  | Some prev => negb (default false (isTrack prev))
  end.

Definition nextSegment (now : Z) : Op SyncedSegment :=
  let* prev := read prevSegment in
  let isTrack := trackIsDue prev in
  let* segmentInfo := if isTrack then getTrack else getRandomTransition in
  let* t := read accumulatedTime in
  let* segment := Station.newSyncedSegment now segmentInfo t in
  let segment :=
    mkSyncedSegment (info segment) (startTimestamp segment) (Some isTrack) in
  let* _ :=
    if isTrack then update (fun s => set_segmentIndex (S (segmentIndex s)) s)
    else ret tt in
  let* _ := update (set_prevSegment (Some segment)) in
  let* _ := Station.advance segment in
  ret segment.

Definition reset : Op unit :=
  fun w =>
    (Normal tt,
     mkWorld (mkPRNG (seed (PRNG w)) 0)
       (set_prevSegment None
          (set_accumulatedTime 0 (set_segmentIndex 0 (this w))))).

End TalkshowStation.

(** ** Station classes: DynamicStation *)

Module DynamicStation.

Definition getRandomTrack (randNum : Z) : Op (option SegmentInfo) :=
  let* tracks := Station.fileGroup "track" in
  let* drawn := nextUniqueIndex "track" (length tracks) randNum in
  let* selectedTrack := defined (at_drawn tracks drawn) in
  match voiceovers selectedTrack, drawn with
  | Some voiceovers, Some i =>
      let* random := PRNG_next in
      let* voiceOver := Station.resolveObjectPath (at_mod voiceovers random) in
      let selectedTrack := set_voiceOver voiceOver selectedTrack in
      (* the assignment is to the element of the metadata array *)
      let* _ := update (set_fileGroup "track" (<[i := selectedTrack]> tracks)) in
      ret (Some selectedTrack)
  | _, _ => ret (Some selectedTrack)
  end.

Definition getRandomTransition (randNum : Z) : Op (option SegmentInfo) :=
  let select := JS.rem randNum 2 in
  let transitionType := if select =? 0 then "id" else "mono_solo" in
  let* transitions := Station.fileGroup transitionType in
  let* drawn := nextUniqueIndex transitionType (length transitions) randNum in
  ret (at_drawn transitions drawn).

(** [PRNG.toFloat(randNum) * 100] *)
Definition percent (randNum : Z) : float :=
  PrimFloat.mul (Prng.toFloat randNum) 100.

(** [this.prevSegment === null || !this.prevSegment.isTrack
     || randPercent < 50] *)
Definition trackIsDue (prev : option SyncedSegment) (randPercent : float) : bool :=
  match prev with
  | None => true
  | Some prev => negb (default false (isTrack prev)) || PrimFloat.ltb randPercent 50
  end.

Definition nextSegment (now : Z) : Op SyncedSegment :=
  let* randNum := PRNG_next in
  let randPercent := percent randNum in
  let* prev := read prevSegment in
  let isTrack := trackIsDue prev randPercent in
  let* segmentInfo :=
    if isTrack then getRandomTrack randNum else getRandomTransition randNum in
  let* t := read accumulatedTime in
  let* segment := Station.newSyncedSegment now segmentInfo t in
  let segment :=
    mkSyncedSegment (info segment) (startTimestamp segment) (Some isTrack) in
  let* _ := update (set_prevSegment (Some segment)) in
  let* _ := Station.advance segment in
  ret segment.

Definition reset : Op unit :=
  fun w =>
    (Normal tt,
     mkWorld (mkPRNG (seed (PRNG w)) 0)
       (set_prevSegment None (set_accumulatedTime 0 (this w)))).

End DynamicStation.

(** ** Station classes: the methods of a station, by its class *)

Definition nextSegment (now : Z) : Op SyncedSegment :=
  fun w =>
    match type (this w) with
    | static => StaticStation.nextSegment now w
    | talkshow => TalkshowStation.nextSegment now w
    | dynamic => DynamicStation.nextSegment now w
    end.

(** The assignments that open [getSyncedSegment()]. *)
Definition reset : Op unit :=
  fun w =>
    match type (this w) with
    | static => StaticStation.reset w
    | talkshow => TalkshowStation.reset w
    | dynamic => DynamicStation.reset w
    end.

(** The [while (true)] loop of [getSyncedSegment()], which is the same in
    the three classes, cut off after [fuel] iterations: [None] stands for a
    loop still running then.  Here, as in [nextSegment now], every reading of
    the clock made during the call gives [now]; [Clocked.syncLoop] below is
    the loop with each reading taken apart, of which this one is the case
    where all readings agree ([clocked_syncLoop_one_reading]). *)
Fixpoint syncLoop (fuel : nat) (now start : Z) (w : World)
    : option (Completion SyncedSegment * World) :=
  match fuel with
  | O => None
  | S fuel =>
      match nextSegment now w with
      | (Normal segment, w) =>
          let time := Station.timeAt start (accumulatedTime (this w)) in
          if PrimFloat.ltb (JS.ofZ now) time then Some (Normal segment, w)
          else syncLoop fuel now start w
      | (Throw e, w) => Some (Throw e, w)
      end
  end.

Definition getSyncedSegment (fuel : nat) (now : Z) (w : World)
    : option (Completion SyncedSegment * World) :=
  let (_, w) := reset w in
  syncLoop fuel now (Station.startTimestamp now) w.

(** Successive calls of [nextSegment()], oldest completion first. *)
Fixpoint nextSegments (n : nat) (now : Z) (w : World)
    : list (Completion SyncedSegment) * World :=
  match n with
  | O => ([], w)
  | S n =>
      let (c, w) := nextSegment now w in
      let (cs, w) := nextSegments n now w in
      (c :: cs, w)
  end.

(** The segments among a list of completions. *)
Definition returned {A} (cs : list (Completion A)) : list A :=
  omap (fun c => match c with Normal a => Some a | Throw _ => None end) cs.

(** ** Station classes: the clock, reading by reading

    [nextSegment now] and [getSyncedSegment fuel now] above give a whole
    call the one clock reading [now].  The code reads the clock again and
    again: the getter [startTimestamp] evaluates [new Date()] twice, for the
    year and then for the month, each time it is read, which
    [getSyncedSegment()] does once before its loop and [newSyncedSegment]
    does for every segment; and the loop evaluates [Date.now()] in each of
    its tests.  The definitions below take every reading apart. *)

Module Clock.

(** The readings of one turn of the loop of [getSyncedSegment()], in the
    order in which they are taken: those of the two [new Date()] of the
    getter, when [newSyncedSegment] stamps the segment, and that of the
    [Date.now()] of the loop test. *)
Record Readings := mkReadings {
  stampYear : Z;
  stampMonth : Z;
  loopTest : Z
}.

(** The getter [startTimestamp]:
    [Date.UTC(new Date().getUTCFullYear(), new Date().getUTCMonth(), 1)]. *)
Definition startTimestamp (yearReading monthReading : Z) : Z :=
  Date.UTC (Date.getUTCFullYear yearReading) (Date.getUTCMonth monthReading) 1.

(** [newSyncedSegment(segmentInfo, accumulatedTime)] *)
Definition newSyncedSegment (yearReading monthReading : Z)
    (segmentInfo : option SegmentInfo) (accumulatedTime : float)
    : Op SyncedSegment :=
  let* segment := Station.resolveObjectPath segmentInfo in
  ret (mkSyncedSegment segment
         (Station.timeAt (startTimestamp yearReading monthReading)
            accumulatedTime)
         None).

End Clock.

Module Clocked.

(** [StaticStation.nextSegment()] *)
Definition staticNextSegment (yearReading monthReading : Z) : Op SyncedSegment :=
  let* segmentList := Station.fileGroup "track" in
  let* i := read segmentIndex in
  let* t := read accumulatedTime in
  let* segment :=
    Clock.newSyncedSegment yearReading monthReading
      (at_mod segmentList (Z.of_nat i)) t in
  let* _ := update (fun s => set_segmentIndex (S (segmentIndex s)) s) in
  let* _ := Station.advance segment in
  ret segment.

(** [TalkshowStation.nextSegment()] *)
Definition talkshowNextSegment (yearReading monthReading : Z)
    : Op SyncedSegment :=
  let* prev := read prevSegment in
  let isTrack := TalkshowStation.trackIsDue prev in
  let* segmentInfo :=
    if isTrack then TalkshowStation.getTrack
    else TalkshowStation.getRandomTransition in
  let* t := read accumulatedTime in
  let* segment :=
    Clock.newSyncedSegment yearReading monthReading segmentInfo t in
  let segment :=
    mkSyncedSegment (info segment) (startTimestamp segment) (Some isTrack) in
  let* _ :=
    if isTrack then update (fun s => set_segmentIndex (S (segmentIndex s)) s)
    else ret tt in
  let* _ := update (set_prevSegment (Some segment)) in
  let* _ := Station.advance segment in
  ret segment.

(** [DynamicStation.nextSegment()] *)
Definition dynamicNextSegment (yearReading monthReading : Z)
    : Op SyncedSegment :=
  let* randNum := PRNG_next in
  let randPercent := DynamicStation.percent randNum in
  let* prev := read prevSegment in
  let isTrack := DynamicStation.trackIsDue prev randPercent in
  let* segmentInfo :=
    if isTrack then DynamicStation.getRandomTrack randNum
    else DynamicStation.getRandomTransition randNum in
  let* t := read accumulatedTime in
  let* segment :=
    Clock.newSyncedSegment yearReading monthReading segmentInfo t in
  let segment :=
    mkSyncedSegment (info segment) (startTimestamp segment) (Some isTrack) in
  let* _ := update (set_prevSegment (Some segment)) in
  let* _ := Station.advance segment in
  ret segment.

Definition nextSegment (yearReading monthReading : Z) : Op SyncedSegment :=
  fun w =>
    match type (this w) with
    | static => staticNextSegment yearReading monthReading w
    | talkshow => talkshowNextSegment yearReading monthReading w
    | dynamic => dynamicNextSegment yearReading monthReading w
    end.

(** The [while (true)] loop of [getSyncedSegment()], cut off after [fuel]
    turns.  [start] is the value of the constant of that name; [clock 0] holds
    the readings of the turn at hand, [clock 1] those of the next turn, and
    so on. *)
Fixpoint syncLoop (fuel : nat) (start : Z) (clock : nat -> Clock.Readings)
    (w : World) : option (Completion SyncedSegment * World) :=
  match fuel with
  | O => None
  | S fuel =>
      let readings := clock 0%nat in
      match
        nextSegment (Clock.stampYear readings) (Clock.stampMonth readings) w
      with
      | (Normal segment, w) =>
          let time := Station.timeAt start (accumulatedTime (this w)) in
          if PrimFloat.ltb (JS.ofZ (Clock.loopTest readings)) time
          then Some (Normal segment, w)
          else syncLoop fuel start (fun i => clock (S i)) w
      | (Throw e, w) => Some (Throw e, w)
      end
  end.

(** [getSyncedSegment()]; [startYear] and [startMonth] are the readings of
    the getter evaluated for [const start]. *)
Definition getSyncedSegment (fuel : nat) (startYear startMonth : Z)
    (clock : nat -> Clock.Readings) (w : World)
    : option (Completion SyncedSegment * World) :=
  let (_, w) := reset w in
  syncLoop fuel (Clock.startTimestamp startYear startMonth) clock w.

End Clocked.

(** ** constants.js: loadRadioMeta

    The two [fetch] calls and the [json()] calls are promises of the
    platform; how each settles is an input of the model.  [dataURL] is the
    value bound to the identifier of that name where the module runs, if
    any: the module itself declares no such name. *)

Module Constants.

Inductive Settled (A : Type) : Type :=
| Fulfilled (value : A)
| Rejected.

Arguments Fulfilled {A} value.
Arguments Rejected {A}.

(** What the code reads of a response: [ok], and how [json()] settles. *)
Record Response (J : Type) := mkResponse {
  ok : bool;
  json : Settled J
}.

Arguments mkResponse {J} ok json.
Arguments ok {J} r.
Arguments json {J} r.

(** The inner [try] block, entered from the outer [catch]. *)
Definition loadRemote {J} (dataURL : option string)
    (remote : Settled (Response J)) (lastUsedPath : string)
    : Settled J * string :=
  match remote with
  | Rejected => (Rejected, lastUsedPath)
  | Fulfilled remoteResponse =>
      if negb (ok remoteResponse) then (Rejected, lastUsedPath)
      else
        match dataURL with
        | None => (Rejected, lastUsedPath)  (* ReferenceError, rethrown *)
        | Some url => (json remoteResponse, url)
        end
  end.

(** [loadRadioMeta()]: how the returned promise settles, and [lastUsedPath]
    afterwards.  The remote request is made only when the local one fails. *)
Definition loadRadioMeta {J} (dataURL : option string)
    (local remote : Settled (Response J)) (lastUsedPath : string)
    : Settled J * string :=
  match local with
  | Rejected => loadRemote dataURL remote lastUsedPath
  | Fulfilled localResponse =>
      if negb (ok localResponse) then loadRemote dataURL remote lastUsedPath
      else
        match json localResponse with
        | Fulfilled value => (Fulfilled value, lastUsedPath)
        | Rejected => loadRemote dataURL remote lastUsedPath
        end
  end.

End Constants.

(** ** Station classes: the icons of StationMeta *)

Module Icons.

(** A [StationMeta] object as the icon methods read it: its [path], and
    [meta.info.icon] (the own properties of that object, each a string), or
    [None] while [meta] is [null]. *)
Record t := mk {
  path : string;
  icon : option (gmap string string)
}.

(** [getAbsolutePath(relativePath)] *)
Definition getAbsolutePath (o : t) (relativePath : string) : string :=
  getDataPath +:+ path o +:+ "/" +:+ relativePath.

(** [getIcon(type)]; [None] is [undefined].  An empty string is falsy. *)
Definition getIcon (o : t) (type : string) : option string :=
  match icon o with
  | None => None
  | Some table =>
      match table !! type with
      | Some icon => if String.eqb icon "" then None
                     else Some (getAbsolutePath o icon)
      | None => None
      end
  end.

Definition priority : list string := ["color"; "monochrome"; "full"].

(** The [while (!icon)] loop of [getPrefferedIcon], entered with [icon]
    falsy, over the entries of [priority] from position [index] on.  The
    loop never assigns [icon], so it goes on until one of its two [return]
    statements. *)
Fixpoint fallback (o : t) (type : string) (rest : list string)
    : option string :=
  match rest with
  | [] => None
  | newIconType :: rest =>
      if negb (String.eqb newIconType type) then getIcon o newIconType
      else
        match rest with
        | [] => None      (* index >= priority.length *)
        | _ => fallback o type rest
        end
  end.

(** [getPrefferedIcon(type)] *)
Definition getPrefferedIcon (o : t) (type : string) : option string :=
  match getIcon o type with
  | Some icon => Some icon
  | None => fallback o type priority
  end.

End Icons.

(** ** Station classes: loading the metadata of StationMeta

    [createStation()] and [loadMeta()] are asynchronous; the model takes
    each call as awaited before the next one is made.  How the chain
    [fetch(...).then(res => res.json())] settles is an input. *)

Module StationMeta.

(** A [StationMeta] object: [path], [meta] ([None] is [null]), and whether
    [_metaPromise] holds a promise. *)
Record t := mk {
  path : string;
  meta : option Meta;
  metaPromise : bool
}.

(** [loadMeta()]: the request is made only when no promise is stored.  A
    fulfilled chain assigns [meta]; a rejected one is logged by the [catch]
    and leaves [meta] as it was.  The result is the object afterwards and
    the number of requests made. *)
Definition loadMeta (fetched : Constants.Settled Meta) (o : t) : t * nat :=
  if metaPromise o then (o, 0%nat)
  else
    (mk (path o)
        (match fetched with
         | Constants.Fulfilled res => Some res
         | Constants.Rejected => meta o
         end)
        true,
     1%nat).

(** [createStation()]: how the returned promise settles (a station together
    with the shared number source that its constructor seeds, or the
    TypeError of reading [type] of [null]), the object afterwards, and the
    number of requests made. *)
Definition createStation (fetched : Constants.Settled Meta) (now : Z)
    (prng : SeededPRNG) (o : t) : Completion World * t * nat :=
  let (o, requests) :=
    match meta o with
    | None => loadMeta fetched o
    | Some _ => (o, 0%nat)
    end in
  match meta o with
  | None => (Throw TypeError, o, requests)
  | Some meta => (Normal (Station.createStation (path o) meta now prng), o, requests)
  end.

End StationMeta.

(** * Vocabulary of the properties *)

(** What a draw from a non-empty pool does when it removes position [i] of
    [draw], holding [x], with the two branches of the queue-length test
    joined. *)
Definition afterDraw (p : IndexDrawPool) (i x : nat) : IndexDrawPool :=
  let discard1 := discard p ++ [x] in
  if dontRepeatFor p <? Z.of_nat (length discard1)
  then mkPool (delete i (draw p) ++ take 1 discard1) (drop 1 discard1)
         (dontRepeatFor p)
  else mkPool (delete i (draw p)) discard1 (dontRepeatFor p).

(** [draw] and [discard] together hold each of the positions [0 .. n-1]
    once. *)
Definition covers (n : nat) (p : IndexDrawPool) : Prop :=
  draw p ++ discard p ≡ₚ seq 0 n.

(** The number of draws for which a pool keeps an index out of [draw]. *)
Definition window (p : IndexDrawPool) : nat := Z.to_nat (dontRepeatFor p).

(** [discard] holds the most recent [window p] of the indexes drawn so far
    ([history], oldest first). *)
Definition remembers (history : list nat) (p : IndexDrawPool) : Prop :=
  discard p = drop (length history - window p) history.

(** No index occurs twice within [W + 1] consecutive draws. *)
Definition spaced (W : nat) (history : list nat) : Prop :=
  forall i j x, (i < j <= i + W)%nat ->
    history !! i = Some x -> history !! j = Some x -> False.

(** The random integers of the calls made with key [id]. *)
Definition randomsFor (id : string) (cs : list Manager.call) : list Z :=
  Manager.call_randomInteger <$>
    filter (fun c => Manager.call_id c = id) cs.

(** The results of the calls made with key [id], given the results of all
    calls. *)
Fixpoint resultsFor (id : string) (cs : list Manager.call)
    (results : list (option nat)) : list (option nat) :=
  match cs, results with
  | c :: cs, x :: results =>
      if decide (Manager.call_id c = id) then x :: resultsFor id cs results
      else resultsFor id cs results
  | _, _ => []
  end.

(** [Q] holds of the completion and final state of [op] run in [w]. *)
Definition post {A} (op : Op A) (w : World)
    (Q : Completion A -> World -> Prop) : Prop :=
  Q (op w).1 (op w).2.

(** A pool over [n] positions whose queue is within its window, the window
    being shorter than the source. *)
Definition steady (n : nat) (p : IndexDrawPool) : Prop :=
  covers n p /\ (length (discard p) <= window p)%nat /\ (window p < n)%nat.

(** The metadata has a non-empty file group [g]. *)
Definition hasGroup (s : RadioStation) (g : string) (l : list SegmentInfo)
    : Prop :=
  fileGroups (meta s) !! g = Some l /\ l <> [].

(** The file group [g] is non-empty, and the pool kept for it, if any, is one
    over its positions. *)
Definition groupReady (s : RadioStation) (g : string) : Prop :=
  exists l, hasGroup s g l /\
    forall p, indexDrawPools s !! g = Some p -> steady (length l) p.

(** The conditions on metadata and pools under which [nextSegment()] does
    not throw: the file groups that the class reads exist and are non-empty,
    no track declares an empty [voiceovers] array, and each pool was created
    for the group it is used with. *)
Definition ready (s : RadioStation) : Prop :=
  match type s with
  | static => exists l, hasGroup s "track" l
  | talkshow => (exists l, hasGroup s "track" l) /\ groupReady s "id"
  | dynamic =>
      groupReady s "track" /\ groupReady s "id" /\ groupReady s "mono_solo"
      /\ forall l t, fileGroups (meta s) !! "track" = Some l -> t ∈ l ->
           voiceovers t <> Some []
  end.

(** [isTrack] of each segment of a talkshow run is what the segment before
    it calls for. *)
Fixpoint talkshowChain (prev : option SyncedSegment)
    (segments : list SyncedSegment) : Prop :=
  match segments with
  | [] => True
  | segment :: segments =>
      isTrack segment = Some (TalkshowStation.trackIsDue prev)
      /\ talkshowChain (Some segment) segments
  end.

(** The same for a dynamic run, for some percentage at each step. *)
Fixpoint dynamicChain (prev : option SyncedSegment)
    (segments : list SyncedSegment) : Prop :=
  match segments with
  | [] => True
  | segment :: segments =>
      (exists randPercent,
         isTrack segment = Some (DynamicStation.trackIsDue prev randPercent))
      /\ dynamicChain (Some segment) segments
  end.

(** What a step of a dynamic station that selects a track does: the segment
    is a copy of a descriptor [t] of the "track" group, and when [t]
    declares voice-overs the one attached is picked by the value that the
    generator returns after the step's first draw. *)
Definition selectsTrack (w : World) (segment : SyncedSegment) (w' : World)
    : Prop :=
  exists tracks i t,
    fileGroups (meta (this w)) !! "track" = Some tracks
    /\ tracks !! i = Some t
    /\ path (info segment) = Station.getAbsolutePath (this w) (path t)
    /\ match voiceovers t with
       | Some vos =>
           exists vo,
             at_mod vos (Prng.hash (seed (PRNG w)) (index (PRNG w) + 1))
             = Some vo
             /\ voiceOver (info segment)
                = Some (withPath (Station.getAbsolutePath (this w) (vo_path vo)) vo)
             /\ index (PRNG w') = index (PRNG w) + 2
       | None =>
           voiceOver (info segment) = voiceOver t
           /\ index (PRNG w') = index (PRNG w) + 1
       end.

(** What a step that selects a transition does: the segment is a copy of a
    descriptor of the group named by the parity of the step's draw. *)
Definition selectsTransition (w : World) (segment : SyncedSegment) (w' : World)
    : Prop :=
  let raw := Prng.hash (seed (PRNG w)) (index (PRNG w)) in
  exists l t,
    fileGroups (meta (this w))
      !! (if JS.rem raw 2 =? 0 then "id" else "mono_solo") = Some l
    /\ t ∈ l
    /\ info segment = withPath (Station.getAbsolutePath (this w) (path t)) t
    /\ index (PRNG w') = index (PRNG w) + 1.

(** [isTrack] of the segment that a call returned. *)
Definition flagOf (c : Completion SyncedSegment) : option bool :=
  match c with
  | Normal segment => isTrack segment
  | Throw _ => None
  end.

(** [voiceOver] of the segment that a call returned. *)
Definition voiceOverOf (c : Completion SyncedSegment) : option VoiceOver :=
  match c with
  | Normal segment => voiceOver (info segment)
  | Throw _ => None
  end.

(** [path] of the segment that a call returned. *)
Definition pathOf (c : Completion SyncedSegment) : option string :=
  match c with
  | Normal segment => Some (path (info segment))
  | Throw _ => None
  end.

(** The path of the segment that [getSyncedSegment()] returned. *)
Definition syncedPath (r : option (Completion SyncedSegment * World))
    : option string :=
  match r with
  | Some (Normal segment, _) => Some (path (info segment))
  | _ => None
  end.

(** The state that a call of [getSyncedSegment()] left behind. *)
Definition stateAfter (r : option (Completion SyncedSegment * World))
    (otherwise : World) : World :=
  match r with
  | Some (_, w) => w
  | None => otherwise
  end.

(** Two descriptors that differ at most in [voiceOver]. *)
Definition sameButVoiceOver (t t' : SegmentInfo) : Prop :=
  path t' = path t /\ duration t' = duration t
  /\ audibleDuration t' = audibleDuration t /\ voiceovers t' = voiceovers t.

(** Metadata [m'] is [m] up to the [voiceOver] of entries of the "track"
    group. *)
Definition metaKept (m m' : Meta) : Prop :=
  meta_type m' = meta_type m
  /\ (forall g, g <> "track" -> fileGroups m' !! g = fileGroups m !! g)
  /\ option_Forall2 (Forall2 sameButVoiceOver)
       (fileGroups m !! "track") (fileGroups m' !! "track").

(** The metadata has no track to play. *)
Definition noTracks (s : RadioStation) : Prop :=
  fileGroups (meta s) !! "track" = None
  \/ fileGroups (meta s) !! "track" = Some [].

(** The pool kept under key [g], or else the one that the next call with
    that key creates for a source of [len] entries, has drawn [history] so
    far (oldest first) without repeating an index within its window. *)
Definition drawsSoFar (g : string) (len : nat) (history : list nat)
    (pools : Manager.t) : Prop :=
  let p := default
             (Pool.new len
                (Z.min Manager.defaultDontRepeatFor (Z.of_nat len - 1)))
             (pools !! g) in
  covers len p /\ remembers history p /\ spaced (window p) history
  /\ window p
     = Z.to_nat (Z.min Manager.defaultDontRepeatFor (Z.of_nat len - 1))
  /\ (window p < len)%nat.

(** A returned segment is stamped with [start] plus the time accumulated
    before it, and the accumulated time grows by its audible duration, or by
    its duration when it has none. *)
Definition stampedAt (start : Z) (w : World) (c : Completion SyncedSegment)
    (w' : World) : Prop :=
  match c with
  | Normal segment =>
      startTimestamp segment
      = Station.timeAt start (accumulatedTime (this w))
      /\ accumulatedTime (this w')
         = PrimFloat.add (accumulatedTime (this w))
             (orElse (audibleDuration (info segment))
                (duration (info segment)))
  | Throw _ => True
  end.

(** ** Sample stations *)

Module Sample.

Definition intro_a : VoiceOver := mkVoiceOver "intro_a.ogg" 4.
Definition intro_b : VoiceOver := mkVoiceOver "intro_b.ogg" 5.

Definition song_a : SegmentInfo :=
  mkSegmentInfo "song_a.ogg" 200 None (Some [intro_a; intro_b]) None.
Definition song_b : SegmentInfo :=
  mkSegmentInfo "song_b.ogg" 180 (Some 175%float) None None.
Definition song_c : SegmentInfo :=
  mkSegmentInfo "song_c.ogg" 200 None None None.
Definition id_a : SegmentInfo := mkSegmentInfo "id_a.ogg" 10 None None None.
Definition id_b : SegmentInfo := mkSegmentInfo "id_b.ogg" 12 None None None.
Definition id_c : SegmentInfo := mkSegmentInfo "id_c.ogg" 12 None None None.
Definition solo_a : SegmentInfo := mkSegmentInfo "solo_a.ogg" 8 None None None.

Definition groups (tracks : list SegmentInfo)
    : gmap string (list SegmentInfo) :=
  <["track" := tracks]>
    (<["id" := [id_a; id_b; id_c]]> (<["mono_solo" := [solo_a]]> ∅)).

(** 2024-01-01T00:00:05Z; the month began at 1704067200000. *)
Definition now : Z := 1704067205000.

(** The module-level [new SeededPRNG(1)]. *)
Definition prng : SeededPRNG := Prng.new 1.

(** A dynamic station whose first track declares two voice-overs. *)
Definition dynamic_voiced : World :=
  Station.createStation "radio_01"
    (mkMeta "dynamic" (groups [song_a; song_b])) now prng.

(** A dynamic station without voice-overs. *)
Definition dynamic_plain : World :=
  Station.createStation "radio_02"
    (mkMeta "dynamic" (groups [song_c; song_b])) now prng.

Definition talkshow_plain : World :=
  Station.createStation "radio_03"
    (mkMeta "talkshow" (groups [song_c; song_b])) now prng.

Definition static_plain : World :=
  Station.createStation "radio_04"
    (mkMeta "static" (groups [song_c; song_b])) now prng.

(** 2024-01-01T00:03:25Z, in the same month. *)
Definition later : Z := 1704067405000.

End Sample.

(** * Properties of the draw pool *)

Section PoolFacts.

Implicit Types (p : IndexDrawPool) (r w : Z) (n : nat).

Lemma spliceStart_lt (len : nat) r :
  (0 < len)%nat ->
  (Pool.spliceStart len (JS.rem r (Z.of_nat len)) < len)%nat.
Proof.
  intros Hlen. unfold Pool.spliceStart, JS.rem.
  pose proof (Z.rem_bound_abs r (Z.of_nat len)) as Hb.
  destruct (Z.ltb_spec (Z.rem r (Z.of_nat len)) 0); lia.
Qed.

Lemma next_empty r p : draw p = [] -> Pool.next r p = (None, p).
Proof. intros H. unfold Pool.next. rewrite H. reflexivity. Qed.

Lemma next_nonempty r p :
  draw p <> [] ->
  exists i x, draw p !! i = Some x /\ Pool.next r p = (Some x, afterDraw p i x).
Proof.
  intros Hne. unfold Pool.next.
  destruct (decide (length (draw p) = 0%nat)) as [H0|H0].
  { destruct (draw p); [congruence | discriminate]. }
  set (i := Pool.spliceStart _ _).
  assert (Hi : (i < length (draw p))%nat) by (apply spliceStart_lt; lia).
  destruct (lookup_lt_is_Some_2 _ _ Hi) as [x Hx]. rewrite Hx.
  exists i, x. split; [assumption |]. unfold afterDraw.
  destruct (discard p ++ [x]) as [|h t] eqn:Hd.
  { destruct (discard p); discriminate. }
  destruct (dontRepeatFor p <? _); reflexivity.
Qed.

Lemma next_None_iff r p : (Pool.next r p).1 = None <-> draw p = [].
Proof.
  split.
  - intros H. destruct (draw p) as [|a l] eqn:Hd; [reflexivity |].
    destruct (next_nonempty r p) as (i & x & _ & Hn); [congruence |].
    rewrite Hn in H. discriminate.
  - intros H. rewrite next_empty by assumption. reflexivity.
Qed.

Lemma afterDraw_dontRepeatFor p i x :
  dontRepeatFor (afterDraw p i x) = dontRepeatFor p.
Proof. unfold afterDraw. destruct (_ <? _); reflexivity. Qed.

Lemma afterDraw_Permutation p i x :
  draw p !! i = Some x ->
  draw (afterDraw p i x) ++ discard (afterDraw p i x) ≡ₚ draw p ++ discard p.
Proof.
  intros Hx. unfold afterDraw.
  assert (Hd : delete i (draw p) ++ discard p ++ [x] ≡ₚ draw p ++ discard p).
  { rewrite (delete_Permutation (draw p) i x Hx) at 2.
    rewrite (Permutation_app_comm (discard p) [x]). simpl.
    symmetry. apply Permutation_middle. }
  destruct (_ <? _); simpl.
  - rewrite <- app_assoc, take_drop. exact Hd.
  - exact Hd.
Qed.

Lemma covers_new n w : covers n (Pool.new n w).
Proof. unfold covers, Pool.new. simpl. rewrite app_nil_r. reflexivity. Qed.

Lemma covers_next n r p : covers n p -> covers n (Pool.next r p).2.
Proof.
  intros Hc. destruct (draw p) as [|a l] eqn:Hd.
  - rewrite next_empty by assumption. assumption.
  - destruct (next_nonempty r p) as (i & x & Hx & Hn); [congruence |].
    rewrite Hn. simpl. unfold covers.
    rewrite afterDraw_Permutation by assumption. assumption.
Qed.

Lemma covers_NoDup n p : covers n p -> NoDup (draw p ++ discard p).
Proof. intros Hc. rewrite Hc. apply NoDup_seq. Qed.

Lemma covers_bound n p x : covers n p -> x ∈ draw p ++ discard p -> (x < n)%nat.
Proof. intros Hc Hx. rewrite Hc in Hx. apply elem_of_seq in Hx. lia. Qed.

Lemma next_bound n r p x :
  covers n p -> (Pool.next r p).1 = Some x -> (x < n)%nat.
Proof.
  intros Hc Hn. destruct (draw p) as [|a l] eqn:Hd.
  - rewrite next_empty in Hn by assumption. discriminate.
  - destruct (next_nonempty r p) as (i & y & Hy & Hn'); [congruence |].
    rewrite Hn' in Hn. simpl in Hn. injection Hn as ->.
    apply (covers_bound n p); [assumption |].
    apply elem_of_app. left. eapply list_elem_of_lookup_2. eassumption.
Qed.

Lemma draws_covers n rs p : covers n p -> covers n (Pool.draws rs p).2.
Proof.
  revert p. induction rs as [|r rs IH]; intros p Hc; simpl; [assumption |].
  pose proof (covers_next n r p Hc) as Hc'.
  destruct (Pool.next r p) as [x p1]. specialize (IH p1 Hc').
  destruct (Pool.draws rs p1) as [xs p2]. assumption.
Qed.

Lemma draws_bound n rs p x :
  covers n p -> Some x ∈ (Pool.draws rs p).1 -> (x < n)%nat.
Proof.
  revert p. induction rs as [|r rs IH]; intros p Hc Hx; simpl in Hx.
  - apply elem_of_nil in Hx. contradiction.
  - pose proof (covers_next n r p Hc) as Hc'.
    pose proof (next_bound n r p) as Hb.
    destruct (Pool.next r p) as [y p1]. specialize (IH p1 Hc').
    destruct (Pool.draws rs p1) as [xs p2]. simpl in *.
    apply elem_of_cons in Hx as [Hx | Hx]; [| auto].
    subst y. auto.
Qed.

End PoolFacts.

Section NoRepeat.

Implicit Types (p : IndexDrawPool) (history : list nat).

Lemma remembers_length history p :
  remembers history p -> (length (discard p) <= window p)%nat.
Proof. intros H. rewrite H, length_drop. lia. Qed.

Lemma afterDraw_window p i x : window (afterDraw p i x) = window p.
Proof. unfold window. rewrite afterDraw_dontRepeatFor. reflexivity. Qed.

Lemma afterDraw_remembers history p i x :
  remembers history p -> remembers (history ++ [x]) (afterDraw p i x).
Proof.
  unfold remembers. intros H. rewrite afterDraw_window.
  assert (Hlen : length (discard p) = (length history - (length history - window p))%nat).
  { rewrite H at 1. apply length_drop. }
  unfold afterDraw. rewrite !length_app. simpl.
  destruct (Z.ltb_spec (dontRepeatFor p) (Z.of_nat (length (discard p) + 1)))
    as [Hlt | Hge]; simpl.
  - assert (Hw : (window p <= length history)%nat) by (unfold window in *; lia).
    replace (length history + 1 - window p)%nat
      with ((length history - window p) + 1)%nat by lia.
    rewrite <- drop_drop. rewrite (drop_app_le history) by lia.
    rewrite <- H. reflexivity.
  - assert (Hw : (length history < window p)%nat) by (unfold window in *; lia).
    replace (length history + 1 - window p)%nat with 0%nat by lia.
    rewrite H. replace (length history - window p)%nat with 0%nat by lia.
    reflexivity.
Qed.

Lemma spaced_nil W : spaced W [].
Proof. intros i j x _ H. rewrite lookup_nil in H. discriminate. Qed.

Lemma spaced_snoc W history x :
  spaced W history ->
  x ∉ drop (length history - W) history ->
  spaced W (history ++ [x]).
Proof.
  intros Hs Hx i j y Hij Hi Hj.
  pose proof (lookup_lt_Some _ _ _ Hj) as Hlen. rewrite length_app in Hlen.
  simpl in Hlen.
  destruct (decide (j < length history)%nat) as [Hlt | Hge].
  - rewrite lookup_app_l in Hi by lia. rewrite lookup_app_l in Hj by lia.
    exact (Hs i j y Hij Hi Hj).
  - assert (j = length history) as -> by lia.
    rewrite lookup_app_r in Hj by lia. rewrite Nat.sub_diag in Hj.
    simpl in Hj. injection Hj as <-.
    rewrite lookup_app_l in Hi by lia.
    apply Hx. apply list_elem_of_lookup.
    exists (i - (length history - W))%nat. rewrite lookup_drop.
    replace (length history - W + (i - (length history - W)))%nat with i by lia.
    exact Hi.
Qed.

Lemma spaced_window W history i k :
  spaced W history -> (k <= W + 1)%nat -> NoDup (take k (drop i history)).
Proof.
  intros Hs Hk. apply NoDup_alt. intros a b x Ha Hb.
  apply lookup_take_Some in Ha as [Ha Hak].
  apply lookup_take_Some in Hb as [Hb Hbk].
  rewrite lookup_drop in Ha, Hb.
  destruct (Nat.lt_trichotomy a b) as [Hlt | [Heq | Hgt]]; [| assumption |].
  - exfalso. apply (Hs (i + a) (i + b) x)%nat; [lia | assumption..].
  - exfalso. apply (Hs (i + b) (i + a) x)%nat; [lia | assumption..].
Qed.

(** A pool whose queue is shorter than its source never runs dry. *)
Lemma covers_draw_nonempty n history p :
  covers n p -> remembers history p -> (window p < n)%nat -> draw p <> [].
Proof.
  intros Hc Hr Hw Hd. apply remembers_length in Hr.
  apply Permutation_length in Hc. rewrite length_app, length_seq, Hd in Hc.
  simpl in Hc. lia.
Qed.

Lemma next_steady n history r p :
  covers n p -> remembers history p -> spaced (window p) history ->
  (window p < n)%nat ->
  exists x p',
    Pool.next r p = (Some x, p') /\ (x < n)%nat /\ covers n p' /\
    remembers (history ++ [x]) p' /\ spaced (window p') (history ++ [x]) /\
    window p' = window p.
Proof.
  intros Hc Hr Hs Hw.
  destruct (next_nonempty r p) as (i & x & Hx & Hn).
  { eapply covers_draw_nonempty; eassumption. }
  exists x, (afterDraw p i x). split; [assumption |].
  assert (Hin : x ∈ draw p) by (eapply list_elem_of_lookup_2; eassumption).
  split. { apply (covers_bound n p); [assumption | apply elem_of_app; auto]. }
  split. { unfold covers. rewrite afterDraw_Permutation by assumption. assumption. }
  split. { apply afterDraw_remembers. assumption. }
  split; [| apply afterDraw_window].
  rewrite afterDraw_window. apply spaced_snoc; [assumption |].
  rewrite <- Hr. apply covers_NoDup in Hc. apply NoDup_app in Hc as (_ & Hdisj & _).
  auto.
Qed.

Lemma draws_steady n rs : forall history p,
  covers n p -> remembers history p -> spaced (window p) history ->
  (window p < n)%nat ->
  exists picks,
    (Pool.draws rs p).1 = Some <$> picks /\
    length picks = length rs /\
    Forall (fun x => x < n)%nat picks /\
    covers n (Pool.draws rs p).2 /\
    remembers (history ++ picks) (Pool.draws rs p).2 /\
    spaced (window p) (history ++ picks) /\
    window (Pool.draws rs p).2 = window p.
Proof.
  induction rs as [|r rs IH]; intros history p Hc Hr Hs Hw; simpl.
  - exists []. rewrite app_nil_r. auto 10.
  - destruct (next_steady n history r p Hc Hr Hs Hw)
      as (x & p1 & Hn & Hx & Hc1 & Hr1 & Hs1 & Hw1).
    rewrite Hn. rewrite Hw1 in Hs1.
    destruct (IH (history ++ [x]) p1) as (picks & Ho & Hl & Hb & Hc2 & Hr2 & Hs2 & Hw2);
      [assumption | assumption | rewrite Hw1; assumption | lia |].
    destruct (Pool.draws rs p1) as [xs p2]. simpl in *.
    exists (x :: picks). rewrite <- app_assoc in Hr2, Hs2. simpl in Hr2, Hs2.
    rewrite Hw1 in Hs2. subst xs.
    repeat split; try assumption; simpl; try congruence.
    constructor; assumption.
Qed.

End NoRepeat.

Section ManagerFacts.

Implicit Types (m : Manager.t) (p : IndexDrawPool) (cs : list Manager.call).

Lemma nextUniqueIndex_existing id n r d m p :
  m !! id = Some p ->
  Manager.nextUniqueIndex id n r d m
  = ((Pool.next r p).1, <[id := (Pool.next r p).2]> m).
Proof.
  intros H. unfold Manager.nextUniqueIndex. rewrite H. rewrite H.
  destruct (Pool.next r p); reflexivity.
Qed.

Lemma nextUniqueIndex_fresh id n r d m :
  m !! id = None ->
  let p := Pool.new n (Z.min d (Z.of_nat n - 1)) in
  Manager.nextUniqueIndex id n r d m
  = ((Pool.next r p).1, <[id := (Pool.next r p).2]> m).
Proof.
  intros H p. unfold Manager.nextUniqueIndex. rewrite H.
  rewrite lookup_insert_eq. fold p.
  destruct (Pool.next r p). rewrite insert_insert_eq. reflexivity.
Qed.

Lemma perform_other id c m :
  Manager.call_id c <> id -> (Manager.perform c m).2 !! id = m !! id.
Proof.
  intros Hne. unfold Manager.perform.
  destruct (m !! Manager.call_id c) as [p|] eqn:Hc.
  - rewrite (nextUniqueIndex_existing _ _ _ _ _ _ Hc). simpl.
    apply lookup_insert_ne. assumption.
  - rewrite (nextUniqueIndex_fresh _ _ _ _ _ Hc). simpl.
    apply lookup_insert_ne. assumption.
Qed.

Lemma draws_cons r rs p :
  Pool.draws (r :: rs) p
  = ((Pool.next r p).1 :: (Pool.draws rs (Pool.next r p).2).1,
     (Pool.draws rs (Pool.next r p).2).2).
Proof.
  simpl. destruct (Pool.next r p) as [x p1]. simpl.
  destruct (Pool.draws rs p1); reflexivity.
Qed.

Lemma run_cons c cs m :
  Manager.run (c :: cs) m
  = ((Manager.perform c m).1 :: (Manager.run cs (Manager.perform c m).2).1,
     (Manager.run cs (Manager.perform c m).2).2).
Proof.
  simpl. destruct (Manager.perform c m) as [x m1]. simpl.
  destruct (Manager.run cs m1); reflexivity.
Qed.

Lemma randomsFor_cons id c cs :
  randomsFor id (c :: cs)
  = if decide (Manager.call_id c = id)
    then Manager.call_randomInteger c :: randomsFor id cs
    else randomsFor id cs.
Proof.
  unfold randomsFor. rewrite filter_cons.
  destruct (decide (Manager.call_id c = id)); reflexivity.
Qed.

(** The calls made with one key see a single pool, whatever the calls made
    with other keys in between. *)
Lemma run_project id cs : forall m p,
  m !! id = Some p ->
  resultsFor id cs (Manager.run cs m).1 = (Pool.draws (randomsFor id cs) p).1
  /\ (Manager.run cs m).2 !! id = Some (Pool.draws (randomsFor id cs) p).2.
Proof.
  induction cs as [|c cs IH]; intros m p Hm; [simpl; auto |].
  rewrite run_cons, randomsFor_cons. cbn [fst snd resultsFor].
  destruct (decide (Manager.call_id c = id)) as [Heq | Hne].
  - rewrite draws_cons. cbn [fst snd].
    unfold Manager.perform. rewrite Heq.
    rewrite (nextUniqueIndex_existing _ _ _ _ _ _ Hm). cbn [fst snd].
    destruct (IH (<[id := (Pool.next (Manager.call_randomInteger c) p).2]> m)
                (Pool.next (Manager.call_randomInteger c) p).2) as [IH1 IH2].
    { apply lookup_insert_eq. }
    rewrite IH1, IH2. auto.
  - pose proof (perform_other id c m Hne) as Ho. rewrite Hm in Ho.
    apply (IH _ _ Ho).
Qed.

Lemma run_first id n0 r0 d0 cs m :
  m !! id = None ->
  let first := Manager.mkCall id n0 r0 d0 in
  let pool0 := Pool.new n0 (Z.min d0 (Z.of_nat n0 - 1)) in
  resultsFor id (first :: cs) (Manager.run (first :: cs) m).1
  = (Pool.draws (r0 :: randomsFor id cs) pool0).1
  /\ (Manager.run (first :: cs) m).2 !! id
     = Some (Pool.draws (r0 :: randomsFor id cs) pool0).2.
Proof.
  intros Hm first pool0.
  rewrite run_cons, draws_cons. cbn [fst snd resultsFor].
  unfold first at 1. cbn [Manager.call_id].
  destruct (decide (id = id)); [| congruence].
  unfold Manager.perform, first. cbn [Manager.call_id Manager.call_sourceSize
    Manager.call_randomInteger Manager.call_dontRepeatFor].
  rewrite (nextUniqueIndex_fresh _ _ _ _ _ Hm). fold pool0. cbn [fst snd].
  destruct (run_project id cs (<[id := (Pool.next r0 pool0).2]> m)
              (Pool.next r0 pool0).2) as [H1 H2].
  { apply lookup_insert_eq. }
  rewrite H1, H2. auto.
Qed.

Lemma draws_empty rs p :
  draw p = [] -> Pool.draws rs p = (replicate (length rs) None, p).
Proof.
  intros Hd. induction rs as [|r rs IH]; simpl; [reflexivity |].
  rewrite next_empty by assumption. rewrite IH. reflexivity.
Qed.

Lemma remembers_new n w : remembers [] (Pool.new n w).
Proof. reflexivity. Qed.

(** The pool that the manager creates never runs dry, unless its source is
    empty. *)
Lemma draws_manager_pool n d rs :
  n <> 0%nat ->
  exists picks,
    (Pool.draws rs (Pool.new n (Z.min d (Z.of_nat n - 1)))).1 = Some <$> picks
    /\ length picks = length rs
    /\ Forall (fun x => x < n)%nat picks.
Proof.
  intros Hn.
  destruct (draws_steady n rs [] (Pool.new n (Z.min d (Z.of_nat n - 1))))
    as (picks & Ho & Hl & Hb & _).
  - apply covers_new.
  - apply remembers_new.
  - apply spaced_nil.
  - unfold window. simpl. lia.
  - exists picks. auto.
Qed.

End ManagerFacts.

(** * The seeded number source *)


Lemma hash_range s i : 0 <= Prng.hash s i < 2 ^ 32.
Proof.
  unfold Prng.hash, JS.ushr at 1.
  change (0 mod 32) with 0. rewrite Z.shiftr_0_r.
  unfold JS.ToUint32. apply Z.mod_pos_bound. reflexivity.
Qed.

(** From here on the hash is the last constant to be unfolded when two terms
    are compared. *)
Lemma ToInt32_range z : - 2 ^ 31 <= JS.ToInt32 z < 2 ^ 31.
Proof.
  unfold JS.ToInt32.
  pose proof (Z.mod_pos_bound (z + 2 ^ 31) (2 ^ 32) ltac:(lia)). lia.
Qed.

Lemma ToInt32_small z : - 2 ^ 31 <= z < 2 ^ 31 -> JS.ToInt32 z = z.
Proof.
  intros H. unfold JS.ToInt32. rewrite Z.mod_small by lia. lia.
Qed.

Lemma ToInt32_idempotent z : JS.ToInt32 (JS.ToInt32 z) = JS.ToInt32 z.
Proof. apply ToInt32_small, ToInt32_range. Qed.

Lemma ToInt32_wrap z k : JS.ToInt32 (z + k * 2 ^ 32) = JS.ToInt32 z.
Proof.
  unfold JS.ToInt32.
  replace (z + k * 2 ^ 32 + 2 ^ 31) with (z + 2 ^ 31 + k * 2 ^ 32) by lia.
  rewrite Z.mod_add by lia. reflexivity.
Qed.

Lemma hash_xor s i s' i' :
  JS.bitxor s i = JS.bitxor s' i' -> Prng.hash s i = Prng.hash s' i'.
Proof. intros H. unfold Prng.hash. rewrite H. reflexivity. Qed.

#[global] Strategy 1000 [Prng.hash].

Lemma generate_value p : (Prng.generate p).1 = Prng.hash (seed p) (index p).
Proof. reflexivity. Qed.

Lemma iterate_generate n p :
  Prng.iterate Prng.generate n p
  = (replicate n (Prng.hash (seed p) (index p)), p).
Proof.
  induction n as [|n IH]; [reflexivity |].
  cbn [Prng.iterate]. unfold Prng.generate at 1. rewrite IH. reflexivity.
Qed.

Lemma iterate_next n : forall p,
  Prng.iterate Prng.next n p
  = ((fun k => Prng.hash (seed p) (index p + Z.of_nat k)) <$> seq 0 n,
     mkPRNG (seed p) (index p + Z.of_nat n)).
Proof.
  induction n as [|n IH]; intros p.
  - cbn [Prng.iterate seq fmap list_fmap Z.of_nat]. rewrite Z.add_0_r.
    destruct p; reflexivity.
  - cbn [Prng.iterate]. unfold Prng.next at 1, Prng.generate.
    rewrite IH. cbn [seed index seq fmap list_fmap].
    rewrite <- fmap_S_seq, <- list_fmap_compose.
    replace (index p + Z.of_nat 0) with (index p) by lia.
    replace (index p + 1 + Z.of_nat n) with (index p + Z.of_nat (S n)) by lia.
    rewrite (list_fmap_ext
               (fun k => Prng.hash (seed p) (index p + 1 + Z.of_nat k))
               ((fun k => Prng.hash (seed p) (index p + Z.of_nat k)) ∘ S)
               (seq 0 n)); [reflexivity |].
    intros _ k _. cbn [compose].
    replace (index p + Z.of_nat (S k)) with (index p + 1 + Z.of_nat k) by lia.
    reflexivity.
Qed.

(** C5: [generate()] is a function of the fields [seed] and [index] alone:
    in any state, called any number of times it returns one value, an
    unsigned 32-bit integer, and leaves the state as it was, and two sources
    in states with equal seeds and equal indexes return the same value.  Two
    sources with equal seeds, both at [index = 0], return the same values
    from successive [next()] calls, the k-th being the hash of the seed and
    [k]. *)
Theorem seeded_prng_deterministic (p q : SeededPRNG) (n : nat) :
  ((Prng.iterate Prng.generate n p).1 = replicate n (Prng.generate p).1
   /\ (Prng.iterate Prng.generate n p).2 = p
   /\ 0 <= (Prng.generate p).1 < 2 ^ 32
   /\ (seed p = seed q -> index p = index q ->
       (Prng.generate p).1 = (Prng.generate q).1))
  /\ (seed p = seed q -> index p = 0 -> index q = 0 ->
      (Prng.iterate Prng.next n p).1 = (Prng.iterate Prng.next n q).1
      /\ (forall k, (k < n)%nat ->
            (Prng.iterate Prng.next n p).1 !! k
            = Some (Prng.hash (seed p) (Z.of_nat k)))).
Proof.
  rewrite iterate_generate, !iterate_next.
  unfold Prng.generate. cbn [fst snd].
  split.
  - split; [reflexivity |]. split; [reflexivity |].
    split; [apply hash_range |]. intros Hs Hi. rewrite Hs, Hi. reflexivity.
  - intros Hs Hp Hq. rewrite Hs, Hp, Hq. split; [reflexivity |].
    intros k Hk. rewrite list_lookup_fmap, lookup_seq_lt by assumption.
    cbn [fmap option_fmap option_map]. rewrite !Z.add_0_l. reflexivity.
Qed.

Lemma seeded_prng_deterministic_witness :
  (Prng.iterate Prng.next 3 (Prng.new 1704067200000)).1
  = [934096396; 3196242117; 2784618478]
  /\ (Prng.iterate Prng.generate 3 (Prng.new 1704067200000)).1
     = [934096396; 934096396; 934096396]
  /\ (Prng.iterate Prng.generate 2 (mkPRNG 1704067200000 9)).1
     = [1709177530; 1709177530]
  /\ (Prng.iterate Prng.next 3 (Prng.new 1704067200000)).1 !! 2%nat
     = Some (Prng.hash 1704067200000 2).
Proof.
  destruct (seeded_prng_deterministic (Prng.new 1704067200000)
              (Prng.new 1704067200000) 3) as [(Hg & _) Hnext].
  destruct (Hnext eq_refl eq_refl eq_refl) as [_ Hk].
  destruct (seeded_prng_deterministic (mkPRNG 1704067200000 9)
              (mkPRNG 1704067200000 9) 2) as [(Hg9 & _) _].
  split; [vm_compute; reflexivity |].
  split; [rewrite Hg; vm_compute; reflexivity |].
  split; [rewrite Hg9; vm_compute; reflexivity |].
  apply Hk. lia.
Defined.

(** * The draw pool and its manager *)

(** C4: in a pool created over [n >= 2] positions with a window [w < n],
    every draw succeeds, no index occurs twice among [w] consecutive draws,
    and after any number of draws [draw] and [discard] together hold exactly
    the positions [0 .. n-1], each once. *)
Theorem draw_pool_anti_repetition (n : nat) (w : Z) (rs : list Z) :
  (2 <= n)%nat -> w < Z.of_nat n ->
  exists picks,
    (Pool.draws rs (Pool.new n w)).1 = Some <$> picks
    /\ length picks = length rs
    /\ (forall i, NoDup (take (Z.to_nat w) (drop i picks)))
    /\ draw (Pool.draws rs (Pool.new n w)).2
       ++ discard (Pool.draws rs (Pool.new n w)).2 ≡ₚ seq 0 n
    /\ (forall k, k ∈ draw (Pool.draws rs (Pool.new n w)).2
                  \/ k ∈ discard (Pool.draws rs (Pool.new n w)).2
                  <-> (k < n)%nat).
Proof.
  intros Hn Hw.
  destruct (draws_steady n rs [] (Pool.new n w))
    as (picks & Ho & Hl & _ & Hc & _ & Hs & _).
  - apply covers_new.
  - apply remembers_new.
  - apply spaced_nil.
  - unfold window. simpl. lia.
  - exists picks. split; [assumption |]. split; [assumption |].
    split; [| split; [exact Hc |]].
    + intros i. apply (spaced_window (window (Pool.new n w))); [assumption |].
      unfold window. simpl. lia.
    + intros k. rewrite <- elem_of_app. unfold covers in Hc. rewrite Hc.
      rewrite elem_of_seq. lia.
Qed.

Lemma draw_pool_anti_repetition_witness :
  exists picks,
    (Pool.draws [5; 7; 100; 3; 3; 3; 3; 3] (Pool.new 4 2)).1 = Some <$> picks
    /\ length picks = 8%nat
    /\ (forall i, NoDup (take 2 (drop i picks)))
    /\ draw (Pool.draws [5; 7; 100; 3; 3; 3; 3; 3] (Pool.new 4 2)).2
       ++ discard (Pool.draws [5; 7; 100; 3; 3; 3; 3; 3] (Pool.new 4 2)).2
       ≡ₚ seq 0 4
    /\ (forall k, k ∈ draw (Pool.draws [5; 7; 100; 3; 3; 3; 3; 3] (Pool.new 4 2)).2
                  \/ k ∈ discard (Pool.draws [5; 7; 100; 3; 3; 3; 3; 3] (Pool.new 4 2)).2
                  <-> (k < 4)%nat).
Proof.
  apply (draw_pool_anti_repetition 4 2 [5; 7; 100; 3; 3; 3; 3; 3]); lia.
Defined.

(** C6: a draw returns [null] exactly when [draw] is empty.  For the pool
    that the manager creates for a key (window [min(dontRepeatFor,
    sourceSize - 1)]) this happens only when the source size given at the
    first call is 0, and then on every call; when that size is 1 every call
    returns index 0. *)
Theorem draw_pool_null_iff_exhausted
    (id : string) (n0 : nat) (r0 d0 : Z) (cs : list Manager.call)
    (m : Manager.t) (r w : Z) (rs : list Z) (p : IndexDrawPool) :
  m !! id = None ->
  let calls := Manager.mkCall id n0 r0 d0 :: cs in
  let results := resultsFor id calls (Manager.run calls m).1 in
  ((Pool.next r p).1 = None <-> draw p = [])
  /\ (Pool.draws rs (Pool.new 0 w)).1 = replicate (length rs) None
  /\ (None ∈ results -> n0 = 0%nat)
  /\ (n0 = 0%nat -> results = replicate (S (length (randomsFor id cs))) None)
  /\ (n0 = 1%nat -> results = replicate (S (length (randomsFor id cs))) (Some 0%nat)).
Proof.
  intros Hm calls results.
  destruct (run_first id n0 r0 d0 cs m Hm) as [Hres _].
  fold calls in Hres. fold results in Hres.
  split; [apply next_None_iff |].
  split; [rewrite draws_empty by reflexivity; reflexivity |].
  split; [| split].
  - intros Hnone. destruct n0 as [|n0]; [reflexivity |]. exfalso.
    destruct (draws_manager_pool (S n0) d0 (r0 :: randomsFor id cs))
      as (picks & Ho & _); [discriminate |].
    rewrite Hres, Ho in Hnone.
    apply list_elem_of_fmap in Hnone as (x & Hx & _). discriminate.
  - intros ->. rewrite Hres. rewrite draws_empty by reflexivity. reflexivity.
  - intros ->.
    destruct (draws_manager_pool 1 d0 (r0 :: randomsFor id cs))
      as (picks & Ho & Hl & Hb); [discriminate |].
    rewrite Hres, Ho. simpl in Hl. rewrite <- Hl. clear -Hb.
    induction Hb as [|x picks Hx _ IH]; [reflexivity |].
    cbn [fmap list_fmap length replicate]. rewrite <- IH.
    replace x with 0%nat by lia. reflexivity.
Qed.

Lemma draw_pool_null_iff_exhausted_witness :
  resultsFor "id"
    [Manager.mkCall "id" 1 7 8; Manager.mkCall "track" 3 5 8;
     Manager.mkCall "id" 4 9 8]
    (Manager.run
       [Manager.mkCall "id" 1 7 8; Manager.mkCall "track" 3 5 8;
        Manager.mkCall "id" 4 9 8] Manager.new).1
  = [Some 0%nat; Some 0%nat].
Proof.
  pose proof (draw_pool_null_iff_exhausted "id" 1 7 8
                [Manager.mkCall "track" 3 5 8; Manager.mkCall "id" 4 9 8]
                Manager.new 0 0 [] (Pool.new 0 0) (lookup_empty _))
    as (_ & _ & _ & _ & H1).
  exact (H1 eq_refl).
Defined.

(** C10: the pool of a key is created by the first call made with that key,
    from the [sourceSize] and [dontRepeatFor] of that call.  Every later call
    with the key draws from the stored pool and takes only its
    [randomInteger] argument into account, so the results for the key are
    the successive draws from that one pool, and each index among them is
    below the [sourceSize] of the first call. *)
Theorem manager_pool_fixed_at_first_call
    (id : string) (n0 : nat) (r0 d0 : Z) (cs : list Manager.call)
    (m : Manager.t) :
  m !! id = None ->
  let calls := Manager.mkCall id n0 r0 d0 :: cs in
  let pool0 := Pool.new n0 (Z.min d0 (Z.of_nat n0 - 1)) in
  let results := resultsFor id calls (Manager.run calls m).1 in
  results = (Pool.draws (r0 :: randomsFor id cs) pool0).1
  /\ (Manager.run calls m).2 !! id
     = Some (Pool.draws (r0 :: randomsFor id cs) pool0).2
  /\ (forall k, Some k ∈ results -> (k < n0)%nat)
  /\ (forall m' p n n' r d d',
        m' !! id = Some p ->
        Manager.nextUniqueIndex id n r d m'
        = ((Pool.next r p).1, <[id := (Pool.next r p).2]> m')
        /\ Manager.nextUniqueIndex id n r d m'
           = Manager.nextUniqueIndex id n' r d' m').
Proof.
  intros Hm calls pool0 results.
  destruct (run_first id n0 r0 d0 cs m Hm) as [Hres Hpool].
  fold calls in Hres, Hpool. fold results in Hres. fold pool0 in Hres, Hpool.
  split; [assumption |]. split; [assumption |]. split.
  - intros k Hk. rewrite Hres in Hk.
    apply (draws_bound n0 (r0 :: randomsFor id cs) pool0); [| assumption].
    apply covers_new.
  - intros m' p n n' r d d' Hp.
    rewrite !(nextUniqueIndex_existing _ _ _ _ _ _ Hp). auto.
Qed.

Lemma manager_pool_fixed_at_first_call_witness :
  resultsFor "track"
    [Manager.mkCall "track" 2 5 8; Manager.mkCall "id" 3 4 8;
     Manager.mkCall "track" 9 8 1]
    (Manager.run
       [Manager.mkCall "track" 2 5 8; Manager.mkCall "id" 3 4 8;
        Manager.mkCall "track" 9 8 1] Manager.new).1
  = [Some 1%nat; Some 0%nat].
Proof.
  pose proof (manager_pool_fixed_at_first_call "track" 2 5 8
                [Manager.mkCall "id" 3 4 8; Manager.mkCall "track" 9 8 1]
                Manager.new (lookup_empty _))
    as (H & _).
  rewrite H. vm_compute. reflexivity.
Defined.

(** * Reasoning about operations *)

Section Triples.

Context {A B : Type}.

Lemma post_ret (a : A) w Q : Q (Normal a) w -> post (ret a) w Q.
Proof. auto. Qed.

Lemma post_throw e w (Q : Completion A -> World -> Prop) :
  Q (Throw e) w -> post (throw e) w Q.
Proof. auto. Qed.

Lemma post_bind (m : Op A) (k : A -> Op B) w Q :
  post m w (fun c w1 =>
    match c with
    | Normal a => post (k a) w1 Q
    | Throw e => Q (Throw e) w1
    end) ->
  post (bind m k) w Q.
Proof.
  unfold post, bind. destruct (m w) as [[a | e] w1]; simpl; auto.
Qed.

Lemma post_weaken (op : Op A) w (Q Q' : Completion A -> World -> Prop) :
  post op w Q -> (forall c w1, Q c w1 -> Q' c w1) -> post op w Q'.
Proof. unfold post. auto. Qed.

Lemma post_read (f : RadioStation -> A) w Q :
  Q (Normal (f (this w))) w -> post (read f) w Q.
Proof. auto. Qed.

Lemma post_defined (o : option A) w Q :
  match o with
  | Some a => Q (Normal a) w
  | None => Q (Throw TypeError) w
  end ->
  post (defined o) w Q.
Proof. destruct o; auto. Qed.

End Triples.

Lemma post_update f w Q :
  Q (Normal tt) (mkWorld (PRNG w) (f (this w))) -> post (update f) w Q.
Proof. auto. Qed.

Lemma post_PRNG_next w Q :
  Q (Normal (Prng.hash (seed (PRNG w)) (index (PRNG w))))
    (mkWorld (mkPRNG (seed (PRNG w)) (index (PRNG w) + 1)) (this w)) ->
  post PRNG_next w Q.
Proof. auto. Qed.

Lemma post_nextUniqueIndex id n r w Q :
  (forall x pools,
     Manager.nextUniqueIndex id n r Manager.defaultDontRepeatFor
       (indexDrawPools (this w)) = (x, pools) ->
     Q (Normal x) (mkWorld (PRNG w) (set_indexDrawPools pools (this w)))) ->
  post (nextUniqueIndex id n r) w Q.
Proof.
  intros H. unfold post, nextUniqueIndex.
  destruct (Manager.nextUniqueIndex _ _ _ _ _) as [x pools] eqn:E.
  simpl. apply H. reflexivity.
Qed.

Lemma post_fileGroup g w Q :
  match fileGroups (meta (this w)) !! g with
  | Some l => Q (Normal l) w
  | None => Q (Throw TypeError) w
  end ->
  post (Station.fileGroup g) w Q.
Proof.
  intros H. unfold Station.fileGroup. apply post_bind, post_read.
  apply post_defined. exact H.
Qed.

Lemma post_resolveObjectPath {T} `{HasPath T} (o : option T) w Q :
  match o with
  | Some object =>
      Q (Normal (withPath (Station.getAbsolutePath (this w) (getPath object))
                   object)) w
  | None => Q (Throw TypeError) w
  end ->
  post (Station.resolveObjectPath o) w Q.
Proof.
  intros HQ. unfold Station.resolveObjectPath.
  apply post_bind, post_defined. destruct o as [object |]; [| exact HQ].
  apply post_bind, post_read, post_ret. exact HQ.
Qed.

Lemma post_newSyncedSegment now o t w Q :
  match o with
  | Some segmentInfo =>
      Q (Normal (mkSyncedSegment
                   (withPath (Station.getAbsolutePath (this w) (path segmentInfo))
                      segmentInfo)
                   (Station.timeAt (Station.startTimestamp now) t) None)) w
  | None => Q (Throw TypeError) w
  end ->
  post (Station.newSyncedSegment now o t) w Q.
Proof.
  intros HQ. unfold Station.newSyncedSegment.
  apply post_bind, post_resolveObjectPath. destruct o; [| exact HQ].
  apply post_ret. exact HQ.
Qed.

Lemma post_advance segment w Q :
  Q (Normal tt)
    (mkWorld (PRNG w)
       (set_accumulatedTime
          (PrimFloat.add (accumulatedTime (this w))
             (orElse (audibleDuration (info segment)) (duration (info segment))))
          (this w))) ->
  post (Station.advance segment) w Q.
Proof. auto. Qed.

(** * Pools that never run dry *)

Section Steady.

Implicit Types (p : IndexDrawPool) (m : Manager.t).

Lemma NoDup_spaced W (l : list nat) : NoDup l -> spaced W l.
Proof.
  intros Hnd i j x Hij Hi Hj.
  pose proof (proj1 (NoDup_alt l) Hnd i j x Hi Hj). lia.
Qed.

Lemma steady_next n r p :
  steady n p ->
  exists x, (Pool.next r p).1 = Some x /\ (x < n)%nat
            /\ steady n (Pool.next r p).2.
Proof.
  intros (Hc & Hl & Hw).
  destruct (next_steady n (discard p) r p) as (x & p' & Hn & Hx & Hc' & Hr' & _ & Hw');
    [assumption | | | assumption |].
  - unfold remembers. replace (length (discard p) - window p)%nat with 0%nat by lia.
    reflexivity.
  - apply NoDup_spaced. apply covers_NoDup in Hc.
    apply NoDup_app in Hc as (_ & _ & Hd). exact Hd.
  - exists x. rewrite Hn. simpl. split; [reflexivity |]. split; [assumption |].
    split; [assumption |]. split; [| lia].
    apply remembers_length in Hr'. exact Hr'.
Qed.

Lemma steady_new n d :
  n <> 0%nat -> steady n (Pool.new n (Z.min d (Z.of_nat n - 1))).
Proof.
  intros Hn. split; [apply covers_new |]. unfold window. simpl. lia.
Qed.

Lemma manager_draw_ready g n r m :
  n <> 0%nat ->
  (forall p, m !! g = Some p -> steady n p) ->
  exists i m',
    Manager.nextUniqueIndex g n r Manager.defaultDontRepeatFor m = (Some i, m')
    /\ (i < n)%nat
    /\ (forall p, m' !! g = Some p -> steady n p)
    /\ (forall g', g' <> g -> m' !! g' = m !! g').
Proof.
  intros Hn Hm.
  assert (Hstep : exists p, Manager.nextUniqueIndex g n r Manager.defaultDontRepeatFor m
            = ((Pool.next r p).1, <[g := (Pool.next r p).2]> m) /\ steady n p).
  { destruct (m !! g) as [p |] eqn:Hg.
    - exists p. split; [apply nextUniqueIndex_existing; assumption | auto].
    - eexists. split; [apply nextUniqueIndex_fresh; assumption |].
      apply steady_new. assumption. }
  destruct Hstep as (p & Hcall & Hp).
  destruct (steady_next n r p Hp) as (x & Hx & Hlt & Hp').
  exists x, (<[g := (Pool.next r p).2]> m).
  rewrite Hcall, Hx. split; [reflexivity |]. split; [assumption |]. split.
  - intros q Hq. rewrite lookup_insert_eq in Hq. injection Hq as <-. assumption.
  - intros g' Hne. apply lookup_insert_ne. auto.
Qed.

Lemma at_mod_nonempty {A} (l : list A) (n : Z) :
  l <> [] -> 0 <= n -> exists x, at_mod l n = Some x /\ x ∈ l.
Proof.
  intros Hl Hn. unfold at_mod, JS.rem.
  destruct (decide (length l = 0%nat)) as [H0 | H0].
  { destruct l; [congruence | discriminate]. }
  pose proof (Z.rem_bound_pos n (Z.of_nat (length l)) Hn ltac:(lia)) as Hb.
  destruct (Z.ltb_spec (Z.rem n (Z.of_nat (length l))) 0); [lia |].
  destruct (lookup_lt_is_Some_2 l (Z.to_nat (Z.rem n (Z.of_nat (length l)))))
    as [x Hx]; [lia |].
  exists x. split; [assumption |]. eapply list_elem_of_lookup_2. eassumption.
Qed.

End Steady.

(** * Steps of the stations *)

Section Steps.

Lemma ready_frame s s' :
  type s' = type s -> meta s' = meta s ->
  indexDrawPools s' = indexDrawPools s -> ready s -> ready s'.
Proof.
  destruct s, s'. simpl. intros -> -> ->. unfold ready, groupReady, hasGroup.
  simpl. auto.
Qed.

Lemma groupReady_frame s s' g :
  meta s' = meta s -> indexDrawPools s' !! g = indexDrawPools s !! g ->
  groupReady s g -> groupReady s' g.
Proof.
  unfold groupReady, hasGroup. intros -> ->. auto.
Qed.

(** A draw for a ready group returns a position of the group and leaves it
    ready. *)
Lemma groupReady_draw s g l r x pools :
  groupReady s g ->
  fileGroups (meta s) !! g = Some l ->
  Manager.nextUniqueIndex g (length l) r Manager.defaultDontRepeatFor
    (indexDrawPools s) = (x, pools) ->
  (exists i t, x = Some i /\ l !! i = Some t)
  /\ groupReady (set_indexDrawPools pools s) g
  /\ forall g', g' <> g -> pools !! g' = indexDrawPools s !! g'.
Proof.
  intros (l' & [Hl' Hne] & Hp) Hl Hcall.
  rewrite Hl in Hl'. injection Hl' as <-.
  destruct (manager_draw_ready g (length l) r (indexDrawPools s))
    as (i & m' & Hcall' & Hi & Hp' & Hother).
  { destruct l; [congruence | discriminate]. }
  { assumption. }
  rewrite Hcall in Hcall'. injection Hcall' as -> ->.
  split; [| split].
  - destruct (lookup_lt_is_Some_2 l i Hi) as [t Ht]. eauto.
  - exists l. split; [split; assumption |]. exact Hp'.
  - exact Hother.
Qed.

Lemma ready_talkshow s :
  type s = talkshow ->
  ready s <-> (exists l, hasGroup s "track" l) /\ groupReady s "id".
Proof. intros H. unfold ready. rewrite H. reflexivity. Qed.

Lemma talkshow_step now w :
  type (this w) = talkshow ->
  post (TalkshowStation.nextSegment now) w (fun c w' =>
    type (this w') = talkshow
    /\ meta (this w') = meta (this w)
    /\ match c with
       | Normal segment =>
           isTrack segment
           = Some (TalkshowStation.trackIsDue (prevSegment (this w)))
           /\ prevSegment (this w') = Some segment
       | Throw _ => prevSegment (this w') = prevSegment (this w)
       end
    /\ (ready (this w) -> ready (this w') /\ exists segment, c = Normal segment)).
Proof.
  intros Hty. unfold TalkshowStation.nextSegment.
  apply post_bind, post_read. cbv zeta.
  apply post_bind.
  destruct (TalkshowStation.trackIsDue (prevSegment (this w))) eqn:Hdue.
  - unfold TalkshowStation.getTrack. apply post_bind, post_fileGroup.
    destruct (fileGroups (meta (this w)) !! "track") as [l |] eqn:Hl.
    + apply post_bind, post_read, post_ret.
      apply post_bind, post_read, post_bind, post_newSyncedSegment.
      destruct (at_mod l (Z.of_nat (segmentIndex (this w)))) as [segmentInfo |] eqn:Hat.
      * apply post_bind, post_update, post_bind, post_update, post_bind,
          post_advance, post_ret.
        cbn. rewrite Hty. repeat split; try reflexivity; [| eauto].
        revert H. apply ready_frame; reflexivity.
      * cbn. repeat split; try assumption.
        all: apply ready_talkshow in H as [(l' & Hl' & Hne) _]; [| assumption].
        all: rewrite Hl in Hl'; injection Hl' as <-.
        all: destruct (at_mod_nonempty l (Z.of_nat (segmentIndex (this w))) Hne)
               as (x & Hx & _); [lia | congruence].
    + cbn. repeat split; try assumption.
      all: apply ready_talkshow in H as [(l' & Hl' & Hne) _]; [| assumption].
      all: congruence.
  - unfold TalkshowStation.getRandomTransition. apply post_bind, post_fileGroup.
    destruct (fileGroups (meta (this w)) !! "id") as [l |] eqn:Hl.
    + apply post_bind, post_PRNG_next, post_bind, post_nextUniqueIndex.
      intros x pools Hcall. apply post_ret.
      apply post_bind, post_read, post_bind, post_newSyncedSegment.
      cbn [this PRNG] in *.
      assert (Hready : ready (this w) ->
                (exists i t, x = Some i /\ l !! i = Some t)
                /\ forall s', type s' = talkshow -> meta s' = meta (this w) ->
                     indexDrawPools s' = pools -> ready s').
      { intros H. apply ready_talkshow in H as [Htr Hid]; [| assumption].
        destruct (groupReady_draw _ _ _ _ _ _ Hid Hl Hcall) as (Hx & Hid' & _).
        split; [assumption |]. intros s' Hty' Hmeta Hpools.
        apply ready_talkshow; [assumption |]. split.
        - destruct Htr as (l' & Hl'). exists l'. unfold hasGroup in *.
          rewrite Hmeta. assumption.
        - revert Hid'. apply groupReady_frame; [assumption |].
          rewrite Hpools. reflexivity. }
      destruct (at_drawn l x) as [segmentInfo |] eqn:Hat.
      * apply post_bind, post_ret, post_bind, post_update, post_bind,
          post_advance, post_ret.
        cbn. rewrite Hty. repeat split; try reflexivity; [| eauto].
        apply Hready; [assumption | exact Hty | reflexivity..].
      * cbn. repeat split; try assumption.
        all: destruct (Hready H) as [(i & t & -> & Ht) _]; simpl in Hat; congruence.
    + cbn. repeat split; try assumption.
      all: apply ready_talkshow in H as [_ (l' & [Hl' _] & _)]; [| assumption].
      all: congruence.
Qed.

Lemma groupReady_lookup s s' g :
  fileGroups (meta s') !! g = fileGroups (meta s) !! g ->
  indexDrawPools s' !! g = indexDrawPools s !! g ->
  groupReady s g -> groupReady s' g.
Proof.
  unfold groupReady, hasGroup. intros -> ->. auto.
Qed.

Lemma ready_dynamic s :
  type s = dynamic ->
  ready s <->
  groupReady s "track" /\ groupReady s "id" /\ groupReady s "mono_solo"
  /\ forall l t, fileGroups (meta s) !! "track" = Some l -> t ∈ l ->
       voiceovers t <> Some [].
Proof. intros H. unfold ready. rewrite H. reflexivity. Qed.

Lemma getRandomTransition_post randNum w :
  post (DynamicStation.getRandomTransition randNum) w (fun c w' =>
    type (this w') = type (this w)
    /\ prevSegment (this w') = prevSegment (this w)
    /\ station_path (this w') = station_path (this w)
    /\ accumulatedTime (this w') = accumulatedTime (this w)
    /\ meta (this w') = meta (this w)
    /\ PRNG w' = PRNG w
    /\ (forall o, c = Normal o ->
          exists l,
            fileGroups (meta (this w))
              !! (if JS.rem randNum 2 =? 0 then "id" else "mono_solo") = Some l
            /\ forall t, o = Some t -> t ∈ l)
    /\ (type (this w) = dynamic -> ready (this w) ->
        ready (this w') /\ exists t, c = Normal (Some t))).
Proof.
  unfold DynamicStation.getRandomTransition. cbv zeta.
  set (g := if JS.rem randNum 2 =? 0 then "id" else "mono_solo").
  assert (Hg : g = "id" \/ g = "mono_solo").
  { unfold g. destruct (_ =? _); auto. }
  apply post_bind, post_fileGroup.
  destruct (fileGroups (meta (this w)) !! g) as [l |] eqn:Hl.
  - apply post_bind, post_nextUniqueIndex. intros x pools Hcall. apply post_ret.
    cbn. repeat split; try reflexivity.
    + intros o [= <-]. exists l. split; [reflexivity |].
      intros t Ht. destruct x as [i |]; [| discriminate].
      eapply list_elem_of_lookup_2. exact Ht.
    + apply ready_dynamic in H0 as (Htr & Hid & Hms & Hvo); [| assumption].
      assert (Hgr : groupReady (this w) g) by (destruct Hg as [-> | ->]; assumption).
      destruct (groupReady_draw _ _ _ _ _ _ Hgr Hl Hcall) as (_ & Hg' & Hother).
      apply ready_dynamic; [assumption |].
      assert (Hkeep : forall g', groupReady (this w) g' ->
                groupReady (set_indexDrawPools pools (this w)) g').
      { intros g' Hg0. destruct (decide (g' = g)) as [-> | Hne]; [assumption |].
        revert Hg0. apply groupReady_lookup; [reflexivity |].
        simpl. apply Hother. assumption. }
      repeat split; auto.
    + apply ready_dynamic in H0 as (Htr & Hid & Hms & Hvo); [| assumption].
      assert (Hgr : groupReady (this w) g) by (destruct Hg as [-> | ->]; assumption).
      destruct (groupReady_draw _ _ _ _ _ _ Hgr Hl Hcall) as ((i & t & -> & Ht) & _).
      simpl. rewrite Ht. eauto.
  - cbn. repeat split; try reflexivity; try discriminate.
    all: apply ready_dynamic in H0 as (Htr & Hid & Hms & Hvo); [| assumption].
    all: assert (Hgr : groupReady (this w) g) by (destruct Hg as [-> | ->]; assumption).
    all: destruct Hgr as (l' & [Hl' _] & _); congruence.
Qed.

Lemma ready_after_voiceOver s pools i t v tracks :
  type s = dynamic -> ready s ->
  fileGroups (meta s) !! "track" = Some tracks -> tracks !! i = Some t ->
  voiceovers t <> Some [] ->
  groupReady (set_indexDrawPools pools s) "track" ->
  (forall g', g' <> "track" -> pools !! g' = indexDrawPools s !! g') ->
  ready (set_fileGroup "track" (<[i := set_voiceOver v t]> tracks)
           (set_indexDrawPools pools s)).
Proof.
  intros Hty Hr Hl Ht Hvos (l' & [Hl' Hne] & Hp) Hother.
  simpl in Hl'. rewrite Hl in Hl'. injection Hl' as <-.
  apply ready_dynamic in Hr as (_ & Hid & Hms & Hvo); [| assumption].
  apply ready_dynamic; [assumption |]. split; [| split; [| split]].
  - exists (<[i := set_voiceOver v t]> tracks). split.
    + split; [simpl; apply lookup_insert_eq |].
      intros Hnil. apply (f_equal length) in Hnil.
      rewrite length_insert in Hnil. destruct tracks; [congruence | discriminate].
    + rewrite length_insert. exact Hp.
  - revert Hid. apply groupReady_lookup; simpl.
    + apply lookup_insert_ne. discriminate.
    + apply Hother. discriminate.
  - revert Hms. apply groupReady_lookup; simpl.
    + apply lookup_insert_ne. discriminate.
    + apply Hother. discriminate.
  - simpl. intros l t0. rewrite lookup_insert_eq. intros [= <-] Hin.
    apply list_elem_of_lookup in Hin as [j Hj].
    apply list_lookup_insert_Some in Hj as [(_ & <- & _) | [_ Hj]].
    + exact Hvos.
    + apply (Hvo tracks); [assumption |].
      eapply list_elem_of_lookup_2. eassumption.
Qed.

Lemma getRandomTrack_post randNum w :
  post (DynamicStation.getRandomTrack randNum) w (fun c w' =>
    type (this w') = type (this w)
    /\ prevSegment (this w') = prevSegment (this w)
    /\ station_path (this w') = station_path (this w)
    /\ accumulatedTime (this w') = accumulatedTime (this w)
    /\ seed (PRNG w') = seed (PRNG w)
    /\ (forall o, c = Normal o ->
          exists tracks i t,
            fileGroups (meta (this w)) !! "track" = Some tracks
            /\ tracks !! i = Some t
            /\ match voiceovers t with
               | Some vos =>
                   exists vo,
                     at_mod vos (Prng.hash (seed (PRNG w)) (index (PRNG w)))
                     = Some vo
                     /\ o = Some (set_voiceOver
                                   (withPath
                                      (Station.getAbsolutePath (this w) (vo_path vo))
                                      vo) t)
                     /\ index (PRNG w') = index (PRNG w) + 1
                     /\ fileGroups (meta (this w'))
                        = <["track" :=
                             <[i := set_voiceOver
                                      (withPath
                                         (Station.getAbsolutePath (this w)
                                            (vo_path vo)) vo) t]> tracks]>
                            (fileGroups (meta (this w)))
               | None => o = Some t /\ PRNG w' = PRNG w
                         /\ meta (this w') = meta (this w)
               end)
    /\ (type (this w) = dynamic -> ready (this w) ->
        ready (this w') /\ exists t, c = Normal (Some t))).
Proof.
  unfold DynamicStation.getRandomTrack.
  apply post_bind, post_fileGroup.
  destruct (fileGroups (meta (this w)) !! "track") as [tracks |] eqn:Hl.
  - apply post_bind, post_nextUniqueIndex. intros x pools Hcall.
    assert (Hready : type (this w) = dynamic -> ready (this w) ->
              (exists i t, x = Some i /\ tracks !! i = Some t)
              /\ groupReady (set_indexDrawPools pools (this w)) "track"
              /\ (forall g', g' <> "track" -> pools !! g' = indexDrawPools (this w) !! g')
              /\ (forall t, t ∈ tracks -> voiceovers t <> Some [])).
    { intros Hty Hr. apply ready_dynamic in Hr as (Htr & _ & _ & Hvo); [| assumption].
      destruct (groupReady_draw _ _ _ _ _ _ Htr Hl Hcall) as (Hx & Hg' & Hother).
      repeat split; try assumption. intros t. apply Hvo. assumption. }
    apply post_bind, post_defined.
    destruct x as [i |]; simpl.
    + destruct (tracks !! i) as [t |] eqn:Ht.
      * destruct (voiceovers t) as [vos |] eqn:Hvos.
        -- apply post_bind, post_PRNG_next, post_bind, post_resolveObjectPath.
           cbn [PRNG this seed index].
           destruct (at_mod vos (Prng.hash (seed (PRNG w)) (index (PRNG w))))
             as [vo |] eqn:Hvo.
           ++ apply post_bind, post_update, post_ret. cbn.
              repeat split; try reflexivity.
              ** intros o [= <-]. exists tracks, i, t. rewrite Hvos.
                 repeat split; try assumption. exists vo. auto.
              ** destruct (Hready H H0) as (_ & Hg' & Hother & Hne).
                 apply (ready_after_voiceOver (this w)); try assumption.
                 rewrite Hvos. intros [= ->]. simpl in Hvo.
                 apply (Hne t); [| assumption].
                 eapply list_elem_of_lookup_2; eassumption.
              ** eauto.
           ++ cbn. repeat split; try reflexivity; try discriminate.
              all: destruct (Hready H H0) as (_ & _ & _ & Hne).
              all: assert (Hnil : vos <> []) by
                     (intros ->; apply (Hne t);
                      [eapply list_elem_of_lookup_2; eassumption | assumption]).
              all: destruct (at_mod_nonempty vos
                     (Prng.hash (seed (PRNG w)) (index (PRNG w))) Hnil)
                     as (vo & Hvo' & _); [apply hash_range | congruence].
        -- apply post_ret. cbn. repeat split; try reflexivity.
           ++ intros o [= <-]. exists tracks, i, t. rewrite Hvos. auto.
           ++ destruct (Hready H H0) as (_ & Hg' & Hother & Hne).
              apply ready_dynamic in H0 as (_ & Hid & Hms & Hvo); [| assumption].
              apply ready_dynamic; [assumption |].
              repeat split; try assumption.
              ** revert Hid. apply groupReady_lookup; simpl;
                   [reflexivity | apply Hother; discriminate].
              ** revert Hms. apply groupReady_lookup; simpl;
                   [reflexivity | apply Hother; discriminate].
           ++ eauto.
      * cbn. repeat split; try reflexivity; try discriminate.
        all: destruct (Hready H H0) as ((j & t & [= <-] & Ht') & _); congruence.
    + cbn. repeat split; try reflexivity; try discriminate.
      all: destruct (Hready H H0) as ((j & t & Hj & _) & _); discriminate.
  - cbn. repeat split; try reflexivity; try discriminate.
    all: apply ready_dynamic in H0 as ((l' & [Hl' _] & _) & _); [| assumption].
    all: congruence.
Qed.

Lemma dynamic_step now w :
  type (this w) = dynamic ->
  post (DynamicStation.nextSegment now) w (fun c w' =>
    type (this w') = dynamic
    /\ seed (PRNG w') = seed (PRNG w)
    /\ match c with
       | Normal segment =>
           isTrack segment
           = Some (DynamicStation.trackIsDue (prevSegment (this w))
                     (DynamicStation.percent
                        (Prng.hash (seed (PRNG w)) (index (PRNG w)))))
           /\ prevSegment (this w') = Some segment
           /\ (if DynamicStation.trackIsDue (prevSegment (this w))
                    (DynamicStation.percent
                       (Prng.hash (seed (PRNG w)) (index (PRNG w))))
               then selectsTrack w segment w'
               else selectsTransition w segment w')
       | Throw _ => prevSegment (this w') = prevSegment (this w)
       end
    /\ (ready (this w) -> ready (this w') /\ exists segment, c = Normal segment)).
Proof.
  intros Hty. unfold DynamicStation.nextSegment.
  apply post_bind, post_PRNG_next. cbv zeta.
  set (raw := Prng.hash (seed (PRNG w)) (index (PRNG w))).
  apply post_bind, post_read. cbn [this PRNG].
  apply post_bind.
  destruct (DynamicStation.trackIsDue (prevSegment (this w))
              (DynamicStation.percent raw)) eqn:Hdue.
  - eapply post_weaken; [apply getRandomTrack_post |].
    cbn [this PRNG seed index].
    intros c w1 (Hty1 & Hprev1 & Hpath1 & Hacc1 & Hseed1 & Hsel & Hready).
    destruct c as [o | e].
    + destruct (Hsel o eq_refl) as (tracks & i & t & Hl & Ht & Hvo).
      assert (Habs : forall rel, Station.getAbsolutePath (this w1) rel
                                 = Station.getAbsolutePath (this w) rel).
      { intros rel. unfold Station.getAbsolutePath. rewrite Hpath1. reflexivity. }
      assert (Ho : exists t', o = Some t' /\ path t' = path t
                /\ match voiceovers t with
                   | Some vos =>
                       exists vo,
                         at_mod vos (Prng.hash (seed (PRNG w)) (index (PRNG w) + 1))
                         = Some vo
                         /\ voiceOver t'
                            = Some (withPath
                                      (Station.getAbsolutePath (this w) (vo_path vo)) vo)
                         /\ index (PRNG w1) = index (PRNG w) + 2
                   | None => voiceOver t' = voiceOver t
                             /\ index (PRNG w1) = index (PRNG w) + 1
                   end).
      { destruct (voiceovers t) as [vos |].
        - destruct Hvo as (vo & Hat & -> & Hidx & _).
          eexists. split; [reflexivity |]. split; [reflexivity |].
          exists vo. repeat split; [assumption | lia].
        - destruct Hvo as (-> & -> & _). eauto. }
      destruct Ho as (t' & -> & Hpt & Hvo').
      apply post_bind, post_read, post_bind, post_newSyncedSegment.
      apply post_bind, post_update, post_bind, post_advance, post_ret.
      cbn. rewrite Hty1, Hseed1, Hty. repeat split.
      * exists tracks, i, t. rewrite Habs, Hpt.
        split; [assumption |]. split; [assumption |]. split; [reflexivity |].
        exact Hvo'.
      * destruct (Hready Hty H) as [Hr _]. revert Hr.
        apply ready_frame; reflexivity.
      * eauto.
    + cbn. rewrite Hty1, Hseed1, Hty. repeat split; try assumption.
      all: destruct (Hready Hty H) as [_ [? [=]]].
  - eapply post_weaken; [apply getRandomTransition_post |].
    cbn [this PRNG seed index].
    intros c w1 (Hty1 & Hprev1 & Hpath1 & Hacc1 & Hmeta1 & Hprng1 & Hsel & Hready).
    destruct c as [o | e].
    + destruct (Hsel o eq_refl) as (l & Hl & Ht).
      assert (Habs : forall rel, Station.getAbsolutePath (this w1) rel
                                 = Station.getAbsolutePath (this w) rel).
      { intros rel. unfold Station.getAbsolutePath. rewrite Hpath1. reflexivity. }
      apply post_bind, post_read, post_bind, post_newSyncedSegment.
      destruct o as [t |].
      * apply post_bind, post_update, post_bind, post_advance, post_ret.
        cbn. rewrite Hty1, Hprng1, Hty. repeat split.
        -- exists l, t. rewrite Habs.
           split; [exact Hl |]. split; [apply Ht; reflexivity |].
           split; reflexivity.
        -- destruct (Hready Hty H) as [Hr _]. revert Hr.
           apply ready_frame; reflexivity.
        -- eauto.
      * cbn. rewrite Hty1, Hprng1, Hty. repeat split; try assumption.
        all: destruct (Hready Hty H) as [_ [? [=]]].
    + cbn. rewrite Hty1, Hprng1, Hty. repeat split; try assumption.
      all: destruct (Hready Hty H) as [_ [? [=]]].
Qed.

End Steps.

(** * Runs of the stations *)

Section Runs.

Lemma nextSegments_S n now w :
  nextSegments (S n) now w
  = ((nextSegment now w).1 :: (nextSegments n now (nextSegment now w).2).1,
     (nextSegments n now (nextSegment now w).2).2).
Proof.
  simpl. destruct (nextSegment now w) as [c w1]. simpl.
  destruct (nextSegments n now w1); reflexivity.
Qed.

Lemma returned_cons {A} (c : Completion A) cs :
  returned (c :: cs)
  = match c with
    | Normal a => a :: returned cs
    | Throw _ => returned cs
    end.
Proof. destruct c; reflexivity. Qed.

Lemma nextSegment_talkshow now w :
  type (this w) = talkshow -> nextSegment now w = TalkshowStation.nextSegment now w.
Proof. intros H. unfold nextSegment. rewrite H. reflexivity. Qed.

Lemma nextSegment_dynamic now w :
  type (this w) = dynamic -> nextSegment now w = DynamicStation.nextSegment now w.
Proof. intros H. unfold nextSegment. rewrite H. reflexivity. Qed.

Lemma talkshow_run now n : forall w,
  type (this w) = talkshow ->
  talkshowChain (prevSegment (this w)) (returned (nextSegments n now w).1)
  /\ type (this (nextSegments n now w).2) = talkshow
  /\ (ready (this w) ->
      length (returned (nextSegments n now w).1) = n
      /\ ready (this (nextSegments n now w).2)).
Proof.
  induction n as [|n IH]; intros w Hty; [simpl; auto |].
  rewrite nextSegments_S. cbn [fst snd]. rewrite returned_cons.
  pose proof (talkshow_step now w Hty) as Hstep. unfold post in Hstep.
  rewrite <- (nextSegment_talkshow now w Hty) in Hstep.
  destruct (nextSegment now w) as [c w1]. cbn [fst snd] in *.
  destruct Hstep as (Hty1 & _ & Hc & Hr).
  destruct (IH w1 Hty1) as (IHc & IHt & IHl).
  destruct c as [segment | e].
  - destruct Hc as [Hflag Hprev]. rewrite Hprev in IHc. split; [| split].
    + simpl. auto.
    + assumption.
    + intros Hready. destruct (Hr Hready) as [Hr1 _].
      destruct (IHl Hr1) as [Hlen Hfin]. simpl. auto.
  - rewrite Hc in IHc. split; [assumption |]. split; [assumption |].
    intros Hready. destruct (Hr Hready) as [_ [? [=]]].
Qed.

Lemma talkshowChain_alternates segments : forall prev i a b,
  talkshowChain prev segments ->
  segments !! i = Some a -> segments !! S i = Some b ->
  exists x, isTrack a = Some x /\ isTrack b = Some (negb x).
Proof.
  induction segments as [|s segments IH]; intros prev i a b Hc Ha Hb.
  - rewrite lookup_nil in Ha. discriminate.
  - destruct Hc as [Hs Hrest]. destruct i as [|i].
    + simpl in Ha. injection Ha as <-.
      destruct segments as [|s' segments]; [discriminate |].
      simpl in Hb. injection Hb as <-. destruct Hrest as [Hs' _].
      eexists. split; [exact Hs |]. rewrite Hs'. simpl. rewrite Hs. reflexivity.
    + apply (IH (Some s) i); assumption.
Qed.

Lemma dynamic_run now n : forall w,
  type (this w) = dynamic ->
  dynamicChain (prevSegment (this w)) (returned (nextSegments n now w).1)
  /\ type (this (nextSegments n now w).2) = dynamic
  /\ (ready (this w) ->
      length (returned (nextSegments n now w).1) = n
      /\ ready (this (nextSegments n now w).2)).
Proof.
  induction n as [|n IH]; intros w Hty; [simpl; auto |].
  rewrite nextSegments_S. cbn [fst snd]. rewrite returned_cons.
  pose proof (dynamic_step now w Hty) as Hstep. unfold post in Hstep.
  rewrite <- (nextSegment_dynamic now w Hty) in Hstep.
  destruct (nextSegment now w) as [c w1]. cbn [fst snd] in *.
  destruct Hstep as (Hty1 & _ & Hc & Hr).
  destruct (IH w1 Hty1) as (IHc & IHt & IHl).
  destruct c as [segment | e].
  - destruct Hc as (Hflag & Hprev & _). rewrite Hprev in IHc. split; [| split].
    + simpl. eauto.
    + assumption.
    + intros Hready. destruct (Hr Hready) as [Hr1 _].
      destruct (IHl Hr1) as [Hlen Hfin]. simpl. auto.
  - rewrite Hc in IHc. split; [assumption |]. split; [assumption |].
    intros Hready. destruct (Hr Hready) as [_ [? [=]]].
Qed.

Lemma dynamicChain_spec segments : forall prev i b,
  dynamicChain prev segments ->
  segments !! i = Some b ->
  exists randPercent,
    isTrack b
    = Some (DynamicStation.trackIsDue
              (match i with O => prev | S j => segments !! j end) randPercent).
Proof.
  induction segments as [|s segments IH]; intros prev i b Hc Hb.
  - rewrite lookup_nil in Hb. discriminate.
  - destruct Hc as [Hs Hrest]. destruct i as [|i].
    + simpl in Hb. injection Hb as <-. exact Hs.
    + simpl in Hb. destruct (IH (Some s) i b Hrest Hb) as [pct Hpct].
      exists pct. rewrite Hpct. destruct i; reflexivity.
Qed.

End Runs.

(** A station as constructed is ready when its metadata has the three file
    groups, none empty, and no empty [voiceovers] array. *)
Lemma ready_constructed cls path meta now prng :
  (forall g, g ∈ ["track"; "id"; "mono_solo"] ->
     exists l, fileGroups meta !! g = Some l /\ l <> []) ->
  (forall l t, fileGroups meta !! "track" = Some l -> t ∈ l ->
     voiceovers t <> Some []) ->
  ready (this (Station.construct cls path meta now prng)).
Proof.
  intros Hgroups Hvo.
  assert (Hg : forall g, g ∈ ["track"; "id"; "mono_solo"] ->
             groupReady (this (Station.construct cls path meta now prng)) g).
  { intros g Hin. destruct (Hgroups g Hin) as (l & Hl & Hne).
    exists l. split; [split; assumption |].
    intros p Hp. cbn [this Station.construct indexDrawPools] in Hp.
    unfold Manager.new in Hp. rewrite lookup_empty in Hp. discriminate. }
  assert (Htr : groupReady (this (Station.construct cls path meta now prng)) "track")
    by (apply Hg; set_solver).
  assert (Hid : groupReady (this (Station.construct cls path meta now prng)) "id")
    by (apply Hg; set_solver).
  assert (Hms : groupReady (this (Station.construct cls path meta now prng)) "mono_solo")
    by (apply Hg; set_solver).
  unfold ready. cbn [this Station.construct type].
  destruct cls.
  - destruct Htr as (l & Hl & _). eauto.
  - split; [| assumption]. destruct Htr as (l & Hl & _). eauto.
  - repeat split; assumption.
Qed.

Lemma sample_groups_ready type path metaType tracks :
  tracks <> [] -> Forall (fun t => voiceovers t <> Some []) tracks ->
  ready (this (Station.construct type path
                 (mkMeta metaType (Sample.groups tracks)) Sample.now Sample.prng)).
Proof.
  intros Hne Hvo. apply ready_constructed.
  - intros g Hg. cbn [fileGroups].
    repeat (apply elem_of_cons in Hg as [-> | Hg]);
      [eexists; split; [reflexivity | assumption]
      | eexists; split; [reflexivity | discriminate]..
      | apply elem_of_nil in Hg; contradiction].
  - cbn [fileGroups]. intros l t [= <-] Hin.
    rewrite Forall_forall in Hvo. apply Hvo. assumption.
Qed.

(** The percentage is below 50 for the lower half of the 32-bit range. *)
Example percent_threshold :
  PrimFloat.ltb (DynamicStation.percent 2147483647) 50 = true
  /\ PrimFloat.ltb (DynamicStation.percent 2147483648) 50 = false
  /\ PrimFloat.ltb (DynamicStation.percent 0) 50 = true
  /\ PrimFloat.ltb (DynamicStation.percent 4294967295) 50 = false.
Proof. vm_compute. auto. Qed.

(** C7: in a run of a talkshow station the [isTrack] flags of the returned
    segments alternate, the first one being [true] when the station has no
    previous segment (as constructed, or after the reset that opens
    [getSyncedSegment()]).  On a ready station every call returns a
    segment. *)
Theorem talkshow_isTrack_alternates (now : Z) (n : nat) (w : World) :
  type (this w) = talkshow ->
  let segments := returned (nextSegments n now w).1 in
  (forall i a b,
     segments !! i = Some a -> segments !! S i = Some b ->
     exists x, isTrack a = Some x /\ isTrack b = Some (negb x))
  /\ (prevSegment (this w) = None ->
      forall a, segments !! 0%nat = Some a -> isTrack a = Some true)
  /\ (ready (this w) -> length segments = n).
Proof.
  intros Hty segments.
  destruct (talkshow_run now n w Hty) as (Hchain & _ & Hlen).
  fold segments in Hchain, Hlen.
  split; [| split; [| intros Hr; apply (Hlen Hr)]].
  - intros i a b. apply talkshowChain_alternates with (prev := prevSegment (this w)).
    exact Hchain.
  - intros Hprev a Ha. rewrite Hprev in Hchain.
    destruct segments as [|s rest]; [discriminate |].
    simpl in Ha. injection Ha as <-. destruct Hchain as [Hs _]. exact Hs.
Qed.

Lemma talkshow_isTrack_alternates_witness :
  flagOf <$> (nextSegments 6 Sample.now Sample.talkshow_plain).1
  = [Some true; Some false; Some true; Some false; Some true; Some false]
  /\ length (returned (nextSegments 6 Sample.now Sample.talkshow_plain).1) = 6%nat.
Proof.
  split; [vm_compute; reflexivity |].
  apply (talkshow_isTrack_alternates Sample.now 6 Sample.talkshow_plain eq_refl).
  apply sample_groups_ready; [discriminate |].
  repeat constructor; discriminate.
Defined.

(** C8: in a run of a dynamic station a returned segment with
    [isTrack = false] is followed by one with [isTrack = true]; the same
    holds of the first segment when the station's previous segment has
    [isTrack = false].  Every returned segment has the flag set, and on a
    ready station every call returns a segment. *)
Theorem dynamic_track_follows_transition (now : Z) (n : nat) (w : World) :
  type (this w) = dynamic ->
  let segments := returned (nextSegments n now w).1 in
  (forall i a b,
     segments !! i = Some a -> segments !! S i = Some b ->
     isTrack a = Some false -> isTrack b = Some true)
  /\ (forall prev b,
        prevSegment (this w) = Some prev -> isTrack prev = Some false ->
        segments !! 0%nat = Some b -> isTrack b = Some true)
  /\ (forall a, a ∈ segments -> is_Some (isTrack a))
  /\ (ready (this w) -> length segments = n).
Proof.
  intros Hty segments.
  destruct (dynamic_run now n w Hty) as (Hchain & _ & Hlen).
  fold segments in Hchain, Hlen.
  split; [| split; [| split; [| intros Hr; apply (Hlen Hr)]]].
  - intros i a b Ha Hb Hfalse.
    destruct (dynamicChain_spec segments _ (S i) b Hchain Hb) as [pct Hpct].
    rewrite Hpct, Ha. simpl. rewrite Hfalse. reflexivity.
  - intros prev b Hprev Hfalse Hb.
    destruct (dynamicChain_spec segments _ 0%nat b Hchain Hb) as [pct Hpct].
    rewrite Hpct, Hprev. simpl. rewrite Hfalse. reflexivity.
  - intros a Ha. apply list_elem_of_lookup in Ha as [i Ha].
    destruct (dynamicChain_spec segments _ i a Hchain Ha) as [pct Hpct].
    rewrite Hpct. eauto.
Qed.

Lemma dynamic_track_follows_transition_witness :
  flagOf <$> (nextSegments 9 Sample.now Sample.dynamic_voiced).1
  = [Some true; Some false; Some true; Some false; Some true; Some false;
     Some true; Some true; Some true]
  /\ length (returned (nextSegments 9 Sample.now Sample.dynamic_voiced).1) = 9%nat.
Proof.
  split; [vm_compute; reflexivity |].
  apply (dynamic_track_follows_transition Sample.now 9 Sample.dynamic_voiced eq_refl).
  apply sample_groups_ready; [discriminate |].
  repeat constructor; discriminate.
Defined.

Lemma dynamic_voiced_ready n :
  type (this (nextSegments n Sample.now Sample.dynamic_voiced).2) = dynamic
  /\ ready (this (nextSegments n Sample.now Sample.dynamic_voiced).2).
Proof.
  destruct (dynamic_run Sample.now n Sample.dynamic_voiced eq_refl)
    as (_ & Hty & Hr).
  split; [assumption |]. apply Hr.
  apply sample_groups_ready; [discriminate |].
  repeat constructor; discriminate.
Qed.

(** C1 as the claim states it fails: seven steps into a run of the sample
    station the previous segment is a track and the percentage is below 50,
    and the eighth step returns a track, not a transition. *)
Lemma percent_below_50_selects_transition_fails :
  ~ (forall now w prev segment,
       type (this w) = dynamic ->
       prevSegment (this w) = Some prev -> isTrack prev = Some true ->
       (nextSegment now w).1 = Normal segment ->
       (isTrack segment = Some false
        <-> PrimFloat.ltb
              (DynamicStation.percent (Prng.generate (PRNG w)).1) 50 = true)).
Proof.
  intros H.
  pose (w := (nextSegments 7 Sample.now Sample.dynamic_voiced).2).
  assert (Hflag : flagOf (nextSegment Sample.now w).1 = Some true)
    by (vm_compute; reflexivity).
  assert (Hprev : flagOf (from_option Normal (Throw TypeError) (prevSegment (this w)))
                  = Some true) by (vm_compute; reflexivity).
  assert (Hty : type (this w) = dynamic) by (vm_compute; reflexivity).
  assert (Hpct : PrimFloat.ltb
                   (DynamicStation.percent (Prng.generate (PRNG w)).1) 50 = true)
    by (vm_compute; reflexivity).
  clearbody w.
  destruct (prevSegment (this w)) as [prev |] eqn:Eprev; [| discriminate].
  destruct (nextSegment Sample.now w).1 as [segment | e] eqn:Eseg; [| discriminate].
  cbn [flagOf from_option] in Hflag, Hprev.
  pose proof (proj2 (H Sample.now w prev segment Hty Eprev Hprev Eseg) Hpct) as Hno.
  congruence.
Qed.


(** C1, amended: when the previous segment is a track, the step returns a
    track exactly when the percentage is below 50 and a transition
    otherwise; the track is a copy of a descriptor of the "track" group, the
    transition one of the group that the parity of the draw names.  On a
    ready station the step returns a segment. *)
Theorem percent_below_50_selects_track
    (now : Z) (w : World) (prev : SyncedSegment) :
  type (this w) = dynamic ->
  prevSegment (this w) = Some prev -> isTrack prev = Some true ->
  let randPercent := DynamicStation.percent (Prng.generate (PRNG w)).1 in
  (forall segment w',
     nextSegment now w = (Normal segment, w') ->
     isTrack segment = Some (PrimFloat.ltb randPercent 50)
     /\ (if PrimFloat.ltb randPercent 50 then selectsTrack w segment w'
         else selectsTransition w segment w'))
  /\ (ready (this w) -> exists segment, (nextSegment now w).1 = Normal segment).
Proof.
  intros Hty Hprev Hflag randPercent. unfold randPercent. clear randPercent.
  rewrite generate_value.
  pose proof (dynamic_step now w Hty) as Hstep. unfold post in Hstep.
  rewrite <- (nextSegment_dynamic now w Hty) in Hstep.
  rewrite Hprev in Hstep. cbn [DynamicStation.trackIsDue] in Hstep.
  rewrite Hflag in Hstep. cbn [default from_option id negb orb] in Hstep.
  destruct Hstep as (_ & _ & Hc & Hr). split.
  - intros segment w' Hcall. rewrite Hcall in Hc. cbn [fst snd] in Hc.
    destruct Hc as (Hf & _ & Hsel). exact (conj Hf Hsel).
  - intros Hready. exact (proj2 (Hr Hready)).
Qed.

Lemma percent_below_50_selects_track_witness :
  exists segment,
    (nextSegment Sample.now
       (nextSegments 7 Sample.now Sample.dynamic_voiced).2).1
    = Normal segment.
Proof.
  destruct (dynamic_voiced_ready 7) as [Hty Hready].
  set (w := (nextSegments 7 Sample.now Sample.dynamic_voiced).2) in *.
  assert (Hprev : flagOf (from_option Normal (Throw TypeError) (prevSegment (this w)))
                  = Some true) by (vm_compute; reflexivity).
  clearbody w.
  destruct (prevSegment (this w)) as [prev |] eqn:Eprev; [| discriminate].
  exact (proj2 (percent_below_50_selects_track Sample.now w prev Hty Eprev Hprev)
           Hready).
Defined.

(** * Voice-overs and the metadata *)

Lemma next_next_value p :
  (Prng.next (Prng.next p).2).1 = Prng.hash (seed p) (index p + 1).
Proof. reflexivity. Qed.

Lemma at_mod_lookup {A} (l : list A) (n : Z) (x : A) :
  0 <= n -> at_mod l n = Some x ->
  l !! Z.to_nat (n mod Z.of_nat (length l)) = Some x.
Proof.
  intros Hn. unfold at_mod, JS.rem.
  destruct (decide (length l = 0%nat)) as [H0 | H0]; [discriminate |].
  rewrite Z.rem_mod_nonneg by lia.
  destruct (Z.ltb_spec (n mod Z.of_nat (length l)) 0); [discriminate | auto].
Qed.

(** C2 as the claim states it fails: in the first step of the sample station
    the draw used for the track is even, so [raw % 2] names the first of the
    two voice-overs, and the segment carries the second. *)
Lemma voiceover_reuses_track_draw_fails :
  ~ (forall now w segment tracks i t vos,
       type (this w) = dynamic ->
       (nextSegment now w).1 = Normal segment ->
       isTrack segment = Some true ->
       fileGroups (meta (this w)) !! "track" = Some tracks ->
       tracks !! i = Some t ->
       path (info segment) = Station.getAbsolutePath (this w) (path t) ->
       voiceovers t = Some vos ->
       voiceOver (info segment)
       = (fun vo => withPath (Station.getAbsolutePath (this w) (vo_path vo)) vo)
           <$> at_mod vos (Prng.next (PRNG w)).1).
Proof.
  intros H.
  pose (w := Sample.dynamic_voiced).
  assert (Hty : type (this w) = dynamic) by (vm_compute; reflexivity).
  assert (Hflag : flagOf (nextSegment Sample.now w).1 = Some true)
    by (vm_compute; reflexivity).
  assert (Hpath : pathOf (nextSegment Sample.now w).1
                  = Some (Station.getAbsolutePath (this w) (path Sample.song_a)))
    by (vm_compute; reflexivity).
  assert (Hvo : voiceOverOf (nextSegment Sample.now w).1
                = Some (mkVoiceOver "data/radio_01/intro_b.ogg" 5))
    by (vm_compute; reflexivity).
  assert (Hgroup : fileGroups (meta (this w)) !! "track"
                   = Some [Sample.song_a; Sample.song_b])
    by (vm_compute; reflexivity).
  assert (Hclaim :
    (fun vo => withPath (Station.getAbsolutePath (this w) (vo_path vo)) vo)
      <$> at_mod [Sample.intro_a; Sample.intro_b] (Prng.next (PRNG w)).1
    = Some (mkVoiceOver "data/radio_01/intro_a.ogg" 4))
    by (vm_compute; reflexivity).
  clearbody w.
  destruct (nextSegment Sample.now w).1 as [segment | e] eqn:Hcall;
    [| discriminate].
  cbn [flagOf pathOf voiceOverOf] in Hflag, Hpath, Hvo.
  injection Hpath as Hpath.
  pose proof (H Sample.now w segment [Sample.song_a; Sample.song_b] 0%nat
                Sample.song_a [Sample.intro_a; Sample.intro_b]
                Hty Hcall Hflag Hgroup eq_refl Hpath eq_refl) as Hno.
  rewrite Hclaim, Hvo in Hno. discriminate.
Qed.

(** C2, amended: a step of a dynamic station that returns a track whose
    descriptor declares voice-overs makes a second draw from the generator
    and attaches the voice-over at position [fresh % voiceovers.length],
    [fresh] being that second value and not the one used to select the
    track; the step advances the generator by two.  A track without
    voice-overs keeps its [voiceOver] and the step advances the generator by
    one. *)
Theorem voiceover_drawn_afresh
    (now : Z) (w w' : World) (segment : SyncedSegment) :
  type (this w) = dynamic ->
  nextSegment now w = (Normal segment, w') ->
  isTrack segment = Some true ->
  let fresh := (Prng.next (Prng.next (PRNG w)).2).1 in
  exists tracks i t,
    fileGroups (meta (this w)) !! "track" = Some tracks
    /\ tracks !! i = Some t
    /\ path (info segment) = Station.getAbsolutePath (this w) (path t)
    /\ match voiceovers t with
       | Some vos =>
           exists vo,
             vos !! Z.to_nat (fresh mod Z.of_nat (length vos)) = Some vo
             /\ voiceOver (info segment)
                = Some (withPath (Station.getAbsolutePath (this w) (vo_path vo)) vo)
             /\ index (PRNG w') = index (PRNG w) + 2
       | None =>
           voiceOver (info segment) = voiceOver t
           /\ index (PRNG w') = index (PRNG w) + 1
       end.
Proof.
  intros Hty Hcall Hflag fresh. unfold fresh. clear fresh.
  rewrite next_next_value.
  pose proof (dynamic_step now w Hty) as Hstep. unfold post in Hstep.
  rewrite <- (nextSegment_dynamic now w Hty), Hcall in Hstep.
  cbn [fst snd] in Hstep. destruct Hstep as (_ & _ & (Hf & _ & Hsel) & _).
  rewrite Hflag in Hf. injection Hf as Hdue. rewrite <- Hdue in Hsel.
  destruct Hsel as (tracks & i & t & Hl & Ht & Hp & Hvo).
  exists tracks, i, t. split; [exact Hl |]. split; [exact Ht |].
  split; [exact Hp |].
  destruct (voiceovers t) as [vos |]; [| exact Hvo].
  destruct Hvo as (vo & Hat & Hv & Hi). exists vo.
  split; [| exact (conj Hv Hi)].
  apply at_mod_lookup; [apply hash_range | exact Hat].
Qed.

Lemma voiceover_drawn_afresh_witness :
  exists segment w',
    nextSegment Sample.now Sample.dynamic_voiced = (Normal segment, w')
    /\ exists tracks i t,
         fileGroups (meta (this Sample.dynamic_voiced)) !! "track" = Some tracks
         /\ tracks !! i = Some t
         /\ path (info segment)
            = Station.getAbsolutePath (this Sample.dynamic_voiced) (path t)
         /\ match voiceovers t with
            | Some vos =>
                exists vo,
                  vos !! Z.to_nat
                           ((Prng.next (Prng.next (PRNG Sample.dynamic_voiced)).2).1
                            mod Z.of_nat (length vos)) = Some vo
                  /\ voiceOver (info segment)
                     = Some (withPath
                               (Station.getAbsolutePath (this Sample.dynamic_voiced)
                                  (vo_path vo)) vo)
                  /\ index (PRNG w') = index (PRNG Sample.dynamic_voiced) + 2
            | None =>
                voiceOver (info segment) = voiceOver t
                /\ index (PRNG w') = index (PRNG Sample.dynamic_voiced) + 1
            end.
Proof.
  assert (Hflag : flagOf (nextSegment Sample.now Sample.dynamic_voiced).1
                  = Some true) by (vm_compute; reflexivity).
  destruct (nextSegment Sample.now Sample.dynamic_voiced) as [c w'] eqn:Hcall.
  destruct c as [segment | e]; [| discriminate].
  exists segment, w'. split; [reflexivity |].
  exact (voiceover_drawn_afresh Sample.now Sample.dynamic_voiced w' segment
           eq_refl Hcall Hflag).
Defined.

(** C9: evaluating one step of the sample dynamic station shows the write to
    the metadata: the descriptor of the selected track, which had no
    [voiceOver], holds the resolved voice-over afterwards. *)
Lemma getRandomTrack_writes_metadata :
  let w := Sample.dynamic_voiced in
  let w' := (nextSegment Sample.now w).2 in
  fileGroups (meta (this w)) !! "track" = Some [Sample.song_a; Sample.song_b]
  /\ voiceOver Sample.song_a = None
  /\ fileGroups (meta (this w')) !! "track"
     = Some [set_voiceOver (mkVoiceOver "data/radio_01/intro_b.ogg" 5)
               Sample.song_a;
             Sample.song_b]
  /\ meta (this w') <> meta (this w).
Proof.
  cbv zeta. split; [vm_compute; reflexivity |]. split; [reflexivity |].
  split; [vm_compute; reflexivity |].
  intros Heq. apply (f_equal (fun m => fileGroups m !! "track")) in Heq.
  vm_compute in Heq. discriminate.
Qed.

(** C3: evaluating [getSyncedSegment()] twice at one clock reading.  The
    pools that the first call filled are still there when the second call
    starts, and the second call returns another segment, for the dynamic and
    for the talkshow station; the static station, which has no pools,
    returns the same segment. *)
Lemma getSyncedSegment_twice_differs :
  let first := getSyncedSegment 10 Sample.now Sample.dynamic_plain in
  let between := stateAfter first Sample.dynamic_plain in
  let second := getSyncedSegment 10 Sample.now between in
  let first' := getSyncedSegment 10 Sample.later Sample.talkshow_plain in
  let between' := stateAfter first' Sample.talkshow_plain in
  let second' := getSyncedSegment 10 Sample.later between' in
  let first'' := getSyncedSegment 10 Sample.later Sample.static_plain in
  let second'' :=
    getSyncedSegment 10 Sample.later (stateAfter first'' Sample.static_plain) in
  (syncedPath first = Some "data/radio_02/song_c.ogg"
   /\ indexDrawPools (this between) !! "track" = Some (mkPool [1%nat] [0%nat] 1)
   /\ syncedPath second = Some "data/radio_02/song_b.ogg")
  /\ (syncedPath first' = Some "data/radio_03/id_b.ogg"
      /\ indexDrawPools (this between') !! "id"
         = Some (mkPool [0%nat; 2%nat] [1%nat] 2)
      /\ syncedPath second' = Some "data/radio_03/id_a.ogg")
  /\ (syncedPath first'' = Some "data/radio_04/song_b.ogg"
      /\ syncedPath second'' = Some "data/radio_04/song_b.ogg").
Proof. vm_compute. repeat split; reflexivity. Qed.

(** * The draw pool, draw by draw *)

Section PoolExtras.

Implicit Types (p : IndexDrawPool) (r w : Z) (n : nat).

(** The position removed by [splice] is the one that the mathematical
    (floored) modulo names, also for a negative random integer. *)
Lemma spliceStart_floor (len : nat) r :
  (0 < len)%nat ->
  Pool.spliceStart len (JS.rem r (Z.of_nat len))
  = Z.to_nat (r mod Z.of_nat len).
Proof.
  intros Hlen. unfold Pool.spliceStart, JS.rem.
  pose proof (Z.rem_bound_abs r (Z.of_nat len)) as Hb.
  pose proof (Z.quot_rem' r (Z.of_nat len)) as Hq.
  f_equal.
  destruct (Z.ltb_spec (Z.rem r (Z.of_nat len)) 0) as [Hneg | Hpos].
  - rewrite Z.max_l by lia.
    apply (Z.mod_unique_pos r (Z.of_nat len) (r ÷ Z.of_nat len - 1)); lia.
  - rewrite Z.min_l by lia.
    apply (Z.mod_unique_pos r (Z.of_nat len) (r ÷ Z.of_nat len)); lia.
Qed.

Lemma next_selected r p :
  draw p <> [] ->
  exists x,
    draw p !! Z.to_nat (r mod Z.of_nat (length (draw p))) = Some x
    /\ Pool.next r p
       = (Some x, afterDraw p (Z.to_nat (r mod Z.of_nat (length (draw p)))) x).
Proof.
  intros Hne. unfold Pool.next.
  destruct (decide (length (draw p) = 0%nat)) as [H0 | H0].
  { destruct (draw p); [congruence | discriminate]. }
  rewrite spliceStart_floor by lia.
  set (i := Z.to_nat _).
  assert (Hi : (i < length (draw p))%nat).
  { unfold i. pose proof (Z.mod_pos_bound r (Z.of_nat (length (draw p)))). lia. }
  destruct (lookup_lt_is_Some_2 _ _ Hi) as [x Hx]. rewrite Hx.
  exists x. split; [reflexivity |]. unfold afterDraw.
  destruct (discard p ++ [x]) as [|h t] eqn:Hd.
  { destruct (discard p); discriminate. }
  destruct (dontRepeatFor p <? _); reflexivity.
Qed.


Lemma draws_app rs1 rs2 p :
  Pool.draws (rs1 ++ rs2) p
  = ((Pool.draws rs1 p).1 ++ (Pool.draws rs2 (Pool.draws rs1 p).2).1,
     (Pool.draws rs2 (Pool.draws rs1 p).2).2).
Proof.
  revert p. induction rs1 as [|r rs1 IH]; intros p.
  - simpl. destruct (Pool.draws rs2 p); reflexivity.
  - cbn [app]. rewrite !draws_cons, IH. reflexivity.
Qed.

(** With a window at least as long as the source nothing leaves the queue. *)
Lemma draws_hoarding n rs : forall p,
  covers n p -> Z.of_nat n <= dontRepeatFor p ->
  (length rs <= length (draw p))%nat ->
  exists picks,
    (Pool.draws rs p).1 = Some <$> picks
    /\ length picks = length rs
    /\ discard (Pool.draws rs p).2 = discard p ++ picks
    /\ covers n (Pool.draws rs p).2
    /\ dontRepeatFor (Pool.draws rs p).2 = dontRepeatFor p
    /\ length (draw (Pool.draws rs p).2) = (length (draw p) - length rs)%nat.
Proof.
  induction rs as [|r rs IH]; intros p Hc Hw Hlen.
  - exists []. simpl. rewrite app_nil_r. repeat split; auto. lia.
  - simpl in Hlen.
    destruct (next_nonempty r p) as (i & x & Hx & Hn).
    { intros Hd. rewrite Hd in Hlen. simpl in Hlen. lia. }
    pose proof (covers_next n r p Hc) as Hc1. rewrite Hn in Hc1. simpl in Hc1.
    assert (Hall : length (draw p ++ discard p) = n).
    { unfold covers in Hc. rewrite Hc. apply length_seq. }
    rewrite length_app in Hall.
    assert (Hafter : afterDraw p i x
                     = mkPool (delete i (draw p)) (discard p ++ [x]) (dontRepeatFor p)).
    { unfold afterDraw. rewrite length_app. simpl.
      destruct (Z.ltb_spec (dontRepeatFor p) (Z.of_nat (length (discard p) + 1)));
        [| reflexivity].
      apply lookup_lt_Some in Hx. lia. }
    rewrite Hafter in *.
    destruct (IH _ Hc1) as (picks & Ho & Hl & Hd & Hc2 & Hw2 & Hdr).
    { simpl. assumption. }
    { simpl. rewrite length_delete by eauto. lia. }
    rewrite draws_cons, Hn. cbn [fst snd]. exists (x :: picks).
    rewrite Ho, Hd, Hw2, Hdr. simpl. rewrite <- app_assoc.
    repeat split; auto.
    + rewrite length_delete by eauto. lia.
Qed.

End PoolExtras.

(** X1: whatever integer is passed, [next] removes the element of [draw] at
    the position given by the floored modulo of the integer by the length of
    [draw]; a negative remainder of [%] makes [splice] count from the end,
    which is the same position.  The element goes to the end of [discard],
    and when the queue is then longer than the window its oldest entry goes
    to the end of [draw]. *)
Theorem draw_pool_next_selects_by_floor_mod (r : Z) (p : IndexDrawPool) :
  draw p <> [] ->
  let i := Z.to_nat (r mod Z.of_nat (length (draw p))) in
  let p' := (Pool.next r p).2 in
  exists x,
    draw p !! i = Some x
    /\ (Pool.next r p).1 = Some x
    /\ dontRepeatFor p' = dontRepeatFor p
    /\ if dontRepeatFor p <? Z.of_nat (length (discard p) + 1)
       then draw p' = delete i (draw p) ++ take 1 (discard p ++ [x])
            /\ discard p' = drop 1 (discard p ++ [x])
       else draw p' = delete i (draw p) /\ discard p' = discard p ++ [x].
Proof.
  intros Hne i p'. destruct (next_selected r p Hne) as (x & Hx & Hn).
  fold i in Hx, Hn. exists x. unfold p'. rewrite Hn. cbn [fst snd].
  split; [exact Hx |]. split; [reflexivity |].
  split; [apply afterDraw_dontRepeatFor |].
  unfold afterDraw. rewrite length_app. cbn [length].
  destruct (dontRepeatFor p <? _); auto.
Qed.

Lemma draw_pool_next_selects_by_floor_mod_witness :
  (Pool.next (-7) (mkPool [4; 0; 2]%nat [1; 3]%nat 2)).1 = Some 2%nat
  /\ draw (Pool.next (-7) (mkPool [4; 0; 2]%nat [1; 3]%nat 2)).2 = [4; 0; 1]%nat
  /\ discard (Pool.next (-7) (mkPool [4; 0; 2]%nat [1; 3]%nat 2)).2 = [3; 2]%nat.
Proof.
  destruct (draw_pool_next_selects_by_floor_mod (-7)
              (mkPool [4; 0; 2]%nat [1; 3]%nat 2) ltac:(discriminate))
    as (x & Hx & Hn & _ & Hd).
  vm_compute in Hx. injection Hx as <-.
  split; [exact Hn |]. exact Hd.
Defined.

(** X2: in a pool created over [n > 0] positions with a window [w < n], the
    queue [discard] holds the last [w] indexes drawn, oldest first (all of
    them while fewer than [w] were drawn), [draw] holds the other positions:
    together the two lists hold each of [0 .. n-1] once.  The next draw
    returns an index of [draw], so none that the queue still holds. *)
Theorem draw_pool_queue_holds_recent_picks (n : nat) (w : Z) (rs : list Z) :
  (0 < n)%nat -> w < Z.of_nat n ->
  let p' := (Pool.draws rs (Pool.new n w)).2 in
  exists picks,
    (Pool.draws rs (Pool.new n w)).1 = Some <$> picks
    /\ discard p' = drop (length picks - Z.to_nat w) picks
    /\ draw p' ++ discard p' ≡ₚ seq 0 n
    /\ length (draw p') = (n - length (discard p'))%nat
    /\ forall r x, (Pool.next r p').1 = Some x -> x ∈ draw p' /\ x ∉ discard p'.
Proof.
  intros Hn Hw p'.
  destruct (draws_steady n rs [] (Pool.new n w))
    as (picks & Ho & _ & _ & Hc & Hr & _ & Hwin).
  - apply covers_new.
  - apply remembers_new.
  - apply spaced_nil.
  - unfold window. simpl. lia.
  - fold p' in Hc, Hr, Hwin. exists picks. split; [exact Ho |].
    unfold remembers in Hr. rewrite Hwin in Hr. simpl in Hr.
    split; [exact Hr |]. split; [exact Hc |]. split.
    + pose proof (Permutation_length Hc) as Hlen.
      rewrite length_app, length_seq in Hlen. lia.
    + intros r x Hx.
      assert (Hne : draw p' <> []).
      { intros Hd. rewrite next_empty in Hx by assumption. discriminate. }
      destruct (next_nonempty r p' Hne) as (i & y & Hy & Hnext).
      rewrite Hnext in Hx. injection Hx as ->.
      assert (Hin : x ∈ draw p') by (eapply list_elem_of_lookup_2; eassumption).
      split; [assumption |].
      apply covers_NoDup in Hc. apply NoDup_app in Hc as (_ & Hdisj & _). auto.
Qed.

Lemma draw_pool_queue_holds_recent_picks_witness :
  exists picks,
    (Pool.draws [5; 7; 100; 3] (Pool.new 4 2)).1 = Some <$> picks
    /\ discard (Pool.draws [5; 7; 100; 3] (Pool.new 4 2)).2
       = drop (length picks - Z.to_nat 2) picks
    /\ draw (Pool.draws [5; 7; 100; 3] (Pool.new 4 2)).2
       ++ discard (Pool.draws [5; 7; 100; 3] (Pool.new 4 2)).2 ≡ₚ seq 0 4
    /\ length (draw (Pool.draws [5; 7; 100; 3] (Pool.new 4 2)).2)
       = (4 - length (discard (Pool.draws [5; 7; 100; 3]%Z (Pool.new 4 2)).2))%nat
    /\ forall r x,
         (Pool.next r (Pool.draws [5; 7; 100; 3] (Pool.new 4 2)).2).1 = Some x ->
         x ∈ draw (Pool.draws [5; 7; 100; 3] (Pool.new 4 2)).2
         /\ x ∉ discard (Pool.draws [5; 7; 100; 3] (Pool.new 4 2)).2.
Proof.
  apply (draw_pool_queue_holds_recent_picks 4 2 [5; 7; 100; 3]); lia.
Defined.

(** X3: a pool constructed with a window not shorter than its source (which
    the manager's clamp excludes) runs dry: the first [n] draws return the
    [n] positions, each once, nothing returns from the queue, and every later
    draw returns [null] and changes nothing. *)
Theorem draw_pool_runs_dry_with_long_window
    (n : nat) (w : Z) (rs1 rs2 : list Z) :
  Z.of_nat n <= w -> length rs1 = n ->
  exists picks,
    Pool.draws (rs1 ++ rs2) (Pool.new n w)
    = ((Some <$> picks) ++ replicate (length rs2) None, mkPool [] picks w)
    /\ picks ≡ₚ seq 0 n.
Proof.
  intros Hw Hlen.
  destruct (draws_hoarding n rs1 (Pool.new n w))
    as (picks & Ho & Hl & Hd & Hc & Hw' & Hdr).
  - apply covers_new.
  - exact Hw.
  - simpl. rewrite length_seq. lia.
  - simpl in Hd, Hw', Hdr. rewrite length_seq, Hlen, Nat.sub_diag in Hdr.
    apply nil_length_inv in Hdr.
    assert (Hp : (Pool.draws rs1 (Pool.new n w)).2 = mkPool [] picks w).
    { destruct (Pool.draws rs1 (Pool.new n w)).2 as [dr di dw].
      simpl in *. congruence. }
    exists picks. split.
    + rewrite draws_app, Ho, Hp. rewrite draws_empty by reflexivity. reflexivity.
    + unfold covers in Hc. rewrite Hp in Hc. exact Hc.
Qed.

Lemma draw_pool_runs_dry_with_long_window_witness :
  exists picks,
    Pool.draws ([5; 7; 100] ++ [3; 3]) (Pool.new 3 8)
    = ((Some <$> picks) ++ replicate 2 None, mkPool [] picks 8)
    /\ picks ≡ₚ seq 0 3.
Proof.
  apply (draw_pool_runs_dry_with_long_window 3 8 [5; 7; 100] [3; 3]);
    [lia | reflexivity].
Defined.

Lemma NoDup_bounded_full (n : nat) (l : list nat) :
  NoDup l -> Forall (fun x => x < n)%nat l -> length l = n -> l ≡ₚ seq 0 n.
Proof.
  intros Hnd Hb Hlen. apply submseteq_length_Permutation.
  - apply NoDup_submseteq; [assumption |]. intros x Hx.
    rewrite Forall_forall in Hb. apply elem_of_seq. specialize (Hb x Hx). lia.
  - rewrite length_seq. lia.
Qed.

(** X4: when the window is the source size less one, which is what the
    manager's clamp gives every group of at most nine entries under the
    default window of 8, any [n] consecutive draws return the [n] positions,
    each once, and so each draw returns what the draw [n] calls earlier
    returned: from the first round on the order is a fixed cycle, whatever
    the random integers. *)
Theorem draw_pool_cycles_when_window_is_full (n : nat) (d : Z) (rs : list Z) :
  n <> 0%nat -> Z.of_nat n - 1 <= d ->
  exists picks,
    (Pool.draws rs (Pool.new n (Z.min d (Z.of_nat n - 1)))).1 = Some <$> picks
    /\ length picks = length rs
    /\ (forall k, (k + n <= length picks)%nat ->
          take n (drop k picks) ≡ₚ seq 0 n)
    /\ (forall k x y,
          picks !! k = Some x -> picks !! (k + n)%nat = Some y -> x = y).
Proof.
  intros Hn Hd.
  destruct (draws_steady n rs [] (Pool.new n (Z.min d (Z.of_nat n - 1))))
    as (picks & Ho & Hl & Hb & _ & _ & Hs & _).
  - apply covers_new.
  - apply remembers_new.
  - apply spaced_nil.
  - unfold window. simpl. lia.
  - simpl in Hs.
    assert (Hwin : window (Pool.new n (Z.min d (Z.of_nat n - 1))) = (n - 1)%nat).
    { unfold window. simpl. lia. }
    rewrite Hwin in Hs.
    assert (Hperm : forall k, (k + n <= length picks)%nat ->
              take n (drop k picks) ≡ₚ seq 0 n).
    { intros k Hk. apply NoDup_bounded_full.
      - apply (spaced_window (n - 1)); [assumption | lia].
      - rewrite Forall_forall in *. intros x Hx.
        apply Hb. apply elem_of_take in Hx as (i & Hi & _).
        rewrite lookup_drop in Hi. eapply list_elem_of_lookup_2. eassumption.
      - rewrite length_take, length_drop. lia. }
    exists picks. split; [exact Ho |]. split; [exact Hl |].
    split; [exact Hperm |].
    intros k x y Hx Hy.
    pose proof (lookup_lt_Some _ _ _ Hy) as Hlen.
    pose proof (Hperm k ltac:(lia)) as HA.
    pose proof (Hperm (S k) ltac:(lia)) as HB.
    destruct n as [|m]; [congruence |].
    rewrite (drop_S picks x k Hx) in HA. cbn [take] in HA.
    assert (Hlast : drop (S k) picks !! m = Some y).
    { rewrite lookup_drop. rewrite <- Hy. f_equal. lia. }
    rewrite (take_S_r _ _ _ Hlast) in HB.
    assert (Hnd : NoDup (x :: take m (drop (S k) picks))).
    { rewrite HA. apply NoDup_seq. }
    apply NoDup_cons in Hnd as [Hnotin _].
    assert (Hin : x ∈ take m (drop (S k) picks) ++ [y]).
    { rewrite HB, <- HA. apply elem_of_cons. auto. }
    apply elem_of_app in Hin as [Hin | Hin]; [contradiction |].
    apply list_elem_of_singleton in Hin. exact Hin.
Qed.

Lemma draw_pool_cycles_when_window_is_full_witness :
  exists picks,
    (Pool.draws [5; 7; 100; 3; 12; 9; 1; 0]
       (Pool.new 3 (Z.min 8 (Z.of_nat 3 - 1)))).1 = Some <$> picks
    /\ length picks = 8%nat
    /\ (forall k, (k + 3 <= length picks)%nat ->
          take 3 (drop k picks) ≡ₚ seq 0 3)
    /\ (forall k x y,
          picks !! k = Some x -> picks !! (k + 3)%nat = Some y -> x = y).
Proof.
  apply (draw_pool_cycles_when_window_is_full 3 8
           [5; 7; 100; 3; 12; 9; 1; 0]); [discriminate | lia].
Defined.

(** * Loading the station list, and icons *)

(** X5: on a failed local request [loadRadioMeta] fulfils only through the
    assignment [lastUsedPath = dataURL]: where no [dataURL] is bound the
    promise fulfils exactly when the local response is ok and its body
    parses, with that body, whatever the remote request does, and
    [lastUsedPath] keeps its value.  A good local response is returned
    without a change of [lastUsedPath] in any case. *)
Theorem loadRadioMeta_remote_never_fulfils {J : Type}
    (local remote : Constants.Settled (Constants.Response J))
    (lastUsedPath : string) (dataURL : option string) (value : J) :
  dataURL = None ->
  ((Constants.loadRadioMeta dataURL local remote lastUsedPath).1
   = Constants.Fulfilled value
   <-> exists r, local = Constants.Fulfilled r /\ Constants.ok r = true
                 /\ Constants.json r = Constants.Fulfilled value)
  /\ (Constants.loadRadioMeta dataURL local remote lastUsedPath).2 = lastUsedPath.
Proof.
  intros ->.
  assert (Hremote : Constants.loadRemote (J := J) None remote lastUsedPath
                    = (Constants.Rejected, lastUsedPath)).
  { unfold Constants.loadRemote. destruct remote as [[rok rjson] |];
      [destruct rok |]; reflexivity. }
  unfold Constants.loadRadioMeta.
  destruct local as [[lok ljson] |]; cbn [Constants.ok Constants.json].
  - destruct lok; cbn [negb].
    + destruct ljson as [v |].
      * cbn [fst snd]. split; [| reflexivity]. split.
        -- intros [= ->]. eexists. repeat split; reflexivity.
        -- intros (r & [= <-] & _ & Hj). cbn in Hj. congruence.
      * rewrite Hremote. cbn [fst snd]. split; [| reflexivity]. split.
        -- discriminate.
        -- intros (r & [= <-] & _ & Hj). cbn in Hj. discriminate.
    + rewrite Hremote. cbn [fst snd]. split; [| reflexivity]. split.
      * discriminate.
      * intros (r & [= <-] & Hok & _). cbn in Hok. discriminate.
  - rewrite Hremote. cbn [fst snd]. split; [| reflexivity]. split.
    + discriminate.
    + intros (r & Hr & _). discriminate.
Qed.

Lemma loadRadioMeta_remote_never_fulfils_witness :
  (Constants.loadRadioMeta None Constants.Rejected
     (Constants.Fulfilled (Constants.mkResponse true (Constants.Fulfilled 7%nat)))
     localDataPath).2 = localDataPath.
Proof.
  exact (proj2 (loadRadioMeta_remote_never_fulfils Constants.Rejected
                  (Constants.Fulfilled
                     (Constants.mkResponse true (Constants.Fulfilled 7%nat)))
                  localDataPath None 0%nat eq_refl)).
Defined.

(** X6: [getPrefferedIcon(type)] returns the icon of [type] when there is
    one, and otherwise the icon of a single alternative, whether that one
    exists or not: "color", or "monochrome" when [type] is "color".  The loop
    returns in its first or second round, so the "full" icon is returned
    only when it is the one asked for, and the result can be [undefined]
    while another icon exists. *)
Theorem getPrefferedIcon_tries_one_alternative (o : Icons.t) (type : string) :
  Icons.getPrefferedIcon o type
  = match Icons.getIcon o type with
    | Some icon => Some icon
    | None =>
        Icons.getIcon o (if String.eqb type "color" then "monochrome" else "color")
    end.
Proof.
  unfold Icons.getPrefferedIcon.
  destruct (Icons.getIcon o type) as [icon |]; [reflexivity |].
  unfold Icons.priority. cbn [Icons.fallback].
  rewrite (String.eqb_sym "color" type).
  destruct (String.eqb type "color") eqn:Hc; cbn [negb]; [| reflexivity].
  apply String.eqb_eq in Hc. subst type. reflexivity.
Qed.

(** * Rotation, timing and the loop of getSyncedSegment *)

Lemma at_mod_nat {A} (l : list A) (i : nat) :
  at_mod l (Z.of_nat i) = l !! (i mod length l)%nat.
Proof.
  unfold at_mod, JS.rem.
  destruct (decide (length l = 0%nat)) as [H0 | H0].
  { destruct l; [reflexivity | discriminate]. }
  rewrite Z.rem_mod_nonneg by lia.
  pose proof (Z.mod_pos_bound (Z.of_nat i) (Z.of_nat (length l)) ltac:(lia)).
  destruct (Z.ltb_spec (Z.of_nat i mod Z.of_nat (length l)) 0); [lia |].
  f_equal. rewrite <- Nat2Z.inj_mod. apply Nat2Z.id.
Qed.

Lemma static_step_detail now w :
  post (StaticStation.nextSegment now) w (fun c w' =>
    match fileGroups (meta (this w)) !! "track" with
    | None => c = Throw TypeError /\ w' = w
    | Some l =>
        match l !! (segmentIndex (this w) mod length l)%nat with
        | None => c = Throw TypeError /\ w' = w
        | Some t =>
            c = Normal
                  (mkSyncedSegment
                     (withPath (Station.getAbsolutePath (this w) (path t)) t)
                     (Station.timeAt (Station.startTimestamp now)
                        (accumulatedTime (this w)))
                     None)
            /\ w' = mkWorld (PRNG w)
                      (set_accumulatedTime
                         (PrimFloat.add (accumulatedTime (this w))
                            (orElse (audibleDuration t) (duration t)))
                         (set_segmentIndex (S (segmentIndex (this w))) (this w)))
        end
    end).
Proof.
  destruct w as [prng s]. unfold StaticStation.nextSegment.
  apply post_bind, post_fileGroup. cbn [this PRNG].
  destruct (fileGroups (meta s) !! "track") as [l |]; [| auto].
  apply post_bind, post_read, post_bind, post_read, post_bind,
    post_newSyncedSegment.
  cbn [this PRNG]. rewrite at_mod_nat.
  destruct (l !! (segmentIndex s mod length l)%nat) as [t |]; [| auto].
  apply post_bind, post_update, post_bind, post_advance, post_ret.
  cbn. auto.
Qed.

Lemma nextSegment_static now w :
  type (this w) = static -> nextSegment now w = StaticStation.nextSegment now w.
Proof. intros H. unfold nextSegment. rewrite H. reflexivity. Qed.

Lemma lookup_mod_nonempty {A} (l : list A) (i : nat) :
  l <> [] -> is_Some (l !! (i mod length l)%nat).
Proof.
  intros Hne. apply lookup_lt_is_Some_2.
  apply Nat.mod_upper_bound. destruct l; [congruence | discriminate].
Qed.

(** X7: a static station plays its track list in order, again and again:
    the [k]-th call of [nextSegment()] from a state with counter
    [segmentIndex] returns a copy of the entry at position
    [(segmentIndex + k) mod length], with its path made absolute and no
    [isTrack] flag.  With a non-empty track list every call returns, the
    counter advances by one per call, and neither the metadata nor the
    shared number source is touched. *)
Theorem static_station_plays_tracks_in_order now n : forall w tracks,
  type (this w) = static ->
  fileGroups (meta (this w)) !! "track" = Some tracks -> tracks <> [] ->
  exists segments,
    (nextSegments n now w).1 = Normal <$> segments
    /\ length segments = n
    /\ (forall k segment,
          segments !! k = Some segment ->
          exists t,
            tracks !! ((segmentIndex (this w) + k) mod length tracks)%nat = Some t
            /\ info segment
               = withPath (Station.getAbsolutePath (this w) (path t)) t
            /\ isTrack segment = None)
    /\ segmentIndex (this (nextSegments n now w).2) = (segmentIndex (this w) + n)%nat
    /\ meta (this (nextSegments n now w).2) = meta (this w)
    /\ PRNG (nextSegments n now w).2 = PRNG w.
Proof.
  induction n as [|n IH]; intros w tracks Hty Hl Hne.
  - exists []. simpl. repeat split; auto.
    intros k segment Hk. rewrite lookup_nil in Hk. discriminate.
  - rewrite nextSegments_S. cbn [fst snd].
    pose proof (static_step_detail now w) as Hstep. unfold post in Hstep.
    rewrite <- (nextSegment_static now w Hty), Hl in Hstep.
    destruct (lookup_mod_nonempty tracks (segmentIndex (this w)) Hne) as [t Ht].
    rewrite Ht in Hstep. destruct Hstep as [Hc Hw].
    destruct (IH (nextSegment now w).2 tracks) as (segments & Ho & Hlen & Hk & Hi & Hm & Hp).
    { rewrite Hw. exact Hty. }
    { rewrite Hw. exact Hl. }
    { exact Hne. }
    exists (mkSyncedSegment
              (withPath (Station.getAbsolutePath (this w) (path t)) t)
              (Station.timeAt (Station.startTimestamp now) (accumulatedTime (this w)))
              None :: segments).
    rewrite Hc, Ho, Hi, Hm, Hp. rewrite Hw. cbn [fmap list_fmap length].
    split; [reflexivity |]. split; [congruence |].
    split; [| cbn; repeat split; lia].
    intros k segment Hseg. destruct k as [|k].
    + simpl in Hseg. injection Hseg as <-. exists t.
      rewrite Nat.add_0_r. auto.
    + simpl in Hseg. destruct (Hk k segment Hseg) as (t' & Ht' & Hinfo & Hflag).
      exists t'. rewrite Hw in Ht', Hinfo. cbn in Ht', Hinfo.
      replace (segmentIndex (this w) + S k)%nat
        with (S (segmentIndex (this w)) + k)%nat by lia.
      auto.
Qed.

Lemma static_station_plays_tracks_in_order_witness :
  pathOf <$> (nextSegments 3 Sample.now Sample.static_plain).1
  = [Some "data/radio_04/song_c.ogg"; Some "data/radio_04/song_b.ogg";
     Some "data/radio_04/song_c.ogg"]
  /\ exists segments,
       (nextSegments 3 Sample.now Sample.static_plain).1 = Normal <$> segments
       /\ length segments = 3%nat
       /\ (forall k segment,
             segments !! k = Some segment ->
             exists t,
               [Sample.song_c; Sample.song_b]
                 !! ((segmentIndex (this Sample.static_plain) + k)
                     mod length [Sample.song_c; Sample.song_b])%nat = Some t
               /\ info segment
                  = withPath
                      (Station.getAbsolutePath (this Sample.static_plain) (path t))
                      t
               /\ isTrack segment = None)
       /\ segmentIndex (this (nextSegments 3 Sample.now Sample.static_plain).2)
          = (segmentIndex (this Sample.static_plain) + 3)%nat
       /\ meta (this (nextSegments 3 Sample.now Sample.static_plain).2)
          = meta (this Sample.static_plain)
       /\ PRNG (nextSegments 3 Sample.now Sample.static_plain).2
          = PRNG Sample.static_plain.
Proof.
  split; [vm_compute; reflexivity |].
  apply (static_station_plays_tracks_in_order Sample.now 3 Sample.static_plain
           [Sample.song_c; Sample.song_b]);
    [reflexivity | reflexivity | discriminate].
Defined.

(** What one step of a talkshow station returns and leaves behind. *)
Lemma talkshow_step_detail now w :
  post (TalkshowStation.nextSegment now) w (fun c w' =>
    station_path (this w') = station_path (this w)
    /\ match c with
       | Normal segment =>
           startTimestamp segment
           = Station.timeAt (Station.startTimestamp now) (accumulatedTime (this w))
           /\ accumulatedTime (this w')
              = PrimFloat.add (accumulatedTime (this w))
                  (orElse (audibleDuration (info segment))
                     (duration (info segment)))
           /\ if TalkshowStation.trackIsDue (prevSegment (this w))
              then exists l t,
                     fileGroups (meta (this w)) !! "track" = Some l
                     /\ l !! (segmentIndex (this w) mod length l)%nat = Some t
                     /\ info segment
                        = withPath (Station.getAbsolutePath (this w) (path t)) t
                     /\ segmentIndex (this w') = S (segmentIndex (this w))
                     /\ PRNG w' = PRNG w
                     /\ indexDrawPools (this w') = indexDrawPools (this w)
              else exists l t,
                     fileGroups (meta (this w)) !! "id" = Some l
                     /\ t ∈ l
                     /\ info segment
                        = withPath (Station.getAbsolutePath (this w) (path t)) t
                     /\ segmentIndex (this w') = segmentIndex (this w)
                     /\ PRNG w' = mkPRNG (seed (PRNG w)) (index (PRNG w) + 1)
       | Throw _ =>
           accumulatedTime (this w') = accumulatedTime (this w)
           /\ segmentIndex (this w') = segmentIndex (this w)
           /\ (TalkshowStation.trackIsDue (prevSegment (this w)) = true ->
               w' = w)
       end).
Proof.
  destruct w as [prng s]. unfold TalkshowStation.nextSegment.
  apply post_bind, post_read. cbv zeta. cbn [this PRNG].
  apply post_bind.
  destruct (TalkshowStation.trackIsDue (prevSegment s)) eqn:Hdue.
  - unfold TalkshowStation.getTrack. apply post_bind, post_fileGroup.
    cbn [this PRNG].
    destruct (fileGroups (meta s) !! "track") as [l |] eqn:Hl; [| cbn; auto].
    apply post_bind, post_read, post_ret.
    apply post_bind, post_read, post_bind, post_newSyncedSegment.
    cbn [this PRNG]. rewrite at_mod_nat.
    destruct (l !! (segmentIndex s mod length l)%nat) as [t |] eqn:Ht;
      [| cbn; auto].
    apply post_bind, post_update, post_bind, post_update, post_bind,
      post_advance, post_ret.
    cbn. split; [reflexivity |]. split; [reflexivity |]. split; [reflexivity |].
    exists l, t. auto 10.
  - unfold TalkshowStation.getRandomTransition. apply post_bind, post_fileGroup.
    cbn [this PRNG].
    destruct (fileGroups (meta s) !! "id") as [l |] eqn:Hl;
      [| cbn; repeat split; discriminate].
    apply post_bind, post_PRNG_next, post_bind, post_nextUniqueIndex.
    intros x pools Hcall. apply post_ret.
    apply post_bind, post_read, post_bind, post_newSyncedSegment.
    cbn [this PRNG].
    destruct (at_drawn l x) as [t |] eqn:Ht;
      [| cbn; repeat split; discriminate].
    apply post_bind, post_ret, post_bind, post_update, post_bind,
      post_advance, post_ret.
    cbn. split; [reflexivity |]. split; [reflexivity |]. split; [reflexivity |].
    exists l, t. repeat split; auto.
    destruct x as [i |]; [| discriminate].
    eapply list_elem_of_lookup_2. exact Ht.
Qed.

(** X8: a talkshow station interleaves its track list, taken in order,
    with transitions of the "id" group: in a run of [nextSegment()] calls on
    a ready station the segments at every other position, starting with the
    first one when a track is due, are the entries of the track list at
    positions [segmentIndex], [segmentIndex + 1], ... modulo its length, with
    [isTrack = true]; the segments in between are entries of the "id" group
    with [isTrack = false]. *)
Theorem talkshow_station_rotates_tracks now n : forall w tracks ids,
  type (this w) = talkshow -> ready (this w) ->
  fileGroups (meta (this w)) !! "track" = Some tracks ->
  fileGroups (meta (this w)) !! "id" = Some ids ->
  forall j segment,
    (returned (nextSegments n now w).1
       !! (2 * j + (if TalkshowStation.trackIsDue (prevSegment (this w))
                    then 0 else 1))%nat = Some segment ->
     isTrack segment = Some true
     /\ exists t,
          tracks !! ((segmentIndex (this w) + j) mod length tracks)%nat = Some t
          /\ info segment = withPath (Station.getAbsolutePath (this w) (path t)) t)
    /\ (returned (nextSegments n now w).1
          !! (2 * j + (if TalkshowStation.trackIsDue (prevSegment (this w))
                       then 1 else 0))%nat = Some segment ->
        isTrack segment = Some false
        /\ exists t,
             t ∈ ids
             /\ info segment
                = withPath (Station.getAbsolutePath (this w) (path t)) t).
Proof.
  induction n as [|n IH]; intros w tracks ids Hty Hready Htr Hid j segment.
  { simpl. split; intros H; rewrite lookup_nil in H; discriminate. }
  rewrite nextSegments_S. cbn [fst snd]. rewrite returned_cons.
  pose proof (talkshow_step now w Hty) as Hstep.
  pose proof (talkshow_step_detail now w) as Hdetail.
  unfold post in Hstep, Hdetail.
  rewrite <- (nextSegment_talkshow now w Hty) in Hstep, Hdetail.
  destruct Hstep as (Hty1 & Hmeta1 & Hc & Hr).
  destruct (Hr Hready) as [Hready1 [segment0 Hseg0]].
  destruct Hdetail as [Hpath1 Hd]. rewrite Hseg0 in Hc, Hd |- *.
  destruct Hc as [Hflag Hprev]. destruct Hd as (_ & _ & Hsel).
  assert (Habs : forall rel,
            Station.getAbsolutePath (this (nextSegment now w).2) rel
            = Station.getAbsolutePath (this w) rel).
  { intros rel. unfold Station.getAbsolutePath. rewrite Hpath1. reflexivity. }
  specialize (IH (nextSegment now w).2 tracks ids Hty1 Hready1).
  rewrite Hmeta1 in IH. specialize (IH Htr Hid).
  rewrite Hprev in IH. cbn [TalkshowStation.trackIsDue] in IH.
  rewrite Hflag in IH. cbn [default from_option id] in IH.
  destruct (TalkshowStation.trackIsDue (prevSegment (this w))) eqn:Hdue;
    cbn [negb] in IH.
  - destruct Hsel as (l & t & Hl & Ht & Hinfo & Hidx & _).
    rewrite Htr in Hl. injection Hl as <-. split.
    + destruct j as [|j'].
      * cbn. intros [= <-]. split; [exact Hflag |]. exists t.
        rewrite Nat.add_0_r. auto.
      * replace (2 * S j' + 0)%nat with (S (2 * j' + 1)) by lia. cbn [lookup list_lookup].
        intros H. destruct (proj1 (IH j' segment) H) as [Hf (t' & Ht' & Hi')].
        split; [exact Hf |]. exists t'. rewrite Habs in Hi'. rewrite Hidx in Ht'.
        replace (segmentIndex (this w) + S j')%nat
          with (S (segmentIndex (this w)) + j')%nat by lia.
        auto.
    + replace (2 * j + 1)%nat with (S (2 * j + 0)) by lia. cbn [lookup list_lookup].
      intros H. destruct (proj2 (IH j segment) H) as [Hf (t' & Ht' & Hi')].
      split; [exact Hf |]. exists t'. rewrite Habs in Hi'. auto.
  - destruct Hsel as (l & t & Hl & Ht & Hinfo & Hidx & _).
    rewrite Hid in Hl. injection Hl as <-. split.
    + replace (2 * j + 1)%nat with (S (2 * j + 0)) by lia. cbn [lookup list_lookup].
      intros H. destruct (proj1 (IH j segment) H) as [Hf (t' & Ht' & Hi')].
      split; [exact Hf |]. exists t'. rewrite Habs in Hi'. rewrite Hidx in Ht'.
      auto.
    + destruct j as [|j'].
      * cbn. intros [= <-]. split; [exact Hflag |]. exists t. auto.
      * replace (2 * S j' + 0)%nat with (S (2 * j' + 1)) by lia. cbn [lookup list_lookup].
        intros H. destruct (proj2 (IH j' segment) H) as [Hf (t' & Ht' & Hi')].
        split; [exact Hf |]. exists t'. rewrite Habs in Hi'. auto.
Qed.

Lemma talkshow_station_rotates_tracks_witness :
  pathOf <$> (nextSegments 5 Sample.now Sample.talkshow_plain).1
  = [Some "data/radio_03/song_c.ogg"; Some "data/radio_03/id_b.ogg";
     Some "data/radio_03/song_b.ogg"; Some "data/radio_03/id_c.ogg";
     Some "data/radio_03/song_c.ogg"]
  /\ forall j segment,
       (returned (nextSegments 5 Sample.now Sample.talkshow_plain).1
          !! (2 * j + 0)%nat = Some segment ->
        isTrack segment = Some true
        /\ exists t,
             [Sample.song_c; Sample.song_b] !! ((0 + j) mod 2)%nat = Some t
             /\ info segment
                = withPath
                    (Station.getAbsolutePath (this Sample.talkshow_plain) (path t))
                    t)
       /\ (returned (nextSegments 5 Sample.now Sample.talkshow_plain).1
             !! (2 * j + 1)%nat = Some segment ->
           isTrack segment = Some false
           /\ exists t,
                t ∈ [Sample.id_a; Sample.id_b; Sample.id_c]
                /\ info segment
                   = withPath
                       (Station.getAbsolutePath (this Sample.talkshow_plain)
                          (path t))
                       t).
Proof.
  split; [vm_compute; reflexivity |].
  apply (talkshow_station_rotates_tracks Sample.now 5 Sample.talkshow_plain
           [Sample.song_c; Sample.song_b]
           [Sample.id_a; Sample.id_b; Sample.id_c]);
    [reflexivity | | reflexivity | reflexivity].
  apply sample_groups_ready; [discriminate |].
  repeat constructor; discriminate.
Defined.



Lemma sameButVoiceOver_refl t : sameButVoiceOver t t.
Proof. repeat split. Qed.

Lemma sameButVoiceOver_trans t1 t2 t3 :
  sameButVoiceOver t1 t2 -> sameButVoiceOver t2 t3 -> sameButVoiceOver t1 t3.
Proof. unfold sameButVoiceOver. intros (? & ? & ? & ?) (? & ? & ? & ?).
  repeat split; congruence. Qed.

Lemma metaKept_refl m : metaKept m m.
Proof.
  split; [reflexivity |]. split; [reflexivity |].
  destruct (fileGroups m !! "track") as [l |]; constructor.
  apply Forall2_same_length_lookup. split; [reflexivity |].
  intros i x y Hx Hy. rewrite Hx in Hy. injection Hy as <-.
  apply sameButVoiceOver_refl.
Qed.

Lemma metaKept_trans m1 m2 m3 :
  metaKept m1 m2 -> metaKept m2 m3 -> metaKept m1 m3.
Proof.
  intros (Ht1 & Hg1 & Hf1) (Ht2 & Hg2 & Hf2).
  split; [congruence |]. split.
  - intros g Hg. rewrite Hg2, Hg1 by assumption. reflexivity.
  - destruct Hf1 as [l1 l2 H12 |]; inversion Hf2 as [l2' l3 H23 |]; subst;
      constructor.
    eapply Forall2_trans; [| eassumption | eassumption].
    intros x y z. apply sameButVoiceOver_trans.
Qed.

Lemma metaKept_eq m m' : m' = m -> metaKept m m'.
Proof. intros ->. apply metaKept_refl. Qed.

Lemma metaKept_voiceOver m tracks i t v :
  fileGroups m !! "track" = Some tracks -> tracks !! i = Some t ->
  metaKept m
    (mkMeta (meta_type m)
       (<["track" := <[i := set_voiceOver v t]> tracks]> (fileGroups m))).
Proof.
  intros Hl Ht. split; [reflexivity |]. split.
  - intros g Hg. cbn. apply lookup_insert_ne. auto.
  - cbn. rewrite lookup_insert_eq, Hl. constructor.
    apply Forall2_same_length_lookup. split; [rewrite length_insert; reflexivity |].
    intros j x y Hx Hy.
    apply list_lookup_insert_Some in Hy as [(<- & <- & _) | [_ Hy]].
    + rewrite Ht in Hx. injection Hx as <-. repeat split.
    + rewrite Hx in Hy. injection Hy as <-. apply sameButVoiceOver_refl.
Qed.

Lemma getRandomTrack_meta randNum w :
  post (DynamicStation.getRandomTrack randNum) w (fun _ w' =>
    metaKept (meta (this w)) (meta (this w'))).
Proof.
  unfold DynamicStation.getRandomTrack.
  apply post_bind, post_fileGroup.
  destruct (fileGroups (meta (this w)) !! "track") as [tracks |] eqn:Hl;
    [| apply metaKept_refl].
  apply post_bind, post_nextUniqueIndex. intros x pools Hcall.
  apply post_bind, post_defined.
  destruct x as [i |]; cbn [at_drawn]; [| apply metaKept_refl].
  destruct (tracks !! i) as [t |] eqn:Ht; [| apply metaKept_refl].
  destruct (voiceovers t) as [vos |]; [| apply post_ret, metaKept_refl].
  apply post_bind, post_PRNG_next, post_bind, post_resolveObjectPath.
  destruct (at_mod vos _) as [vo |]; [| apply metaKept_refl].
  apply post_bind, post_update, post_ret. cbn.
  apply metaKept_voiceOver; assumption.
Qed.

Lemma dynamic_step_frame now w :
  post (DynamicStation.nextSegment now) w (fun c w' =>
    metaKept (meta (this w)) (meta (this w'))
    /\ station_path (this w') = station_path (this w)
    /\ match c with
       | Normal segment =>
           startTimestamp segment
           = Station.timeAt (Station.startTimestamp now) (accumulatedTime (this w))
           /\ accumulatedTime (this w')
              = PrimFloat.add (accumulatedTime (this w))
                  (orElse (audibleDuration (info segment))
                     (duration (info segment)))
       | Throw _ => accumulatedTime (this w') = accumulatedTime (this w)
       end).
Proof.
  unfold DynamicStation.nextSegment.
  apply post_bind, post_PRNG_next. cbv zeta.
  apply post_bind, post_read. cbn [this PRNG].
  apply post_bind.
  assert (Htail : forall c w1,
    metaKept (meta (this w)) (meta (this w1)) ->
    station_path (this w1) = station_path (this w) ->
    accumulatedTime (this w1) = accumulatedTime (this w) ->
    forall isTrack,
    match c with
    | Normal a =>
        post
          (let* t := read accumulatedTime in
           let* segment := Station.newSyncedSegment now a t in
           let* _ := update
                       (set_prevSegment
                          (Some (mkSyncedSegment (info segment)
                                   (startTimestamp segment) (Some isTrack)))) in
           let* _ := Station.advance
                       (mkSyncedSegment (info segment) (startTimestamp segment)
                          (Some isTrack)) in
           ret (mkSyncedSegment (info segment) (startTimestamp segment)
                  (Some isTrack)))
          w1
          (fun c w' =>
             metaKept (meta (this w)) (meta (this w'))
             /\ station_path (this w') = station_path (this w)
             /\ match c with
                | Normal segment =>
                    startTimestamp segment
                    = Station.timeAt (Station.startTimestamp now)
                        (accumulatedTime (this w))
                    /\ accumulatedTime (this w')
                       = PrimFloat.add (accumulatedTime (this w))
                           (orElse (audibleDuration (info segment))
                              (duration (info segment)))
                | Throw _ => accumulatedTime (this w') = accumulatedTime (this w)
                end)
    | Throw e =>
        metaKept (meta (this w)) (meta (this w1))
        /\ station_path (this w1) = station_path (this w)
        /\ accumulatedTime (this w1) = accumulatedTime (this w)
    end).
  { intros c w1 Hm Hp Ha isTrack. destruct c as [o | e]; [| auto].
    apply post_bind, post_read, post_bind, post_newSyncedSegment.
    destruct o as [t |]; [| auto].
    apply post_bind, post_update, post_bind, post_advance, post_ret.
    cbn. rewrite Ha. auto. }
  destruct (DynamicStation.trackIsDue _ _).
  - pose proof (getRandomTrack_meta
                  (Prng.hash (seed (PRNG w)) (index (PRNG w)))
                  (mkWorld (mkPRNG (seed (PRNG w)) (index (PRNG w) + 1)) (this w)))
      as Hmeta.
    pose proof (getRandomTrack_post
                  (Prng.hash (seed (PRNG w)) (index (PRNG w)))
                  (mkWorld (mkPRNG (seed (PRNG w)) (index (PRNG w) + 1)) (this w)))
      as Hpost.
    unfold post in Hmeta, Hpost |- *. cbn [this PRNG] in *.
    destruct Hpost as (_ & _ & Hp & Ha & _). revert Hmeta Hp Ha.
    set (r := DynamicStation.getRandomTrack _ _). clearbody r.
    destruct r as [c w1]. cbn [fst snd]. intros Hmeta Hp Ha.
    apply (Htail c w1 Hmeta Hp Ha true).
  - pose proof (getRandomTransition_post
                  (Prng.hash (seed (PRNG w)) (index (PRNG w)))
                  (mkWorld (mkPRNG (seed (PRNG w)) (index (PRNG w) + 1)) (this w)))
      as Hpost.
    unfold post in Hpost |- *. cbn [this PRNG] in *.
    destruct Hpost as (_ & _ & Hp & Ha & Hm & _). revert Hp Ha Hm.
    set (r := DynamicStation.getRandomTransition _ _). clearbody r.
    destruct r as [c w1]. cbn [fst snd]. intros Hp Ha Hm.
    apply (Htail c w1 (metaKept_eq _ _ Hm) Hp Ha false).
Qed.

(** What every step keeps, and the times of the segment it returns. *)
Lemma nextSegment_frame now w :
  type (this (nextSegment now w).2) = type (this w)
  /\ metaKept (meta (this w)) (meta (this (nextSegment now w).2))
  /\ (type (this w) <> dynamic ->
      meta (this (nextSegment now w).2) = meta (this w))
  /\ station_path (this (nextSegment now w).2) = station_path (this w)
  /\ match (nextSegment now w).1 with
     | Normal segment =>
         startTimestamp segment
         = Station.timeAt (Station.startTimestamp now) (accumulatedTime (this w))
         /\ accumulatedTime (this (nextSegment now w).2)
            = PrimFloat.add (accumulatedTime (this w))
                (orElse (audibleDuration (info segment))
                   (duration (info segment)))
     | Throw _ =>
         accumulatedTime (this (nextSegment now w).2) = accumulatedTime (this w)
     end.
Proof.
  destruct (type (this w)) eqn:Hty.
  - rewrite (nextSegment_static now w Hty).
    pose proof (static_step_detail now w) as H. unfold post in H.
    destruct (StaticStation.nextSegment now w) as [c w']. cbn [fst snd] in *.
    destruct (fileGroups (meta (this w)) !! "track") as [l |].
    + destruct (l !! (segmentIndex (this w) mod length l)%nat) as [t |].
      * destruct H as [-> ->]. cbn.
        split; [exact Hty |]. split; [apply metaKept_refl |].
        repeat split; reflexivity.
      * destruct H as [-> ->].
        split; [exact Hty |]. split; [apply metaKept_refl |].
        repeat split; reflexivity.
    + destruct H as [-> ->].
      split; [exact Hty |]. split; [apply metaKept_refl |].
      repeat split; reflexivity.
  - rewrite (nextSegment_talkshow now w Hty).
    pose proof (talkshow_step now w Hty) as H1.
    pose proof (talkshow_step_detail now w) as H2. unfold post in H1, H2.
    destruct (TalkshowStation.nextSegment now w) as [c w']. cbn [fst snd] in *.
    destruct H1 as (Hty' & Hm & _). destruct H2 as [Hp Hc].
    split; [assumption |]. split; [apply metaKept_eq; assumption |].
    split; [auto |]. split; [assumption |].
    destruct c as [segment | e].
    + destruct Hc as (Hs & Ha & _). auto.
    + destruct Hc as (Ha & _). exact Ha.
  - rewrite (nextSegment_dynamic now w Hty).
    pose proof (dynamic_step now w Hty) as H1.
    pose proof (dynamic_step_frame now w) as H2. unfold post in H1, H2.
    destruct (DynamicStation.nextSegment now w) as [c w']. cbn [fst snd] in *.
    destruct H1 as (Hty' & _). destruct H2 as (Hm & Hp & Hc).
    split; [assumption |]. split; [assumption |].
    split; [congruence |]. split; assumption.
Qed.

Lemma nextSegments_frame now n : forall w,
  type (this (nextSegments n now w).2) = type (this w)
  /\ metaKept (meta (this w)) (meta (this (nextSegments n now w).2))
  /\ (type (this w) <> dynamic ->
      meta (this (nextSegments n now w).2) = meta (this w))
  /\ station_path (this (nextSegments n now w).2) = station_path (this w).
Proof.
  induction n as [|n IH]; intros w.
  - simpl. split; [reflexivity |]. split; [apply metaKept_refl |].
    split; reflexivity.
  - rewrite nextSegments_S. cbn [fst snd].
    destruct (nextSegment_frame now w) as (Hty & Hm & Hs & Hp & _).
    destruct (IH (nextSegment now w).2) as (Hty' & Hm' & Hs' & Hp').
    split; [congruence |]. split; [eapply metaKept_trans; eassumption |].
    split; [| congruence].
    intros Hnd. rewrite Hs' by congruence. auto.
Qed.

Lemma reset_spec w :
  (reset w).1 = Normal tt
  /\ type (this (reset w).2) = type (this w)
  /\ meta (this (reset w).2) = meta (this w)
  /\ station_path (this (reset w).2) = station_path (this w)
  /\ indexDrawPools (this (reset w).2) = indexDrawPools (this w)
  /\ accumulatedTime (this (reset w).2) = 0%float
  /\ seed (PRNG (reset w).2) = seed (PRNG w)
  /\ (type (this w) <> static ->
      prevSegment (this (reset w).2) = None /\ index (PRNG (reset w).2) = 0)
  /\ (type (this w) <> dynamic -> segmentIndex (this (reset w).2) = 0%nat).
Proof.
  destruct w as [[s i] st]. unfold reset. cbn [this].
  destruct (type st) eqn:Hty; cbn; rewrite ?Hty; repeat split; congruence.
Qed.

Lemma getSyncedSegment_unfold fuel now w :
  getSyncedSegment fuel now w
  = syncLoop fuel now (Station.startTimestamp now) (reset w).2.
Proof. unfold getSyncedSegment. destruct (reset w); reflexivity. Qed.

Lemma syncLoop_S fuel now start w :
  syncLoop (S fuel) now start w
  = match (nextSegment now w).1 with
    | Normal segment =>
        if PrimFloat.ltb (JS.ofZ now)
             (Station.timeAt start (accumulatedTime (this (nextSegment now w).2)))
        then Some (Normal segment, (nextSegment now w).2)
        else syncLoop fuel now start (nextSegment now w).2
    | Throw e => Some (Throw e, (nextSegment now w).2)
    end.
Proof.
  cbn [syncLoop]. destruct (nextSegment now w) as [[segment | e] w1]; reflexivity.
Qed.

(** A station with no track to play throws in the step that is due to
    select one. *)
Lemma nextSegment_noTracks now w :
  noTracks (this w) ->
  (type (this w) <> static -> prevSegment (this w) = None) ->
  (nextSegment now w).1 = Throw TypeError.
Proof.
  intros Hno Hprev.
  assert (Hnone : forall l (i : nat) (t : SegmentInfo),
            fileGroups (meta (this w)) !! "track" = Some l -> l !! i = Some t ->
            False).
  { intros l i t Hl Ht. destruct Hno as [Hno | Hno]; rewrite Hl in Hno;
      [discriminate |]. injection Hno as ->. rewrite lookup_nil in Ht.
    discriminate. }
  destruct (type (this w)) eqn:Hty.
  - rewrite (nextSegment_static now w Hty).
    pose proof (static_step_detail now w) as H. unfold post in H.
    destruct (fileGroups (meta (this w)) !! "track") as [l |] eqn:Hl.
    + destruct (l !! (segmentIndex (this w) mod length l)%nat) as [t |] eqn:Ht.
      * exfalso. eapply Hnone; eauto.
      * apply H.
    + apply H.
  - rewrite (nextSegment_talkshow now w Hty).
    pose proof (talkshow_step_detail now w) as H. unfold post in H.
    rewrite Hprev in H by discriminate. cbn [TalkshowStation.trackIsDue] in H.
    destruct (TalkshowStation.nextSegment now w).1 as [segment | []];
      [| reflexivity].
    destruct H as (_ & _ & _ & l & t & Hl & Ht & _). exfalso. eapply Hnone; eauto.
  - rewrite (nextSegment_dynamic now w Hty).
    pose proof (dynamic_step now w Hty) as H. unfold post in H.
    rewrite Hprev in H by discriminate. cbn [DynamicStation.trackIsDue] in H.
    destruct (DynamicStation.nextSegment now w).1 as [segment | []];
      [| reflexivity].
    destruct H as (_ & _ & (_ & _ & tracks & i & t & Hl & Ht & _) & _).
    exfalso. eapply Hnone; eauto.
Qed.

Lemma syncLoop_mono now start fuel : forall w r,
  syncLoop fuel now start w = Some r ->
  forall fuel', (fuel <= fuel')%nat -> syncLoop fuel' now start w = Some r.
Proof.
  induction fuel as [|fuel IH]; intros w r H fuel' Hle; [discriminate |].
  destruct fuel' as [|fuel']; [lia |].
  rewrite syncLoop_S in H |- *.
  destruct (nextSegment now w).1; [| exact H].
  destruct (PrimFloat.ltb _ _); [exact H |].
  apply (IH _ _ H). lia.
Qed.

Lemma syncLoop_run now start fuel : forall w c w',
  syncLoop fuel now start w = Some (c, w') ->
  exists earlier,
    (length earlier < fuel)%nat
    /\ nextSegments (S (length earlier)) now w = ((Normal <$> earlier) ++ [c], w').
Proof.
  induction fuel as [|fuel IH]; intros w c w' H; [discriminate |].
  rewrite syncLoop_S in H.
  destruct (nextSegment now w).1 as [segment | e] eqn:Hc.
  - destruct (PrimFloat.ltb _ _).
    + injection H as <- <-. exists []. split; [simpl; lia |].
      rewrite nextSegments_S. cbn [nextSegments fst snd length fmap list_fmap app].
      rewrite Hc. reflexivity.
    + destruct (IH _ _ _ H) as (earlier & Hlen & Hrun).
      exists (segment :: earlier). split; [simpl; lia |].
      cbn [length]. rewrite nextSegments_S, Hrun, Hc. reflexivity.
  - injection H as <- <-. exists []. split; [simpl; lia |].
    rewrite nextSegments_S. cbn [nextSegments fst snd length fmap list_fmap app].
    rewrite Hc. reflexivity.
Qed.

Lemma static_nextSegment_prng now w p :
  type (this w) = static ->
  (nextSegment now (mkWorld p (this w))).1 = (nextSegment now w).1
  /\ this (nextSegment now (mkWorld p (this w))).2 = this (nextSegment now w).2.
Proof.
  intros Hty.
  rewrite (nextSegment_static now w Hty).
  rewrite (nextSegment_static now (mkWorld p (this w)) Hty).
  pose proof (static_step_detail now w) as H1.
  pose proof (static_step_detail now (mkWorld p (this w))) as H2.
  unfold post in H1, H2. cbn [this PRNG] in H2.
  destruct (fileGroups (meta (this w)) !! "track") as [l |].
  - destruct (l !! (segmentIndex (this w) mod length l)%nat) as [t |].
    + destruct H1 as [-> ->]. destruct H2 as [-> ->]. split; reflexivity.
    + destruct H1 as [-> ->]. destruct H2 as [-> ->]. split; reflexivity.
  - destruct H1 as [-> ->]. destruct H2 as [-> ->]. split; reflexivity.
Qed.

Lemma static_syncLoop_prng now start fuel : forall w p,
  type (this w) = static ->
  fst <$> syncLoop fuel now start (mkWorld p (this w))
  = fst <$> syncLoop fuel now start w.
Proof.
  induction fuel as [|fuel IH]; intros w p Hty; [reflexivity |].
  rewrite !syncLoop_S.
  destruct (static_nextSegment_prng now w p Hty) as [Hc Hs].
  destruct (nextSegment_frame now w) as (Hty' & _).
  rewrite Hc, Hs.
  destruct (nextSegment now w).1 as [segment | e]; [| reflexivity].
  destruct (PrimFloat.ltb _ _); [reflexivity |].
  rewrite <- (IH (nextSegment now w).2
                (PRNG (nextSegment now (mkWorld p (this w))).2)) by congruence.
  rewrite <- Hs. destruct (nextSegment now (mkWorld p (this w))).2; reflexivity.
Qed.

(** X9: the answer of [getSyncedSegment()] depends on the station object and
    on the seed of the shared generator only, not on where the generator's
    index stands. *)
Theorem getSyncedSegment_ignores_generator_index
    (fuel : nat) (now : Z) (w1 w2 : World) :
  this w1 = this w2 -> seed (PRNG w1) = seed (PRNG w2) ->
  fst <$> getSyncedSegment fuel now w1 = fst <$> getSyncedSegment fuel now w2.
Proof.
  destruct w1 as [[s1 i1] st1], w2 as [[s2 i2] st2]. cbn [this PRNG seed].
  intros <- <-. destruct (type st1) eqn:Hty.
  - rewrite !getSyncedSegment_unfold. unfold reset. cbn [this]. rewrite Hty.
    cbn.
    rewrite <- (static_syncLoop_prng now (Station.startTimestamp now) fuel
                  (mkWorld (mkPRNG s1 i2)
                     (set_accumulatedTime 0 (set_segmentIndex 0 st1)))
                  (mkPRNG s1 i1)) by exact Hty.
    reflexivity.
  - unfold getSyncedSegment, reset. cbn [this]. rewrite Hty. reflexivity.
  - unfold getSyncedSegment, reset. cbn [this]. rewrite Hty. reflexivity.
Qed.

Lemma getSyncedSegment_ignores_generator_index_witness :
  fst <$> getSyncedSegment 10 Sample.later Sample.talkshow_plain
  = fst <$> getSyncedSegment 10 Sample.later
              (mkWorld (mkPRNG (seed (PRNG Sample.talkshow_plain)) 57)
                 (this Sample.talkshow_plain)).
Proof.
  apply (getSyncedSegment_ignores_generator_index 10 Sample.later);
    reflexivity.
Defined.

Lemma setters_absorb a i a' i' s :
  set_accumulatedTime a (set_segmentIndex i
    (set_accumulatedTime a' (set_segmentIndex i' s)))
  = set_accumulatedTime a (set_segmentIndex i s).
Proof. destruct s; reflexivity. Qed.

Lemma static_nextSegment_shape now w :
  type (this w) = static ->
  PRNG (nextSegment now w).2 = PRNG w
  /\ exists a i,
       this (nextSegment now w).2
       = set_accumulatedTime a (set_segmentIndex i (this w)).
Proof.
  intros Hty. rewrite (nextSegment_static now w Hty).
  pose proof (static_step_detail now w) as H. unfold post in H.
  assert (Hsame : PRNG w = PRNG w
                  /\ exists a i,
                       this w = set_accumulatedTime a (set_segmentIndex i (this w))).
  { split; [reflexivity |].
    exists (accumulatedTime (this w)), (segmentIndex (this w)).
    destruct (this w); reflexivity. }
  destruct (fileGroups (meta (this w)) !! "track") as [l |].
  - destruct (l !! (segmentIndex (this w) mod length l)%nat) as [t |].
    + destruct H as [_ ->]. cbn [this PRNG]. split; [reflexivity |]. eauto.
    + destruct H as [_ ->]. exact Hsame.
  - destruct H as [_ ->]. exact Hsame.
Qed.

Lemma static_syncLoop_shape now start fuel : forall w c w',
  type (this w) = static ->
  syncLoop fuel now start w = Some (c, w') ->
  PRNG w' = PRNG w
  /\ exists a i, this w' = set_accumulatedTime a (set_segmentIndex i (this w)).
Proof.
  induction fuel as [|fuel IH]; intros w c w' Hty H; [discriminate |].
  rewrite syncLoop_S in H.
  destruct (static_nextSegment_shape now w Hty) as (Hp & a & i & Hs).
  destruct (nextSegment_frame now w) as (Hty' & _).
  rewrite Hty in Hty'.
  destruct (nextSegment now w).1 as [segment | e].
  - destruct (PrimFloat.ltb _ _).
    + injection H as <- <-. split; [exact Hp |]. eauto.
    + destruct (IH _ _ _ Hty' H) as (Hp' & a' & i' & Hs').
      split; [congruence |]. exists a', i'.
      rewrite Hs', Hs. apply setters_absorb.
  - injection H as <- <-. split; [exact Hp |]. eauto.
Qed.

Lemma static_silent_loop now start fuel : forall w tracks,
  type (this w) = static ->
  fileGroups (meta (this w)) !! "track" = Some tracks -> tracks <> [] ->
  Forall (fun t => orElse (audibleDuration t) (duration t) = 0%float) tracks ->
  accumulatedTime (this w) = 0%float ->
  PrimFloat.ltb (JS.ofZ now) (Station.timeAt start 0) = false ->
  syncLoop fuel now start w = None.
Proof.
  induction fuel as [|fuel IH]; intros w tracks Hty Hl Hne Hsilent Hacc Hclock;
    [reflexivity |].
  rewrite syncLoop_S.
  pose proof (static_step_detail now w) as Hstep. unfold post in Hstep.
  rewrite <- (nextSegment_static now w Hty), Hl in Hstep.
  destruct (lookup_mod_nonempty tracks (segmentIndex (this w)) Hne) as [t Ht].
  rewrite Ht in Hstep. destruct Hstep as [Hc Hw].
  pose proof (proj1 (Forall_lookup _ _) Hsilent _ _ Ht) as Hzero.
  cbv beta in Hzero.
  rewrite Hacc, Hzero in Hw.
  replace (PrimFloat.add 0 0) with 0%float in Hw by reflexivity.
  rewrite Hc, Hw. cbn [this accumulatedTime set_accumulatedTime].
  rewrite Hclock.
  apply (IH _ tracks); cbn; auto.
Qed.

(** X10: a station whose metadata has no track to play (the "track" group is
    missing or empty) makes [getSyncedSegment()] throw a TypeError in the
    first turn of its loop. *)
Theorem getSyncedSegment_throws_without_tracks
    (fuel : nat) (now : Z) (w : World) :
  noTracks (this w) ->
  fst <$> getSyncedSegment (S fuel) now w = Some (Throw TypeError).
Proof.
  intros Hno. rewrite getSyncedSegment_unfold, syncLoop_S.
  destruct (reset_spec w) as (_ & Hty & Hm & _ & _ & _ & _ & Hprev & _).
  rewrite (nextSegment_noTracks now (reset w).2).
  - reflexivity.
  - unfold noTracks in *. rewrite Hm. exact Hno.
  - intros Hns. apply Hprev. congruence.
Qed.

Lemma getSyncedSegment_throws_without_tracks_witness :
  fst <$> getSyncedSegment 1 Sample.now
            (Station.createStation "radio_05"
               (mkMeta "dynamic" (Sample.groups [])) Sample.now Sample.prng)
  = Some (Throw TypeError).
Proof.
  apply (getSyncedSegment_throws_without_tracks 0 Sample.now).
  right. reflexivity.
Defined.

Lemma post_clock_newSyncedSegment y m o t w Q :
  match o with
  | Some segmentInfo =>
      Q (Normal (mkSyncedSegment
                   (withPath (Station.getAbsolutePath (this w) (path segmentInfo))
                      segmentInfo)
                   (Station.timeAt (Clock.startTimestamp y m) t) None)) w
  | None => Q (Throw TypeError) w
  end ->
  post (Clock.newSyncedSegment y m o t) w Q.
Proof.
  intros HQ. unfold Clock.newSyncedSegment.
  apply post_bind, post_resolveObjectPath. destruct o; [| exact HQ].
  apply post_ret. exact HQ.
Qed.

(** With one reading for everything, the clocked methods are the methods
    above. *)
Lemma clocked_nextSegment_one_reading now w :
  Clocked.nextSegment now now w = nextSegment now w.
Proof.
  unfold Clocked.nextSegment, nextSegment.
  unfold Clocked.staticNextSegment, StaticStation.nextSegment,
    Clocked.talkshowNextSegment, TalkshowStation.nextSegment,
    Clocked.dynamicNextSegment, DynamicStation.nextSegment,
    Clock.newSyncedSegment, Station.newSyncedSegment,
    Clock.startTimestamp, Station.startTimestamp.
  reflexivity.
Qed.

Lemma clocked_syncLoop_one_reading now start fuel : forall w,
  Clocked.syncLoop fuel start (fun _ => Clock.mkReadings now now now) w
  = syncLoop fuel now start w.
Proof.
  induction fuel as [|fuel IH]; intros w; [reflexivity |].
  cbn [Clocked.syncLoop syncLoop Clock.stampYear Clock.stampMonth
         Clock.loopTest].
  rewrite clocked_nextSegment_one_reading.
  destruct (nextSegment now w) as [[segment | e] w1]; [| reflexivity].
  destruct (PrimFloat.ltb _ _); [reflexivity |]. apply IH.
Qed.

Lemma clocked_getSyncedSegment_one_reading fuel now w :
  Clocked.getSyncedSegment fuel now now (fun _ => Clock.mkReadings now now now) w
  = getSyncedSegment fuel now w.
Proof.
  unfold Clocked.getSyncedSegment, getSyncedSegment.
  destruct (reset w) as [u w0].
  unfold Clock.startTimestamp, Station.startTimestamp.
  apply clocked_syncLoop_one_reading.
Qed.

Lemma clocked_static_step y m w :
  post (Clocked.staticNextSegment y m) w (stampedAt (Clock.startTimestamp y m) w).
Proof.
  destruct w as [prng s]. unfold Clocked.staticNextSegment.
  apply post_bind, post_fileGroup. cbn [this PRNG].
  destruct (fileGroups (meta s) !! "track") as [l |]; [| exact I].
  apply post_bind, post_read, post_bind, post_read, post_bind,
    post_clock_newSyncedSegment.
  cbn [this PRNG].
  destruct (at_mod l _) as [t |]; [| exact I].
  apply post_bind, post_update, post_bind, post_advance, post_ret.
  cbn. split; reflexivity.
Qed.

Lemma clocked_talkshow_step y m w :
  post (Clocked.talkshowNextSegment y m) w
    (stampedAt (Clock.startTimestamp y m) w).
Proof.
  destruct w as [prng s]. unfold Clocked.talkshowNextSegment.
  apply post_bind, post_read. cbv zeta. cbn [this PRNG].
  apply post_bind.
  destruct (TalkshowStation.trackIsDue (prevSegment s)).
  - unfold TalkshowStation.getTrack. apply post_bind, post_fileGroup.
    cbn [this PRNG].
    destruct (fileGroups (meta s) !! "track") as [l |]; [| exact I].
    apply post_bind, post_read, post_ret.
    apply post_bind, post_read, post_bind, post_clock_newSyncedSegment.
    cbn [this PRNG].
    destruct (at_mod l _) as [t |]; [| exact I].
    apply post_bind, post_update, post_bind, post_update, post_bind,
      post_advance, post_ret.
    cbn. split; reflexivity.
  - unfold TalkshowStation.getRandomTransition. apply post_bind, post_fileGroup.
    cbn [this PRNG].
    destruct (fileGroups (meta s) !! "id") as [l |]; [| exact I].
    apply post_bind, post_PRNG_next, post_bind, post_nextUniqueIndex.
    intros x pools Hcall. apply post_ret.
    apply post_bind, post_read, post_bind, post_clock_newSyncedSegment.
    cbn [this PRNG].
    destruct (at_drawn l x) as [t |]; [| exact I].
    apply post_bind, post_ret, post_bind, post_update, post_bind,
      post_advance, post_ret.
    cbn. split; reflexivity.
Qed.

Lemma clocked_dynamic_step y m w :
  post (Clocked.dynamicNextSegment y m) w
    (stampedAt (Clock.startTimestamp y m) w).
Proof.
  unfold Clocked.dynamicNextSegment.
  apply post_bind, post_PRNG_next. cbv zeta.
  apply post_bind, post_read. cbn [this PRNG].
  apply post_bind.
  assert (Htail : forall (c : Completion (option SegmentInfo)) w1 (flag : bool),
    accumulatedTime (this w1) = accumulatedTime (this w) ->
    match c with
    | Normal a =>
        post
          (let* t := read accumulatedTime in
           let* segment := Clock.newSyncedSegment y m a t in
           let* _ := update
                       (set_prevSegment
                          (Some (mkSyncedSegment (info segment)
                                   (startTimestamp segment) (Some flag)))) in
           let* _ := Station.advance
                       (mkSyncedSegment (info segment) (startTimestamp segment)
                          (Some flag)) in
           ret (mkSyncedSegment (info segment) (startTimestamp segment)
                  (Some flag)))
          w1 (stampedAt (Clock.startTimestamp y m) w)
    | Throw e => stampedAt (Clock.startTimestamp y m) w (Throw e) w1
    end).
  { intros c w1 flag Ha. destruct c as [o | e]; [| exact I].
    apply post_bind, post_read, post_bind, post_clock_newSyncedSegment.
    destruct o as [t |]; [| exact I].
    apply post_bind, post_update, post_bind, post_advance, post_ret.
    cbn. rewrite Ha. split; reflexivity. }
  destruct (DynamicStation.trackIsDue _ _).
  - pose proof (getRandomTrack_post
                  (Prng.hash (seed (PRNG w)) (index (PRNG w)))
                  (mkWorld (mkPRNG (seed (PRNG w)) (index (PRNG w) + 1)) (this w)))
      as Hpost.
    unfold post in Hpost |- *. cbn [this PRNG] in *.
    destruct Hpost as (_ & _ & _ & Ha & _). revert Ha.
    set (r := DynamicStation.getRandomTrack _ _). clearbody r.
    destruct r as [c w1]. cbn [fst snd]. intros Ha.
    apply (Htail c w1 true Ha).
  - pose proof (getRandomTransition_post
                  (Prng.hash (seed (PRNG w)) (index (PRNG w)))
                  (mkWorld (mkPRNG (seed (PRNG w)) (index (PRNG w) + 1)) (this w)))
      as Hpost.
    unfold post in Hpost |- *. cbn [this PRNG] in *.
    destruct Hpost as (_ & _ & _ & Ha & _). revert Ha.
    set (r := DynamicStation.getRandomTransition _ _). clearbody r.
    destruct r as [c w1]. cbn [fst snd]. intros Ha.
    apply (Htail c w1 false Ha).
Qed.

Lemma clocked_nextSegment_stamped y m w :
  stampedAt (Clock.startTimestamp y m) w
    (Clocked.nextSegment y m w).1 (Clocked.nextSegment y m w).2.
Proof.
  unfold Clocked.nextSegment. destruct (type (this w)).
  - apply clocked_static_step.
  - apply clocked_talkshow_step.
  - apply clocked_dynamic_step.
Qed.

Lemma clocked_syncLoop_S fuel start clock w :
  Clocked.syncLoop (S fuel) start clock w
  = match (Clocked.nextSegment (Clock.stampYear (clock 0%nat))
             (Clock.stampMonth (clock 0%nat)) w).1 with
    | Normal segment =>
        if PrimFloat.ltb (JS.ofZ (Clock.loopTest (clock 0%nat)))
             (Station.timeAt start
                (accumulatedTime
                   (this (Clocked.nextSegment (Clock.stampYear (clock 0%nat))
                            (Clock.stampMonth (clock 0%nat)) w).2)))
        then Some (Normal segment,
                   (Clocked.nextSegment (Clock.stampYear (clock 0%nat))
                      (Clock.stampMonth (clock 0%nat)) w).2)
        else Clocked.syncLoop fuel start (fun i => clock (S i))
               (Clocked.nextSegment (Clock.stampYear (clock 0%nat))
                  (Clock.stampMonth (clock 0%nat)) w).2
    | Throw e =>
        Some (Throw e,
              (Clocked.nextSegment (Clock.stampYear (clock 0%nat))
                 (Clock.stampMonth (clock 0%nat)) w).2)
    end.
Proof.
  cbn [Clocked.syncLoop].
  destruct (Clocked.nextSegment _ _ w) as [[segment | e] w1]; reflexivity.
Qed.

Lemma clocked_syncLoop_timing start fuel : forall clock w segment w',
  Clocked.syncLoop fuel start clock w = Some (Normal segment, w') ->
  exists (k : nat) (before : float),
    (k < fuel)%nat
    /\ startTimestamp segment
       = Station.timeAt
           (Clock.startTimestamp (Clock.stampYear (clock k))
              (Clock.stampMonth (clock k)))
           before
    /\ accumulatedTime (this w')
       = PrimFloat.add before
           (orElse (audibleDuration (info segment)) (duration (info segment)))
    /\ PrimFloat.ltb (JS.ofZ (Clock.loopTest (clock k)))
         (Station.timeAt start (accumulatedTime (this w')))
       = true
    /\ match k with
       | O => before = accumulatedTime (this w)
       | S j =>
           PrimFloat.ltb (JS.ofZ (Clock.loopTest (clock j)))
             (Station.timeAt start before)
           = false
       end.
Proof.
  induction fuel as [|fuel IH]; intros clock w segment w' H; [discriminate |].
  rewrite clocked_syncLoop_S in H.
  pose proof (clocked_nextSegment_stamped (Clock.stampYear (clock 0%nat))
                (Clock.stampMonth (clock 0%nat)) w) as Hst.
  destruct (Clocked.nextSegment _ _ w).1 as [s1 | e]; [| discriminate].
  destruct Hst as [Hs Ha].
  destruct (PrimFloat.ltb _ _) eqn:Hlt.
  - injection H as Hc Hw. subst segment w'.
    exists 0%nat, (accumulatedTime (this w)).
    split; [lia |]. split; [exact Hs |]. split; [exact Ha |].
    split; [exact Hlt | reflexivity].
  - destruct (IH _ _ _ _ H) as (k & before & Hk & Hs' & Ha' & He & Hprev).
    exists (S k), before. split; [lia |]. split; [exact Hs' |].
    split; [exact Ha' |]. split; [exact He |].
    destruct k as [|j]; [| exact Hprev].
    rewrite Hprev. exact Hlt.
Qed.

(** X11: the segment that [getSyncedSegment()] returns, in turn [k] of its
    loop, ends after the clock reading of that turn's test, the end being
    counted from the month start read before the loop; and unless it is the
    first segment, the time accumulated before it did not reach beyond the
    reading of the test of the turn before.  Its [startTimestamp] is the
    month start read when it was made plus 1000 times the time accumulated
    before it: where that month start is the one read before the loop, the
    segment does not start after the reading of the test of the turn before;
    where the month has changed since, it can.  [accumulatedTime] is left at
    the end of the segment. *)
Theorem getSyncedSegment_returns_segment_in_progress
    (fuel : nat) (startYear startMonth : Z) (clock : nat -> Clock.Readings)
    (w w' : World) (segment : SyncedSegment) :
  Clocked.getSyncedSegment fuel startYear startMonth clock w
  = Some (Normal segment, w') ->
  let start := Clock.startTimestamp startYear startMonth in
  exists (k : nat) (before : float),
    let stampStart :=
      Clock.startTimestamp (Clock.stampYear (clock k))
        (Clock.stampMonth (clock k)) in
    (k < fuel)%nat
    /\ startTimestamp segment = Station.timeAt stampStart before
    /\ accumulatedTime (this w')
       = PrimFloat.add before
           (orElse (audibleDuration (info segment)) (duration (info segment)))
    /\ PrimFloat.ltb (JS.ofZ (Clock.loopTest (clock k)))
         (Station.timeAt start (accumulatedTime (this w')))
       = true
    /\ match k with
       | O => before = 0%float
       | S j =>
           PrimFloat.ltb (JS.ofZ (Clock.loopTest (clock j)))
             (Station.timeAt start before)
           = false
           /\ (stampStart = start ->
               PrimFloat.ltb (JS.ofZ (Clock.loopTest (clock j)))
                 (startTimestamp segment)
               = false)
       end.
Proof.
  unfold Clocked.getSyncedSegment.
  pose proof (reset_spec w) as (_ & _ & _ & _ & _ & Hacc & _).
  destruct (reset w) as [u w0]. cbn [snd] in Hacc. intros H. cbv zeta.
  destruct (clocked_syncLoop_timing _ _ _ _ _ _ H)
    as (k & before & Hk & Hs & Ha & He & Hprev).
  exists k, before. split; [exact Hk |]. split; [exact Hs |].
  split; [exact Ha |]. split; [exact He |].
  destruct k as [|j].
  - rewrite Hprev. exact Hacc.
  - split; [exact Hprev |]. intros Hsame. rewrite Hs, Hsame. exact Hprev.
Qed.

(** A call that begins 2 ms before 2024-02-01T00:00Z, on a static station
    with one track of twenty days: the second segment is made in the new
    month and stamped at 2024-02-21T00:00Z. *)
Lemma getSyncedSegment_returns_segment_in_progress_witness :
  let station :=
    Station.createStation "radio_08"
      (mkMeta "static"
         (Sample.groups [mkSegmentInfo "long.ogg" 1728000 None None None]))
      1706745599998 Sample.prng in
  let clock := fun i : nat =>
    match i with
    | O => Clock.mkReadings 1706745599998 1706745599998 1706745599999
    | S _ => Clock.mkReadings 1706745600000 1706745600000 1706745600001
    end in
  let start := Clock.startTimestamp 1706745599998 1706745599998 in
  exists segment w',
    Clocked.getSyncedSegment 10 1706745599998 1706745599998 clock station
    = Some (Normal segment, w')
    /\ startTimestamp segment = 1708473600000%float
    /\ exists (k : nat) (before : float),
         let stampStart :=
           Clock.startTimestamp (Clock.stampYear (clock k))
             (Clock.stampMonth (clock k)) in
         (k < 10)%nat
         /\ startTimestamp segment = Station.timeAt stampStart before
         /\ accumulatedTime (this w')
            = PrimFloat.add before
                (orElse (audibleDuration (info segment))
                   (duration (info segment)))
         /\ PrimFloat.ltb (JS.ofZ (Clock.loopTest (clock k)))
              (Station.timeAt start (accumulatedTime (this w')))
            = true
         /\ match k with
            | O => before = 0%float
            | S j =>
                PrimFloat.ltb (JS.ofZ (Clock.loopTest (clock j)))
                  (Station.timeAt start before)
                = false
                /\ (stampStart = start ->
                    PrimFloat.ltb (JS.ofZ (Clock.loopTest (clock j)))
                      (startTimestamp segment)
                    = false)
            end.
Proof.
  intros station clock start.
  assert (H : exists segment w',
            Clocked.getSyncedSegment 10 1706745599998 1706745599998 clock
              station
            = Some (Normal segment, w')
            /\ startTimestamp segment = 1708473600000%float).
  { vm_compute. eexists _, _. split; reflexivity. }
  destruct H as (segment & w' & H & Hstamp).
  exists segment, w'. split; [exact H |]. split; [exact Hstamp |].
  exact (getSyncedSegment_returns_segment_in_progress _ _ _ _ _ _ _ H).
Defined.

(** X12: what [getSyncedSegment()] returns is the last of the completions of
    [nextSegment()] called again and again from the reset state, all the
    earlier calls having returned segments; and the cut-off of the loop in
    the model does not matter once the loop has ended. *)
Theorem getSyncedSegment_is_last_of_a_run
    (fuel : nat) (now : Z) (w w' : World) (c : Completion SyncedSegment) :
  getSyncedSegment fuel now w = Some (c, w') ->
  (exists earlier,
     (length earlier < fuel)%nat
     /\ nextSegments (S (length earlier)) now (reset w).2
        = ((Normal <$> earlier) ++ [c], w'))
  /\ forall fuel', (fuel <= fuel')%nat ->
       getSyncedSegment fuel' now w = Some (c, w').
Proof.
  rewrite getSyncedSegment_unfold. intros H. split.
  - exact (syncLoop_run _ _ _ _ _ _ H).
  - intros fuel' Hle. rewrite getSyncedSegment_unfold.
    exact (syncLoop_mono _ _ _ _ _ H _ Hle).
Qed.

Lemma getSyncedSegment_is_last_of_a_run_witness :
  exists c w',
    getSyncedSegment 10 Sample.later Sample.talkshow_plain = Some (c, w')
    /\ pathOf c = Some "data/radio_03/id_b.ogg"
    /\ (exists earlier,
          (length earlier < 10)%nat
          /\ nextSegments (S (length earlier)) Sample.later
               (reset Sample.talkshow_plain).2
             = ((Normal <$> earlier) ++ [c], w'))
    /\ forall fuel', (10 <= fuel')%nat ->
         getSyncedSegment fuel' Sample.later Sample.talkshow_plain
         = Some (c, w').
Proof.
  assert (H : exists c w',
            getSyncedSegment 10 Sample.later Sample.talkshow_plain
            = Some (c, w')
            /\ pathOf c = Some "data/radio_03/id_b.ogg").
  { vm_compute. eexists _, _. split; reflexivity. }
  destruct H as (c & w' & H & Hpath).
  exists c, w'. split; [exact H |]. split; [exact Hpath |].
  exact (getSyncedSegment_is_last_of_a_run _ _ _ _ _ H).
Defined.

(** X13: [nextSegment()] and [getSyncedSegment()] leave the metadata as it
    was, up to the [voiceOver] of entries of the "track" group: the type, the
    file groups other than "track", and the length of the track list and the
    path, durations and [voiceovers] of each of its entries stay.  Static
    and talkshow stations leave it unchanged altogether. *)
Theorem metadata_kept_up_to_voiceOver (now : Z) (n fuel : nat) (w : World) :
  let after_run := this (nextSegments n now w).2 in
  let after_sync := this (stateAfter (getSyncedSegment fuel now w) w) in
  metaKept (meta (this w)) (meta after_run)
  /\ metaKept (meta (this w)) (meta after_sync)
  /\ match type (this w) with
     | dynamic => True
     | _ => meta after_run = meta (this w) /\ meta after_sync = meta (this w)
     end.
Proof.
  cbv zeta.
  destruct (nextSegments_frame now n w) as (_ & Hk & He & _).
  assert (Hsync :
    metaKept (meta (this w))
      (meta (this (stateAfter (getSyncedSegment fuel now w) w)))
    /\ (type (this w) <> dynamic ->
        meta (this (stateAfter (getSyncedSegment fuel now w) w))
        = meta (this w))).
  { rewrite getSyncedSegment_unfold.
    destruct (reset_spec w) as (_ & Hty & Hm & _).
    destruct (syncLoop fuel now _ (reset w).2) as [[c w'] |] eqn:Hloop;
      cbn [stateAfter]; [| split; [apply metaKept_refl | reflexivity]].
    destruct (syncLoop_run _ _ _ _ _ _ Hloop) as (earlier & _ & Hrun).
    destruct (nextSegments_frame now (S (length earlier)) (reset w).2)
      as (_ & Hk' & He' & _).
    rewrite Hrun in Hk', He'. cbn [snd] in Hk', He'.
    rewrite Hm in Hk'. rewrite Hm, Hty in He'. split; assumption. }
  destruct Hsync as [Hk2 He2].
  split; [exact Hk |]. split; [exact Hk2 |].
  destruct (type (this w)); [| | exact I]; split;
    first [apply He | apply He2]; discriminate.
Qed.

(** X14: for a static station [getSyncedSegment()] can be asked again: a
    second call at the same clock reading, in the state that the first call
    left, ends as the first did. *)
Theorem static_getSyncedSegment_repeatable
    (fuel : nat) (now : Z) (w w' : World) (c : Completion SyncedSegment) :
  type (this w) = static ->
  getSyncedSegment fuel now w = Some (c, w') ->
  getSyncedSegment fuel now w' = Some (c, w').
Proof.
  intros Hty H. rewrite getSyncedSegment_unfold in H |- *.
  assert (Hreset : forall v, type (this v) = static ->
            (reset v).2
            = mkWorld (PRNG v)
                (set_accumulatedTime 0 (set_segmentIndex 0 (this v)))).
  { intros v Hv. unfold reset. rewrite Hv. reflexivity. }
  rewrite (Hreset w Hty) in H.
  destruct (static_syncLoop_shape _ _ _
              (mkWorld (PRNG w)
                 (set_accumulatedTime 0 (set_segmentIndex 0 (this w))))
              _ _ Hty H) as (Hp & a & i & Hs).
  cbn [this PRNG] in Hp, Hs. rewrite setters_absorb in Hs.
  rewrite Hreset by (rewrite Hs; exact Hty).
  rewrite Hp, Hs, setters_absorb. exact H.
Qed.

Lemma static_getSyncedSegment_repeatable_witness :
  exists c w',
    getSyncedSegment 10 Sample.later Sample.static_plain = Some (c, w')
    /\ pathOf c = Some "data/radio_04/song_b.ogg"
    /\ getSyncedSegment 10 Sample.later w' = Some (c, w').
Proof.
  assert (H : exists c w',
            getSyncedSegment 10 Sample.later Sample.static_plain
            = Some (c, w')
            /\ pathOf c = Some "data/radio_04/song_b.ogg").
  { vm_compute. eexists _, _. split; reflexivity. }
  destruct H as (c & w' & H & Hpath).
  exists c, w'. split; [exact H |]. split; [exact Hpath |].
  exact (static_getSyncedSegment_repeatable 10 Sample.later
           Sample.static_plain w' c eq_refl H).
Defined.

(** X15: on a static station whose tracks all have a zero duration the loop
    of [getSyncedSegment()] never ends: time does not advance, and, the
    clock being past the start of the month, no segment is ever found to
    end after [now]. *)
Theorem static_getSyncedSegment_hangs_on_silent_tracks
    (fuel : nat) (now : Z) (w : World) (tracks : list SegmentInfo) :
  type (this w) = static ->
  fileGroups (meta (this w)) !! "track" = Some tracks -> tracks <> [] ->
  Forall (fun t => orElse (audibleDuration t) (duration t) = 0%float) tracks ->
  PrimFloat.ltb (JS.ofZ now) (Station.timeAt (Station.startTimestamp now) 0)
  = false ->
  getSyncedSegment fuel now w = None.
Proof.
  intros Hty Hl Hne Hsilent Hclock. rewrite getSyncedSegment_unfold.
  destruct (reset_spec w) as (_ & Hty' & Hm & _ & _ & Hacc & _).
  apply (static_silent_loop _ _ _ _ tracks); try assumption; congruence.
Qed.

Lemma static_getSyncedSegment_hangs_on_silent_tracks_witness :
  getSyncedSegment 1000 Sample.now
    (Station.createStation "radio_06"
       (mkMeta "static"
          (Sample.groups [mkSegmentInfo "silence.ogg" 0 None None None]))
       Sample.now Sample.prng)
  = None.
Proof.
  apply (static_getSyncedSegment_hangs_on_silent_tracks 1000 Sample.now _
           [mkSegmentInfo "silence.ogg" 0 None None None]).
  - reflexivity.
  - reflexivity.
  - discriminate.
  - repeat constructor.
  - vm_compute. reflexivity.
Defined.

(** * Spacing of tracks and transitions *)

Lemma Normal_inj {A} (a b : A) : Normal a = Normal b -> a = b.
Proof. intros [= H]. exact H. Qed.

Lemma nextUniqueIndex_other g id n r d (m : Manager.t) :
  g <> id -> (Manager.nextUniqueIndex id n r d m).2 !! g = m !! g.
Proof.
  intros Hne. destruct (m !! id) as [p |] eqn:Hid.
  - rewrite (nextUniqueIndex_existing _ _ _ _ _ _ Hid). cbn [snd].
    apply lookup_insert_ne. auto.
  - rewrite (nextUniqueIndex_fresh _ _ _ _ _ Hid). cbn [snd].
    apply lookup_insert_ne. auto.
Qed.

Lemma drawsSoFar_fresh g len (m : Manager.t) :
  len <> 0%nat -> m !! g = None -> drawsSoFar g len [] m.
Proof.
  intros Hlen Hg. unfold drawsSoFar. rewrite Hg. cbn [default].
  split; [apply covers_new |]. split; [apply remembers_new |].
  split; [apply spaced_nil |]. unfold window. cbn [dontRepeatFor Pool.new].
  split; [reflexivity |]. unfold Manager.defaultDontRepeatFor. lia.
Qed.

Lemma drawsSoFar_lookup g len history (m m' : Manager.t) :
  m' !! g = m !! g -> drawsSoFar g len history m -> drawsSoFar g len history m'.
Proof. unfold drawsSoFar. intros ->. auto. Qed.

Lemma manager_draw_history g len r (m : Manager.t) history :
  drawsSoFar g len history m ->
  exists i,
    (Manager.nextUniqueIndex g len r Manager.defaultDontRepeatFor m).1 = Some i
    /\ (i < len)%nat
    /\ drawsSoFar g len (history ++ [i])
         (Manager.nextUniqueIndex g len r Manager.defaultDontRepeatFor m).2.
Proof.
  unfold drawsSoFar. cbv zeta.
  set (p := default _ (m !! g)). intros (Hc & Hr & Hs & Hw & Hlt).
  assert (Hcall : Manager.nextUniqueIndex g len r Manager.defaultDontRepeatFor m
                  = ((Pool.next r p).1, <[g := (Pool.next r p).2]> m)).
  { unfold p. destruct (m !! g) as [q |] eqn:Hg; cbn [default].
    - apply nextUniqueIndex_existing. assumption.
    - apply nextUniqueIndex_fresh. assumption. }
  destruct (next_steady len history r p Hc Hr Hs Hlt)
    as (x & p' & Hn & Hx & Hc' & Hr' & Hs' & Hw').
  rewrite Hcall, Hn. cbn [fst snd]. exists x.
  split; [reflexivity |]. split; [assumption |].
  rewrite lookup_insert_eq. cbn [default from_option id].
  split; [assumption |]. split; [assumption |]. split; [assumption |].
  rewrite Hw'. split; assumption.
Qed.

Lemma getRandomTrack_pool randNum w :
  post (DynamicStation.getRandomTrack randNum) w (fun c w' =>
    forall o, c = Normal o ->
      exists tracks i t t',
        fileGroups (meta (this w)) !! "track" = Some tracks
        /\ tracks !! i = Some t /\ o = Some t' /\ path t' = path t
        /\ Manager.nextUniqueIndex "track" (length tracks) randNum
             Manager.defaultDontRepeatFor (indexDrawPools (this w))
           = (Some i, indexDrawPools (this w'))).
Proof.
  unfold DynamicStation.getRandomTrack.
  apply post_bind, post_fileGroup.
  destruct (fileGroups (meta (this w)) !! "track") as [tracks |] eqn:Hl;
    [| discriminate].
  apply post_bind, post_nextUniqueIndex. intros x pools Hcall.
  apply post_bind, post_defined.
  destruct x as [i |]; cbn [at_drawn]; [| discriminate].
  destruct (tracks !! i) as [t |] eqn:Ht; [| discriminate].
  destruct (voiceovers t) as [vos |].
  - apply post_bind, post_PRNG_next, post_bind, post_resolveObjectPath.
    destruct (at_mod vos _) as [vo |]; [| discriminate].
    apply post_bind, post_update, post_ret. cbn.
    intros o [= <-]. exists tracks, i, t. eexists.
    split; [reflexivity |]. split; [exact Ht |]. split; [reflexivity |].
    split; [reflexivity |]. exact Hcall.
  - apply post_ret. cbn. intros o [= <-]. exists tracks, i, t, t.
    split; [reflexivity |]. split; [exact Ht |]. split; [reflexivity |].
    split; [reflexivity |]. exact Hcall.
Qed.

Lemma getRandomTransition_pool randNum w :
  post (DynamicStation.getRandomTransition randNum) w (fun _ w' =>
    indexDrawPools (this w') !! "track" = indexDrawPools (this w) !! "track").
Proof.
  unfold DynamicStation.getRandomTransition. cbv zeta.
  set (g := if JS.rem randNum 2 =? 0 then "id" else "mono_solo").
  assert (Hg : "track" <> g).
  { unfold g. destruct (_ =? _); discriminate. }
  apply post_bind, post_fileGroup.
  destruct (fileGroups (meta (this w)) !! g) as [l |]; [| reflexivity].
  apply post_bind, post_nextUniqueIndex. intros x pools Hcall. apply post_ret.
  cbn [this indexDrawPools set_indexDrawPools].
  pose proof (nextUniqueIndex_other "track" g (length l) randNum
                Manager.defaultDontRepeatFor (indexDrawPools (this w)) Hg) as H.
  rewrite Hcall in H. exact H.
Qed.

Lemma dynamic_step_pool now w :
  post (DynamicStation.nextSegment now) w (fun c w' =>
    forall segment, c = Normal segment ->
      match isTrack segment with
      | Some true =>
          exists tracks i t r,
            fileGroups (meta (this w)) !! "track" = Some tracks
            /\ tracks !! i = Some t
            /\ path (info segment) = Station.getAbsolutePath (this w) (path t)
            /\ Manager.nextUniqueIndex "track" (length tracks) r
                 Manager.defaultDontRepeatFor (indexDrawPools (this w))
               = (Some i, indexDrawPools (this w'))
      | _ => indexDrawPools (this w') !! "track"
             = indexDrawPools (this w) !! "track"
      end).
Proof.
  unfold DynamicStation.nextSegment.
  apply post_bind, post_PRNG_next. cbv zeta.
  apply post_bind, post_read. cbn [this PRNG].
  apply post_bind.
  assert (Htail : forall (P : SyncedSegment -> World -> Prop)
                         (c : Completion (option SegmentInfo)) w1 (flag : bool),
    (forall a seg w',
       c = Normal (Some a) ->
       indexDrawPools (this w') = indexDrawPools (this w1) ->
       path (info seg) = Station.getAbsolutePath (this w1) (path a) ->
       isTrack seg = Some flag -> P seg w') ->
    match c with
    | Normal a =>
        post
          (let* t := read accumulatedTime in
           let* segment := Station.newSyncedSegment now a t in
           let* _ := update
                       (set_prevSegment
                          (Some (mkSyncedSegment (info segment)
                                   (startTimestamp segment) (Some flag)))) in
           let* _ := Station.advance
                       (mkSyncedSegment (info segment) (startTimestamp segment)
                          (Some flag)) in
           ret (mkSyncedSegment (info segment) (startTimestamp segment)
                  (Some flag)))
          w1
          (fun c w' => forall segment, c = Normal segment -> P segment w')
    | Throw e => forall segment : SyncedSegment,
        Throw e = Normal segment -> P segment w1
    end).
  { intros P c w1 flag HP. destruct c as [o | e]; [| discriminate].
    apply post_bind, post_read, post_bind, post_newSyncedSegment.
    destruct o as [t |]; [| discriminate].
    apply post_bind, post_update, post_bind, post_advance, post_ret.
    intros segment Heq. apply Normal_inj in Heq. subst segment.
    apply (HP t); reflexivity. }
  pose (P := fun (segment : SyncedSegment) (w' : World) =>
    match isTrack segment with
    | Some true =>
        exists tracks i t r,
          fileGroups (meta (this w)) !! "track" = Some tracks
          /\ tracks !! i = Some t
          /\ path (info segment) = Station.getAbsolutePath (this w) (path t)
          /\ Manager.nextUniqueIndex "track" (length tracks) r
               Manager.defaultDontRepeatFor (indexDrawPools (this w))
             = (Some i, indexDrawPools (this w'))
    | _ => indexDrawPools (this w') !! "track"
           = indexDrawPools (this w) !! "track"
    end).
  destruct (DynamicStation.trackIsDue _ _).
  - pose proof (getRandomTrack_pool
                  (Prng.hash (seed (PRNG w)) (index (PRNG w)))
                  (mkWorld (mkPRNG (seed (PRNG w)) (index (PRNG w) + 1)) (this w)))
      as Hpool.
    pose proof (getRandomTrack_post
                  (Prng.hash (seed (PRNG w)) (index (PRNG w)))
                  (mkWorld (mkPRNG (seed (PRNG w)) (index (PRNG w) + 1)) (this w)))
      as Hpost.
    unfold post in Hpool, Hpost |- *. cbn [this PRNG] in *.
    destruct Hpost as (_ & _ & Hp & _). revert Hpool Hp.
    set (r := DynamicStation.getRandomTrack _ _). clearbody r.
    destruct r as [c w1]. cbn [fst snd]. intros Hpool Hp.
    apply (Htail P c w1 true). unfold P.
    intros a seg w' -> Hpools Hpath Hflag. rewrite Hflag.
    destruct (Hpool _ eq_refl) as (tracks & i & t & t' & Hl & Ht & Ho & Hpt & Hcall).
    injection Ho as <-.
    exists tracks, i, t, (Prng.hash (seed (PRNG w)) (index (PRNG w))).
    split; [exact Hl |]. split; [exact Ht |]. split.
    + rewrite Hpath, Hpt. unfold Station.getAbsolutePath. rewrite Hp.
      reflexivity.
    + rewrite Hpools. exact Hcall.
  - pose proof (getRandomTransition_pool
                  (Prng.hash (seed (PRNG w)) (index (PRNG w)))
                  (mkWorld (mkPRNG (seed (PRNG w)) (index (PRNG w) + 1)) (this w)))
      as Hpool.
    unfold post in Hpool |- *. cbn [this PRNG] in *.
    revert Hpool.
    set (r := DynamicStation.getRandomTransition _ _). clearbody r.
    destruct r as [c w1]. cbn [fst snd]. intros Hpool.
    apply (Htail P c w1 false). unfold P.
    intros a seg w' -> Hpools Hpath Hflag. rewrite Hflag, Hpools. exact Hpool.
Qed.

Lemma dynamic_tracks_run now n : forall w s0 tracks0 tracks history,
  type (this w) = dynamic -> ready (this w) ->
  station_path (this w) = station_path s0 ->
  fileGroups (meta (this w)) !! "track" = Some tracks ->
  Forall2 sameButVoiceOver tracks0 tracks ->
  drawsSoFar "track" (length tracks0) history (indexDrawPools (this w)) ->
  exists picks,
    Forall2
      (fun segment i =>
         exists t, tracks0 !! i = Some t
                   /\ path (info segment) = Station.getAbsolutePath s0 (path t))
      (filter (fun segment => isTrack segment = Some true)
         (returned (nextSegments n now w).1))
      picks
    /\ spaced
         (Z.to_nat (Z.min Manager.defaultDontRepeatFor
                      (Z.of_nat (length tracks0) - 1)))
         (history ++ picks)
    /\ drawsSoFar "track" (length tracks0) (history ++ picks)
         (indexDrawPools (this (nextSegments n now w).2)).
Proof.
  induction n as [|n IH]; intros w s0 tracks0 tracks history Hty Hready Hsp Hl
    Hsame Hpool.
  { exists []. cbn [nextSegments fst snd returned omap]. rewrite app_nil_r.
    split; [constructor |]. split; [| exact Hpool].
    destruct Hpool as (_ & _ & Hs & Hw & _). rewrite <- Hw. exact Hs. }
  rewrite nextSegments_S. cbn [fst snd]. rewrite returned_cons.
  pose proof (dynamic_step now w Hty) as Hstep.
  pose proof (dynamic_step_frame now w) as Hframe.
  pose proof (dynamic_step_pool now w) as Hpl.
  unfold post in Hstep, Hframe, Hpl.
  rewrite <- (nextSegment_dynamic now w Hty) in Hstep, Hframe, Hpl.
  destruct Hstep as (Hty1 & _ & _ & Hr).
  destruct (Hr Hready) as [Hready1 [segment Hseg]].
  destruct Hframe as (Hkept & Hsp1 & _).
  specialize (Hpl segment Hseg). rewrite Hseg.
  destruct Hkept as (_ & _ & Htr). rewrite Hl in Htr.
  inversion Htr as [l1 tracks1 Hsame1 Heq1 Heq2 |]. subst l1.
  symmetry in Heq2.
  assert (Hsame01 : Forall2 sameButVoiceOver tracks0 tracks1).
  { eapply Forall2_trans; [| eassumption | eassumption].
    intros x y z. apply sameButVoiceOver_trans. }
  assert (Hlen : length tracks = length tracks0).
  { symmetry. eapply Forall2_length. eassumption. }
  rewrite filter_cons.
  destruct (decide (isTrack segment = Some true)) as [Htrue | Hfalse].
  - rewrite Htrue in Hpl.
    destruct Hpl as (tracks' & i & t & r & Hl' & Ht & Hpath & Hcall).
    rewrite Hl in Hl'. injection Hl' as <-.
    destruct (manager_draw_history "track" (length tracks0) r
                (indexDrawPools (this w)) history Hpool) as (i' & Hi' & _ & Hpool1).
    rewrite Hlen in Hcall. rewrite Hcall in Hi', Hpool1. cbn [fst snd] in Hi', Hpool1.
    injection Hi' as <-.
    destruct (IH (nextSegment now w).2 s0 tracks0 tracks1 (history ++ [i]))
      as (picks & Hpicks & Hspaced & Hfinal); try assumption.
    { congruence. }
    exists (i :: picks). rewrite <- app_assoc in Hspaced, Hfinal.
    split; [| split; assumption].
    constructor; [| exact Hpicks].
    destruct (Forall2_lookup_r _ _ _ _ _ Hsame Ht) as (t0 & Ht0 & Hrel).
    exists t0. split; [exact Ht0 |]. rewrite Hpath.
    destruct Hrel as (Hp & _). rewrite Hp.
    unfold Station.getAbsolutePath. rewrite Hsp. reflexivity.
  - assert (Hkeep : indexDrawPools (this (nextSegment now w).2) !! "track"
                    = indexDrawPools (this w) !! "track").
    { destruct (isTrack segment) as [[|] |]; [congruence | exact Hpl..]. }
    apply (IH (nextSegment now w).2 s0 tracks0 tracks1 history); try assumption.
    + congruence.
    + revert Hpool. apply drawsSoFar_lookup. exact Hkeep.
Qed.

(** X16: a dynamic station spaces its tracks.  In a run of [nextSegment()]
    calls on a ready station the segments with [isTrack = true] are entries
    of the track list at positions [picks] such that no position occurs twice
    among any [min(8, length - 1) + 1] consecutive ones, also counting the
    positions [history] that the "track" pool had drawn before the run; the
    pool is left having drawn [history ++ picks].  For a new station
    [history] is empty. *)
Theorem dynamic_station_spaces_tracks
    (now : Z) (n : nat) (w : World) (tracks : list SegmentInfo)
    (history : list nat) :
  type (this w) = dynamic -> ready (this w) ->
  fileGroups (meta (this w)) !! "track" = Some tracks ->
  drawsSoFar "track" (length tracks) history (indexDrawPools (this w)) ->
  exists picks,
    Forall2
      (fun segment i =>
         exists t, tracks !! i = Some t
                   /\ path (info segment)
                      = Station.getAbsolutePath (this w) (path t))
      (filter (fun segment => isTrack segment = Some true)
         (returned (nextSegments n now w).1))
      picks
    /\ spaced
         (Z.to_nat (Z.min Manager.defaultDontRepeatFor
                      (Z.of_nat (length tracks) - 1)))
         (history ++ picks)
    /\ drawsSoFar "track" (length tracks) (history ++ picks)
         (indexDrawPools (this (nextSegments n now w).2)).
Proof.
  intros Hty Hready Hl Hpool.
  apply (dynamic_tracks_run now n w (this w) tracks tracks history);
    try assumption; [reflexivity |].
  apply Forall2_same_length_lookup. split; [reflexivity |].
  intros i x y Hx Hy. rewrite Hx in Hy. injection Hy as <-.
  apply sameButVoiceOver_refl.
Qed.

Lemma dynamic_station_spaces_tracks_witness :
  pathOf <$> (nextSegments 8 Sample.now Sample.dynamic_voiced).1
  = [Some "data/radio_01/song_a.ogg"; Some "data/radio_01/id_b.ogg";
     Some "data/radio_01/song_b.ogg"; Some "data/radio_01/id_a.ogg";
     Some "data/radio_01/song_a.ogg"; Some "data/radio_01/id_c.ogg";
     Some "data/radio_01/song_b.ogg"; Some "data/radio_01/song_a.ogg"]
  /\ exists picks,
       Forall2
         (fun segment i =>
            exists t, [Sample.song_a; Sample.song_b] !! i = Some t
                      /\ path (info segment)
                         = Station.getAbsolutePath (this Sample.dynamic_voiced)
                             (path t))
         (filter (fun segment => isTrack segment = Some true)
            (returned (nextSegments 8 Sample.now Sample.dynamic_voiced).1))
         picks
       /\ spaced
            (Z.to_nat (Z.min Manager.defaultDontRepeatFor
                         (Z.of_nat (length [Sample.song_a; Sample.song_b]) - 1)))
            ([] ++ picks)
       /\ drawsSoFar "track" (length [Sample.song_a; Sample.song_b])
            ([] ++ picks)
            (indexDrawPools
               (this (nextSegments 8 Sample.now Sample.dynamic_voiced).2)).
Proof.
  split; [vm_compute; reflexivity |].
  apply (dynamic_station_spaces_tracks Sample.now 8 Sample.dynamic_voiced
           [Sample.song_a; Sample.song_b] []).
  - reflexivity.
  - apply sample_groups_ready; [discriminate |].
    repeat constructor; discriminate.
  - reflexivity.
  - apply drawsSoFar_fresh; [discriminate | reflexivity].
Defined.

Lemma talkshow_step_pool now w :
  post (TalkshowStation.nextSegment now) w (fun c w' =>
    forall segment, c = Normal segment ->
      if TalkshowStation.trackIsDue (prevSegment (this w))
      then indexDrawPools (this w') = indexDrawPools (this w)
      else exists ids i t r,
             fileGroups (meta (this w)) !! "id" = Some ids
             /\ ids !! i = Some t
             /\ info segment
                = withPath (Station.getAbsolutePath (this w) (path t)) t
             /\ Manager.nextUniqueIndex "id" (length ids) r
                  Manager.defaultDontRepeatFor (indexDrawPools (this w))
                = (Some i, indexDrawPools (this w'))).
Proof.
  destruct w as [prng s]. unfold TalkshowStation.nextSegment.
  apply post_bind, post_read. cbv zeta. cbn [this PRNG].
  apply post_bind.
  destruct (TalkshowStation.trackIsDue (prevSegment s)) eqn:Hdue.
  - unfold TalkshowStation.getTrack. apply post_bind, post_fileGroup.
    cbn [this PRNG].
    destruct (fileGroups (meta s) !! "track") as [l |]; [| discriminate].
    apply post_bind, post_read, post_ret.
    apply post_bind, post_read, post_bind, post_newSyncedSegment.
    cbn [this PRNG].
    destruct (at_mod l _) as [t |]; [| discriminate].
    apply post_bind, post_update, post_bind, post_update, post_bind,
      post_advance, post_ret.
    intros segment _. reflexivity.
  - unfold TalkshowStation.getRandomTransition. apply post_bind, post_fileGroup.
    cbn [this PRNG].
    destruct (fileGroups (meta s) !! "id") as [l |] eqn:Hl; [| discriminate].
    apply post_bind, post_PRNG_next, post_bind, post_nextUniqueIndex.
    intros x pools Hcall. apply post_ret.
    apply post_bind, post_read, post_bind, post_newSyncedSegment.
    cbn [this PRNG] in Hcall |- *.
    destruct x as [i |]; cbn [at_drawn]; [| discriminate].
    destruct (l !! i) as [t |] eqn:Ht; [| discriminate].
    apply post_bind, post_ret, post_bind, post_update, post_bind,
      post_advance, post_ret.
    intros segment Heq. apply Normal_inj in Heq. subst segment.
    exists l, i, t. eexists.
    split; [reflexivity |]. split; [exact Ht |]. split; [reflexivity |].
    exact Hcall.
Qed.

Lemma talkshow_transitions_run now n : forall w s0 ids history,
  type (this w) = talkshow -> ready (this w) ->
  station_path (this w) = station_path s0 ->
  fileGroups (meta (this w)) !! "id" = Some ids ->
  drawsSoFar "id" (length ids) history (indexDrawPools (this w)) ->
  exists picks,
    Forall2
      (fun segment i =>
         exists t, ids !! i = Some t
                   /\ info segment
                      = withPath (Station.getAbsolutePath s0 (path t)) t)
      (filter (fun segment => isTrack segment = Some false)
         (returned (nextSegments n now w).1))
      picks
    /\ spaced
         (Z.to_nat (Z.min Manager.defaultDontRepeatFor
                      (Z.of_nat (length ids) - 1)))
         (history ++ picks)
    /\ drawsSoFar "id" (length ids) (history ++ picks)
         (indexDrawPools (this (nextSegments n now w).2)).
Proof.
  induction n as [|n IH]; intros w s0 ids history Hty Hready Hsp Hl Hpool.
  { exists []. cbn [nextSegments fst snd returned omap]. rewrite app_nil_r.
    split; [constructor |]. split; [| exact Hpool].
    destruct Hpool as (_ & _ & Hs & Hw & _). rewrite <- Hw. exact Hs. }
  rewrite nextSegments_S. cbn [fst snd]. rewrite returned_cons.
  pose proof (talkshow_step now w Hty) as Hstep.
  pose proof (talkshow_step_detail now w) as Hdetail.
  pose proof (talkshow_step_pool now w) as Hpl.
  unfold post in Hstep, Hdetail, Hpl.
  rewrite <- (nextSegment_talkshow now w Hty) in Hstep, Hdetail, Hpl.
  destruct Hstep as (Hty1 & Hmeta1 & Hc & Hr).
  destruct (Hr Hready) as [Hready1 [segment Hseg]].
  destruct Hdetail as [Hsp1 _].
  specialize (Hpl segment Hseg). rewrite Hseg in Hc |- *.
  destruct Hc as [Hflag _].
  rewrite filter_cons.
  destruct (TalkshowStation.trackIsDue (prevSegment (this w))).
  - destruct (decide (isTrack segment = Some false)) as [Hfalse | _];
      [congruence |].
    apply (IH (nextSegment now w).2 s0 ids history); try assumption.
    + congruence.
    + congruence.
    + rewrite Hpl. exact Hpool.
  - destruct (decide (isTrack segment = Some false)) as [_ | Hne];
      [| congruence].
    destruct Hpl as (ids' & i & t & r & Hl' & Ht & Hinfo & Hcall).
    rewrite Hl in Hl'. injection Hl' as <-.
    destruct (manager_draw_history "id" (length ids) r
                (indexDrawPools (this w)) history Hpool) as (i' & Hi' & _ & Hpool1).
    rewrite Hcall in Hi', Hpool1. cbn [fst snd] in Hi', Hpool1.
    injection Hi' as <-.
    destruct (IH (nextSegment now w).2 s0 ids (history ++ [i]))
      as (picks & Hpicks & Hspaced & Hfinal); try assumption.
    { congruence. }
    { congruence. }
    exists (i :: picks). rewrite <- app_assoc in Hspaced, Hfinal.
    split; [| split; assumption].
    constructor; [| exact Hpicks].
    exists t. split; [exact Ht |]. rewrite Hinfo.
    unfold Station.getAbsolutePath. rewrite Hsp. reflexivity.
Qed.

(** X17: a talkshow station spaces its transitions.  In a run of
    [nextSegment()] calls on a ready station the segments with
    [isTrack = false] are copies of the entries of the "id" group at
    positions [picks] such that no position occurs twice among any
    [min(8, length - 1) + 1] consecutive ones, also counting the positions
    [history] that the "id" pool had drawn before the run; the pool is left
    having drawn [history ++ picks]. *)
Theorem talkshow_station_spaces_transitions
    (now : Z) (n : nat) (w : World) (ids : list SegmentInfo)
    (history : list nat) :
  type (this w) = talkshow -> ready (this w) ->
  fileGroups (meta (this w)) !! "id" = Some ids ->
  drawsSoFar "id" (length ids) history (indexDrawPools (this w)) ->
  exists picks,
    Forall2
      (fun segment i =>
         exists t, ids !! i = Some t
                   /\ info segment
                      = withPath (Station.getAbsolutePath (this w) (path t)) t)
      (filter (fun segment => isTrack segment = Some false)
         (returned (nextSegments n now w).1))
      picks
    /\ spaced
         (Z.to_nat (Z.min Manager.defaultDontRepeatFor
                      (Z.of_nat (length ids) - 1)))
         (history ++ picks)
    /\ drawsSoFar "id" (length ids) (history ++ picks)
         (indexDrawPools (this (nextSegments n now w).2)).
Proof.
  intros Hty Hready Hl Hpool.
  apply (talkshow_transitions_run now n w (this w) ids history);
    try assumption; reflexivity.
Qed.

Lemma talkshow_station_spaces_transitions_witness :
  pathOf <$> (nextSegments 8 Sample.now Sample.talkshow_plain).1
  = [Some "data/radio_03/song_c.ogg"; Some "data/radio_03/id_b.ogg";
     Some "data/radio_03/song_b.ogg"; Some "data/radio_03/id_c.ogg";
     Some "data/radio_03/song_c.ogg"; Some "data/radio_03/id_a.ogg";
     Some "data/radio_03/song_b.ogg"; Some "data/radio_03/id_b.ogg"]
  /\ exists picks,
       Forall2
         (fun segment i =>
            exists t, [Sample.id_a; Sample.id_b; Sample.id_c] !! i = Some t
                      /\ info segment
                         = withPath
                             (Station.getAbsolutePath
                                (this Sample.talkshow_plain) (path t))
                             t)
         (filter (fun segment => isTrack segment = Some false)
            (returned (nextSegments 8 Sample.now Sample.talkshow_plain).1))
         picks
       /\ spaced
            (Z.to_nat
               (Z.min Manager.defaultDontRepeatFor
                  (Z.of_nat (length [Sample.id_a; Sample.id_b; Sample.id_c])
                   - 1)))
            ([] ++ picks)
       /\ drawsSoFar "id" (length [Sample.id_a; Sample.id_b; Sample.id_c])
            ([] ++ picks)
            (indexDrawPools
               (this (nextSegments 8 Sample.now Sample.talkshow_plain).2)).
Proof.
  split; [vm_compute; reflexivity |].
  apply (talkshow_station_spaces_transitions Sample.now 8
           Sample.talkshow_plain [Sample.id_a; Sample.id_b; Sample.id_c] []).
  - reflexivity.
  - apply sample_groups_ready; [discriminate |].
    repeat constructor; discriminate.
  - reflexivity.
  - apply drawsSoFar_fresh; [discriminate | reflexivity].
Defined.



(** X18: [generate()] reads [seed] and [index] through [seed ^ index] only.
    The value for a seed at an index is the value for seed 0 at the index
    [seed ^ index]; seed and index can be exchanged; and a seed counts by
    its low 32 bits, so that two seeds [2^32] apart generate the same
    numbers. *)
Theorem generate_reads_seed_xor_index (s i k : Z) :
  (Prng.generate (mkPRNG s i)).1
  = (Prng.generate (mkPRNG 0 (JS.bitxor s i))).1
  /\ (Prng.generate (mkPRNG s i)).1 = (Prng.generate (mkPRNG i s)).1
  /\ (Prng.generate (mkPRNG (s + k * 2 ^ 32) i)).1
     = (Prng.generate (mkPRNG s i)).1.
Proof.
  unfold Prng.generate. cbn [fst seed index].
  split; [| split]; apply hash_xor.
  - unfold JS.bitxor. rewrite ToInt32_idempotent.
    rewrite (ToInt32_small 0) by lia. rewrite Z.lxor_0_l.
    symmetry. apply ToInt32_idempotent.
  - unfold JS.bitxor. rewrite Z.lxor_comm. reflexivity.
  - unfold JS.bitxor. rewrite ToInt32_wrap. reflexivity.
Qed.

(** * Creating a station *)

(** X19: the metadata of a station is requested once.  When the first
    [createStation()] on an object without metadata finds the request
    failing, it rejects with a TypeError, and so does every later call,
    without another request, however a request would then settle.  When the
    request succeeds, the first and every later call return a station of the
    class named by [meta.type] ("static", "talkshow", and dynamic for
    anything else) built on that metadata, again without another request. *)
Theorem createStation_requests_metadata_once
    (fetched : Constants.Settled Meta) (now : Z) (prng : SeededPRNG)
    (o : StationMeta.t) :
  StationMeta.meta o = None -> StationMeta.metaPromise o = false ->
  let first := StationMeta.createStation fetched now prng o in
  let o' := first.1.2 in
  first.2 = 1%nat
  /\ match fetched with
     | Constants.Rejected =>
         first.1.1 = Throw TypeError
         /\ forall fetched' now' prng',
              StationMeta.createStation fetched' now' prng' o'
              = (Throw TypeError, o', 0%nat)
     | Constants.Fulfilled res =>
         first.1.1
         = Normal (Station.construct (Station.stationClass (meta_type res))
                     (StationMeta.path o) res now prng)
         /\ forall fetched' now' prng',
              StationMeta.createStation fetched' now' prng' o'
              = (Normal (Station.construct
                           (Station.stationClass (meta_type res))
                           (StationMeta.path o) res now' prng'),
                 o', 0%nat)
     end.
Proof.
  intros Hmeta Hpromise. cbv zeta.
  assert (Hfirst :
    StationMeta.createStation fetched now prng o
    = match fetched with
      | Constants.Fulfilled res =>
          (Normal (Station.createStation (StationMeta.path o) res now prng),
           StationMeta.mk (StationMeta.path o) (Some res) true, 1%nat)
      | Constants.Rejected =>
          (Throw TypeError, StationMeta.mk (StationMeta.path o) None true, 1%nat)
      end).
  { unfold StationMeta.createStation, StationMeta.loadMeta.
    rewrite Hmeta, Hpromise. destruct fetched as [res |]; reflexivity. }
  rewrite Hfirst. destruct fetched as [res |]; cbn [fst snd].
  - split; [reflexivity |]. split; [reflexivity |].
    intros fetched' now' prng'. reflexivity.
  - split; [reflexivity |]. split; [reflexivity |].
    intros fetched' now' prng'. reflexivity.
Qed.

Lemma createStation_requests_metadata_once_witness :
  (StationMeta.createStation Constants.Rejected Sample.now Sample.prng
     (StationMeta.mk "radio_07" None false)).1.1 = Throw TypeError
  /\ forall fetched' now' prng',
       StationMeta.createStation fetched' now' prng'
         (StationMeta.createStation Constants.Rejected Sample.now Sample.prng
            (StationMeta.mk "radio_07" None false)).1.2
       = (Throw TypeError,
          (StationMeta.createStation Constants.Rejected Sample.now Sample.prng
             (StationMeta.mk "radio_07" None false)).1.2,
          0%nat).
Proof.
  exact (proj2 (createStation_requests_metadata_once Constants.Rejected
                  Sample.now Sample.prng (StationMeta.mk "radio_07" None false)
                  eq_refl eq_refl)).
Defined.
